(** * update_tokens.py: a shallow embedding and its verified properties

    The script rewrites Go [tokens.go] files: it adds the import of the
    symbol package when it is missing, turns [const (] into [var (] and
    wraps string literals that start with [govel.] into [symbol.For(...)].

    Text is a list of characters.  A character is a code point below 256,
    so a text is a Python [str] over that range; the character classes
    below are the ones Python's [str.isspace], [\s], [\w] and [\b] use on
    these code points. *)

From Stdlib Require Import String.
From Stdlib Require Import List Ascii Bool Arith Lia Permutation.
Import ListNotations.

(** ** Characters and text *)

Definition text := list ascii.

Definition str (s : string) : text := list_ascii_of_string s.

Definition newline : ascii := "010"%char.
Definition tab : ascii := "009"%char.
Definition dquote : ascii := "034"%char.

(** [quoted s] is [s] between two double quotes. *)
Definition quoted (s : text) : text := dquote :: s ++ [dquote].

(** [str.isspace] (and the regex class [\s]) on code points below 256. *)
Definition isspace (c : ascii) : bool :=
  let n := nat_of_ascii c in
  ((9 <=? n) && (n <=? 13)) || ((28 <=? n) && (n <=? 32))
  || (n =? 133) || (n =? 160).

(** The regex class [\w] on code points below 256: alphanumerics and the
    underscore. *)
Definition isword (c : ascii) : bool :=
  let n := nat_of_ascii c in
  ((48 <=? n) && (n <=? 57)) || ((65 <=? n) && (n <=? 90)) || (n =? 95)
  || ((97 <=? n) && (n <=? 122))
  || (n =? 170) || (n =? 178) || (n =? 179) || (n =? 181) || (n =? 185)
  || (n =? 186) || ((188 <=? n) && (n <=? 190))
  || ((192 <=? n) && (n <=? 214)) || ((216 <=? n) && (n <=? 246))
  || (248 <=? n).

(** The regex class [[A-Z_]]. *)
Definition isupper_us (c : ascii) : bool :=
  let n := nat_of_ascii c in
  ((65 <=? n) && (n <=? 90)) || (n =? 95).

(** The regex class of every character but the double quote. *)
Definition notquote (c : ascii) : bool := negb (Ascii.eqb c dquote).

Fixpoint text_eqb (a b : text) : bool :=
  match a, b with
  | [], [] => true
  | x :: a', y :: b' => Ascii.eqb x y && text_eqb a' b'
  | _, _ => false
  end.

(** [s.startswith(p)]. *)
Fixpoint startswith (s p : text) {struct p} : bool :=
  match p, s with
  | [], _ => true
  | x :: p', y :: s' => Ascii.eqb x y && startswith s' p'
  | _ :: _, [] => false
  end.

(** [needle in hay]. *)
Fixpoint contains (needle hay : text) : bool :=
  startswith hay needle
  || match hay with
     | [] => false
     | _ :: t => contains needle t
     end.

Fixpoint dropwhile (f : ascii -> bool) (s : text) : text :=
  match s with
  | [] => []
  | x :: t => if f x then dropwhile f t else s
  end.

Fixpoint takewhile (f : ascii -> bool) (s : text) : text :=
  match s with
  | [] => []
  | x :: t => if f x then x :: takewhile f t else []
  end.

(** [s.strip()]: whitespace removed at both ends. *)
Definition lstrip (s : text) : text := dropwhile isspace s.
Definition rstrip (s : text) : text := rev (dropwhile isspace (rev s)).
Definition strip (s : text) : text := rstrip (lstrip s).

(** [content.split('\n')]: never empty, the empty text gives one empty
    line. *)
Fixpoint split_lines (s : text) : list text :=
  match s with
  | [] => [[]]
  | c :: t =>
      if Ascii.eqb c newline then [] :: split_lines t
      else match split_lines t with
           | l :: ls => (c :: l) :: ls
           | [] => [[c]]
           end
  end.

(** ['\n'.join(lines)]. *)
Fixpoint join_lines (ls : list text) : text :=
  match ls with
  | [] => []
  | [l] => l
  | l :: ls' => l ++ newline :: join_lines ls'
  end.

(** [lines.insert(i, x)]: an index past the end appends, as in Python. *)
Definition list_insert {A : Type} (l : list A) (i : nat) (x : A) : list A :=
  firstn i l ++ x :: skipn i l.

(** [lines[i] = x].  The script only assigns inside the list; out of
    range (where Python raises) the list is returned as it is. *)
Fixpoint list_set {A : Type} (l : list A) (i : nat) (x : A) : list A :=
  match l, i with
  | [], _ => []
  | _ :: t, 0 => x :: t
  | y :: t, S i' => y :: list_set t i' x
  end.

(** ** Exceptions *)

Inductive exn : Type :=
| ValueError (msg : string)
| OSError (msg : string).

Inductive result (A : Type) : Type :=
| Ok (a : A)
| Raise (e : exn).

Arguments Ok {A} a.
Arguments Raise {A} e.

Definition bind {A B : Type} (r : result A) (k : A -> result B) : result B :=
  match r with
  | Ok a => k a
  | Raise e => Raise e
  end.

Notation "x <- r ;; k" := (bind r (fun x => k))
  (at level 61, r at next level, right associativity).

(** ** The fragment of Python's [re] the script uses

    A pattern is a sequence of items; every quantifier of the script's
    patterns ranges over a single character class.  Matching is the
    backtracking search of [re]: a greedy quantifier first takes as many
    characters as it can and gives them back one at a time while the rest
    of the pattern fails. *)

Inductive item : Type :=
| One (f : ascii -> bool)        (* one character of the class *)
| Star (f : ascii -> bool)       (* [f*], greedy *)
| Plus (f : ascii -> bool)       (* [f+], greedy *)
| Boundary.                      (* [\b] *)

Definition pattern := list item.

(** A literal string as a pattern. *)
Definition lit (s : string) : pattern := map (fun c => One (Ascii.eqb c)) (str s).

Definition wordp (prev : option ascii) : bool :=
  match prev with
  | Some c => isword c
  | None => false
  end.

Definition with_seg (seg : text) (r : option (list text * text))
  : option (list text * text) :=
  match r with
  | Some (segs, rest) => Some (seg :: segs, rest)
  | None => None
  end.

(** [greedy f k prev s]: take characters of [f] from [s], longest run
    first, until the continuation [k] matches what is left. The result is
    the run taken and the continuation's result. *)
Fixpoint greedy (f : ascii -> bool)
  (k : option ascii -> text -> option (list text * text))
  (prev : option ascii) (s : text) : option (text * (list text * text)) :=
  match s with
  | x :: t =>
      if f x then
        match greedy f k (Some x) t with
        | Some (run, r) => Some (x :: run, r)
        | None => option_map (pair []) (k prev s)
        end
      else option_map (pair []) (k prev s)
  | [] => option_map (pair []) (k prev [])
  end.

Definition close_run (r : option (text * (list text * text)))
  : option (list text * text) :=
  match r with
  | Some (run, (segs, rest)) => Some (run :: segs, rest)
  | None => None
  end.

(** [match_items p prev s]: match [p] at the start of [s], where [prev]
    is the character before [s] (none at the start of the string). The
    result lists what each item consumed, and the text left. *)
Fixpoint match_items (p : pattern) (prev : option ascii) (s : text)
  : option (list text * text) :=
  match p with
  | [] => Some ([], s)
  | One f :: p' =>
      match s with
      | x :: t => if f x then with_seg [x] (match_items p' (Some x) t) else None
      | [] => None
      end
  | Star f :: p' => close_run (greedy f (match_items p') prev s)
  | Plus f :: p' =>
      match s with
      | x :: t =>
          if f x then
            match greedy f (match_items p') (Some x) t with
            | Some (run, (segs, rest)) => Some ((x :: run) :: segs, rest)
            | None => None
            end
          else None
      | [] => None
      end
  | Boundary :: p' =>
      if xorb (wordp prev) (wordp (hd_error s))
      then with_seg [] (match_items p' prev s)
      else None
  end.

(** [re.search(p, s)] as a truth value: is there a position of [s] where
    [p] matches? *)
Fixpoint search (p : pattern) (prev : option ascii) (s : text) : bool :=
  match match_items p prev s with
  | Some _ => true
  | None =>
      match s with
      | [] => false
      | x :: t => search p (Some x) t
      end
  end.

(** [re.sub(p, repl, s)]: the matches are found from left to right and
    do not overlap; each is replaced by [repl] of what its items consumed.
    [n] bounds the number of steps; [sub_at] gives it the length of the
    text and one more, which is enough (lemma [sub_from_fuel]).  A match
    that consumes nothing, which none of the script's patterns has, is
    replaced and the scan moves one character on. *)
Fixpoint sub_from (n : nat) (p : pattern) (repl : list text -> text)
  (prev : option ascii) (s : text) : text :=
  match n with
  | 0 => s
  | S n' =>
      match match_items p prev s with
      | Some (segs, rest) =>
          if length rest <? length s
          then repl segs ++ sub_from n' p repl (Some (last (concat segs) newline)) rest
          else repl segs ++
               match s with
               | [] => []
               | x :: t => x :: sub_from n' p repl (Some x) t
               end
      | None =>
          match s with
          | [] => []
          | x :: t => x :: sub_from n' p repl (Some x) t
          end
      end
  end.

(** The scan of [re.sub] from a position whose preceding character is
    [prev]. *)
Definition sub_at (p : pattern) (repl : list text -> text)
  (prev : option ascii) (s : text) : text :=
  sub_from (S (length s)) p repl prev s.

Definition sub (p : pattern) (repl : list text -> text) (s : text) : text :=
  sub_at p repl None s.

(** ** The script's constants *)

Definition symbol_path : text := str "govel/packages/support/src/symbol".

(** The quoted path, as it stands in a Go import. *)
Definition quoted_path : text := quoted symbol_path.

(** The single-form import statement of the path. *)
Definition import_statement : text := str "import " ++ quoted_path.

(** The entry of a grouped import: a tab and the quoted path. *)
Definition import_entry : text := tab :: quoted_path.

Definition package_kw : text := str "package ".
Definition factory_token : text := str "symbol.For(".

(** ** [has_symbol_import] *)

Definition has_symbol_import (content : text) : bool :=
  contains import_statement content || contains quoted_path content.

(** ** [add_symbol_import] *)

(** The first loop: the index of the first line that starts with
    [package ], counted from [i]. *)
Fixpoint find_package (lines : list text) (i : nat) : option nat :=
  match lines with
  | [] => None
  | l :: ls =>
      if startswith l package_kw then Some i else find_package ls (S i)
  end.

(** The inner loop: the index of the first line that is [)] once
    stripped, among [rest] whose first line has index [j]. *)
Fixpoint find_close (rest : list text) (j : nat) : option nat :=
  match rest with
  | [] => None
  | l :: r =>
      if text_eqb (strip l) (str ")") then Some j else find_close r (S j)
  end.

(** What the second loop leaves behind: the lines (changed when a single
    import was promoted to a block), [has_imports], [import_start] and
    [import_end]; the script's -1 is [None]. *)
Record scan : Type := Scan {
  scan_lines : list text;
  has_imports : bool;
  import_start : option nat;
  import_end : option nat
}.

(** The second loop, [for i in range(package_line + 1, len(lines))]:
    [rest] holds the lines from index [i] on and [has] is [has_imports]
    so far. *)
Fixpoint scan_imports (lines : list text) (i : nat) (rest : list text)
  (has : bool) : scan :=
  match rest with
  | [] => Scan lines has None None
  | l :: rest' =>
      let line := strip l in
      if text_eqb line [] then scan_imports lines (S i) rest' has
      else if startswith line (str "import") then
        if startswith line (str "import (") then
          Scan lines true (Some i) (find_close rest' (S i))
        else if startswith line (str "import ") then
          let lines1 := list_set lines i (str "import (") in
          let lines2 := list_insert lines1 (i + 1) (tab :: skipn 7 line) in
          let lines3 := list_insert lines2 (i + 2) (str ")") in
          Scan lines3 true (Some i) (Some (i + 2))
        else scan_imports lines (S i) rest' true
      else Scan lines has None None
  end.

Definition no_package : exn := ValueError "No package declaration found".

Definition add_symbol_import (content : text) : result text :=
  let lines := split_lines content in
  match find_package lines 0 with
  | None => Raise no_package
  | Some package_line =>
      let sc := scan_imports lines (package_line + 1)
                  (skipn (package_line + 1) lines) false in
      let lines := scan_lines sc in
      if negb (has_imports sc) then
        let lines := list_insert lines (package_line + 1) [] in
        let lines := list_insert lines (package_line + 2) import_statement in
        let lines := list_insert lines (package_line + 3) [] in
        Ok (join_lines lines)
      else
        match import_start sc, import_end sc with
        | Some _, Some import_end => Ok (join_lines (list_insert lines import_end import_entry))
        | _, _ => Ok (join_lines lines)
        end
  end.

(** ** [convert_const_to_var] *)

(** [\bconst\s*\(]. *)
Definition const_pattern : pattern :=
  Boundary :: lit "const" ++ [Star isspace; One (Ascii.eqb "("%char)].

Definition var_opener : text := str "var (".

Definition convert_const_to_var (content : text) : text :=
  sub const_pattern (fun _ => var_opener) content.

(** ** [convert_string_to_symbol] *)

(** The pattern of the rewrite: group 1 is [\s*], group 2 is [[A-Z_]+];
    then come [\s*=\s*], a double quote, group 3, which is [govel\.]
    followed by one or more characters that are no double quote, and a
    double quote. *)
Definition token_pattern : pattern :=
  [Star isspace; Plus isupper_us; Star isspace; One (Ascii.eqb "="%char);
   Star isspace; One (Ascii.eqb dquote)]
  ++ lit "govel." ++ [Plus notquote; One (Ascii.eqb dquote)].

(** The pattern of the guard: the same without group 1. *)
Definition guard_pattern : pattern := tl token_pattern.

(** The groups of a match of [token_pattern], from what its items
    consumed: group 1 is item 0, group 2 item 1, and group 3 the items
    from [govel.] to the last character before the closing quote. *)
Definition group1 (segs : list text) : text := nth 0 segs [].
Definition group2 (segs : list text) : text := nth 1 segs [].
Definition group3 (segs : list text) : text := concat (firstn 7 (skipn 6 segs)).

Definition replace_func (segs : list text) : text :=
  let indent := group1 segs in
  let token_name := group2 segs in
  let token_value := group3 segs in
  indent ++ token_name ++ str " = symbol.For(" ++ quoted token_value ++ str ")".

(** The body of the loop over the lines. *)
Definition convert_line (line : text) : text :=
  if negb (contains factory_token line) && search guard_pattern None line
  then sub token_pattern replace_func line
  else line.

Definition convert_string_to_symbol (content : text) : text :=
  join_lines (map convert_line (split_lines content)).

(** ** [update_tokens_file] and [main] *)

(** Steps 1 to 3 of [update_tokens_file]: what the file's text becomes,
    or the exception raised on the way. *)
Definition transform (original_content : text) : result text :=
  content <- (if negb (has_symbol_import original_content)
              then add_symbol_import original_content
              else Ok original_content) ;;
  let content := convert_const_to_var content in
  let content := convert_string_to_symbol content in
  Ok content.

(** The files the script can read, by path; reading a path that holds
    nothing raises.  Writing a file that was just read is taken to
    succeed. *)
Definition filesystem := string -> option text.

Definition read_file (fs : filesystem) (path : string) : result text :=
  match fs path with
  | Some content => Ok content
  | None => Raise (OSError "No such file or directory")
  end.

Definition write_file (fs : filesystem) (path : string) (content : text)
  : filesystem :=
  fun p => if String.eqb p path then Some content else fs p.

(** What the script prints. *)
Inductive event : Type :=
| NoFilesFound
| Found (n : nat)
| Listed (path : string)
| UpdatingFiles
| Processing (path : string)
| Updated
| NoChangesNeeded
| ErrorProcessing (path : string) (e : exn)
| Completed (updated total : nat).

(** [update_tokens_file]: the file system after the call, what was
    printed, and the value returned. *)
Definition update_tokens_file (fs : filesystem) (file_path : string)
  : filesystem * list event * bool :=
  match (original_content <- read_file fs file_path ;;
         content <- transform original_content ;;
         Ok (original_content, content)) with
  | Ok (original_content, content) =>
      if negb (text_eqb content original_content)
      then (write_file fs file_path content, [], true)
      else (fs, [], false)
  | Raise e => (fs, [ErrorProcessing file_path e], false)
  end.

(** The loop of [main] over the files found. *)
Fixpoint update_all (fs : filesystem) (tokens_files : list string)
  : filesystem * list event * nat :=
  match tokens_files with
  | [] => (fs, [], 0)
  | file_path :: others =>
      let '(fs1, printed, modified) := update_tokens_file fs file_path in
      let '(fs2, printed', updated_count) := update_all fs1 others in
      (fs2,
       Processing file_path :: printed
         ++ (if modified then Updated else NoChangesNeeded) :: printed',
       (if modified then 1 else 0) + updated_count)
  end.

(** [main], given the files [find_tokens_files] returns. *)
Definition main (fs : filesystem) (tokens_files : list string)
  : filesystem * list event :=
  match tokens_files with
  | [] => (fs, [NoFilesFound])
  | _ =>
      let '(fs', printed, updated_count) := update_all fs tokens_files in
      (fs',
       Found (length tokens_files) :: map Listed tokens_files
         ++ UpdatingFiles :: printed
         ++ [Completed updated_count (length tokens_files)])
  end.

(** ** Notions the statements below use *)

(** A line that is empty once stripped. *)
Definition blank (l : text) : bool := text_eqb (strip l) [].

(** The first line that is not blank. *)
Definition first_nonblank (ls : list text) : option text :=
  find (fun l => negb (blank l)) ls.

(** No line of [ls] starts with [package ]. *)
Definition no_header (ls : list text) : Prop :=
  Forall (fun l => startswith l package_kw = false) ls.

(** The character before the text that follows [run], when [prev] is the
    character before [run]. *)
Fixpoint prev_after (prev : option ascii) (run : text) : option ascii :=
  match run with
  | [] => prev
  | x :: t => prev_after (Some x) t
  end.

(** [strip_prefix p s] is what follows [p] in [s], when [s] starts with
    [p]. *)
Fixpoint strip_prefix (p s : text) : option text :=
  match p, s with
  | [], _ => Some s
  | x :: p', y :: s' => if Ascii.eqb x y then strip_prefix p' s' else None
  | _ :: _, [] => None
  end.

(** An opener of a grouped constant declaration at the start of [s]: the
    word [const], not preceded by a word character, then whitespace or
    none, then an opening parenthesis.  The result is the text after the
    parenthesis. *)
Definition opener_at (prev : option ascii) (s : text) : option text :=
  if wordp prev then None
  else match strip_prefix (str "const") s with
       | Some s1 =>
           match dropwhile isspace s1 with
           | c :: r => if Ascii.eqb "("%char c then Some r else None
           | [] => None
           end
       | None => None
       end.

(** The rest of an opener from its [k]-th character on ([k] from 0 to
    5): what is left of [const], whitespace, the parenthesis. *)
Definition opener_rest (k : nat) (s : text) : bool :=
  match strip_prefix (skipn k (str "const")) s with
  | Some s1 =>
      match dropwhile isspace s1 with
      | c :: _ => Ascii.eqb "("%char c
      | [] => false
      end
  | None => false
  end.

(** The number of positions of [s] where an opener starts. *)
Fixpoint count_openers (prev : option ascii) (s : text) : nat :=
  match s with
  | [] => 0
  | x :: t =>
      (match opener_at prev s with Some _ => 1 | None => 0 end)
      + count_openers (Some x) t
  end.

(** The number of positions of [hay] where [needle] starts. *)
Fixpoint occurrences (needle hay : text) : nat :=
  match hay with
  | [] => 0
  | _ :: t => (if startswith hay needle then 1 else 0) + occurrences needle t
  end.

(** [convert_const_to_var] from a position on. *)
Definition const_to_var_at (prev : option ascii) (s : text) : text :=
  sub_at const_pattern (fun _ => var_opener) prev s.

(** The word [const] of each chunk stands at a word boundary: [prev] is
    the character before the first chunk, and a chunk that follows
    another comes right after a parenthesis. *)
Fixpoint boundaries (prev : option ascii) (chunks : list (text * text)) : Prop :=
  match chunks with
  | [] => True
  | (kept, _) :: rest =>
      wordp (prev_after prev kept) = false /\ boundaries (Some "("%char) rest
  end.

(** The letter an opener has at position [k]. *)
Definition const_letter (k : nat) : ascii := nth k (str "const") "("%char.

(** A text cut into chunks, each a kept part followed by an opener with
    its whitespace, and a tail; and the same with each opener replaced. *)
Definition with_const (chunks : list (text * text)) (tail : text) : text :=
  concat (map (fun uw => fst uw ++ str "const" ++ snd uw ++ str "(") chunks)
  ++ tail.

Definition with_var (chunks : list (text * text)) (tail : text) : text :=
  concat (map (fun uw => fst uw ++ var_opener) chunks) ++ tail.

(** Two texts that differ at a position both have. *)
Fixpoint clash (a b : text) : bool :=
  match a, b with
  | x :: a', y :: b' => negb (Ascii.eqb x y) || clash a' b'
  | _, _ => false
  end.

(** The suffixes of a text that are not empty. *)
Fixpoint tails (s : text) : list text :=
  match s with
  | [] => []
  | _ :: t => s :: tails t
  end.

(** A needle whose occurrences the replacement of openers can neither
    cut nor complete: it starts with no character of an opener or of the
    replacement after its first, and none of its proper suffixes can
    start where an opener or its replacement starts. *)
Definition apart_from_openers (needle : text) : bool :=
  match needle with
  | [] => false
  | h :: n =>
      negb (isspace h)
      && forallb (fun x => negb (Ascii.eqb h x)) (str "const(ar (")
      && forallb (fun n' => clash n' var_opener && clash n' (str "const"))
           (tails n)
      && (startswith var_opener needle || clash needle var_opener)
  end.

(** The rewrite of a line from a position on. *)
Definition rewrite_at (prev : option ascii) (s : text) : text :=
  sub_at token_pattern replace_func prev s.

(** A string literal that starts with [govel.], and the call that wraps
    it. *)
Definition govel_literal (rest : text) : text := quoted (str "govel." ++ rest).

Definition factory_call (rest : text) : text :=
  factory_token ++ govel_literal rest ++ str ")".

(** An assignment of such a literal: indentation, identifier, the equals
    sign with the whitespace [w1] and [w2] around it, the literal; and
    what the rewriter makes of it. *)
Definition assignment (indent name w1 w2 rest : text) : text :=
  indent ++ name ++ w1 ++ str "=" ++ w2 ++ govel_literal rest.

Definition rewritten (indent name rest : text) : text :=
  indent ++ name ++ str " = " ++ factory_call rest.

(** The parts of an assignment the rewriter takes: whitespace where
    whitespace may stand, an identifier of capitals and underscores, and
    a literal with something after [govel.] and no double quote inside. *)
Definition eligible (indent name w1 w2 rest : text) : Prop :=
  forallb isspace indent = true
  /\ name <> [] /\ forallb isupper_us name = true
  /\ forallb isspace w1 = true /\ forallb isspace w2 = true
  /\ rest <> [] /\ forallb notquote rest = true.

(** What the rewriter consumes of an assignment, item by item, from the
    whitespace after the equals sign on. *)
Definition literal_segs (w2 rest : text) : list text :=
  [w2; [dquote]] ++ map (fun c => [c]) (str "govel.") ++ [rest; [dquote]].

(** The changes the literal rewriter can make to a text, seen from
    outside: a character is kept; the head of an assignment, up to the
    whitespace after the equals sign, is rewritten with single spaces
    and followed by the factory token; a closing parenthesis is put after
    a double quote. *)
Inductive rewrites : text -> text -> Prop :=
| rewrites_nil : rewrites [] []
| rewrites_keep (x : ascii) (s s' : text) :
    rewrites s s' -> rewrites (x :: s) (x :: s')
| rewrites_head (indent name w1 w2 s s' : text) :
    forallb isspace indent = true ->
    name <> [] -> forallb isupper_us name = true ->
    forallb isspace w1 = true -> forallb isspace w2 = true ->
    rewrites s s' ->
    rewrites (indent ++ name ++ w1 ++ "="%char :: w2 ++ s)
      (indent ++ name ++ str " = symbol.For(" ++ s')
| rewrites_paren (s s' : text) :
    rewrites s s' -> rewrites (dquote :: s) (dquote :: ")"%char :: s').

(** A needle whose occurrences the rewriter cannot complete: it has at
    least two characters, none of them whitespace, a capital, an
    underscore or a closing parenthesis, and it starts with no character
    of what the rewriter writes. *)
Definition apart_from_rewrites (needle : text) : bool :=
  match needle with
  | h :: _ :: _ =>
      forallb (fun x => negb (isspace x) && negb (isupper_us x)
                        && negb (Ascii.eqb x ")"%char)) needle
      && forallb (fun x => negb (Ascii.eqb h x)) (str " = symbol.For()")
  | _ => false
  end.

(** A text without a line feed. *)
Definition one_line (s : text) : bool :=
  forallb (fun x => negb (Ascii.eqb x newline)) s.

(** The occurrences of [needle] in the lines [ls], added up. *)
Definition total (needle : text) (ls : list text) : nat :=
  list_sum (map (occurrences needle) ls).

(** A text that is empty or ends with a line feed, and one that is empty
    or starts with one. *)
Definition ends_line (s : text) : Prop :=
  s = [] \/ exists s0, s = s0 ++ [newline].

Definition starts_line (s : text) : Prop :=
  s = [] \/ exists s0, s = newline :: s0.

(** What a successful match tells: [segs] lists what the items of [p]
    consumed, one after the other, in front of [r]. *)
Fixpoint fits (p : pattern) (prev : option ascii) (segs : list text) (r : text)
  : Prop :=
  match p, segs with
  | [], [] => True
  | One f :: p', seg :: segs' =>
      exists x, seg = [x] /\ f x = true /\ fits p' (Some x) segs' r
  | Star f :: p', seg :: segs' =>
      forallb f seg = true /\ fits p' (prev_after prev seg) segs' r
  | Plus f :: p', seg :: segs' =>
      seg <> [] /\ forallb f seg = true /\ fits p' (prev_after prev seg) segs' r
  | Boundary :: p', seg :: segs' =>
      seg = [] /\ xorb (wordp prev) (wordp (hd_error (concat segs' ++ r))) = true
      /\ fits p' prev segs' r
  | _, _ => False
  end.

(** A line without the quoted path. *)
Definition path_free (l : text) : Prop := occurrences quoted_path l = 0.

(** ** Sample files *)

(** A file whose literal is directly followed by the rest of the quoted
    path, so that the closing quote of the literal opens the path. *)
Definition glued_file : text :=
  join_lines
    [str "package p";
     str "A = " ++ govel_literal (str "x") ++ symbol_path ++ [dquote]].

(** What the transform makes of [glued_file], and of that in turn. *)
Definition glued_once : text :=
  join_lines
    [str "package p";
     str "A = " ++ factory_call (str "x") ++ symbol_path ++ [dquote]].

Definition glued_twice : text :=
  join_lines
    [str "package p"; []; import_statement; [];
     str "A = " ++ factory_call (str "x") ++ symbol_path ++ [dquote]].

(** A file whose grouped import is never closed. *)
Definition unclosed_file : text :=
  join_lines [str "package p"; str "import ("; tab :: quoted (str "fmt")].

(** A plain tokens file, and what the transform makes of it. *)
Definition plain_file : text :=
  join_lines
    [str "package tokens"; [];
     str "const (";
     tab :: str "STATUS_OK   =  " ++ govel_literal (str "status.ok");
     str ")"].

Definition plain_done : text :=
  join_lines
    [str "package tokens"; []; import_statement; []; [];
     str "var (";
     tab :: str "STATUS_OK = " ++ factory_call (str "status.ok");
     str ")"].

(** A file with a single-form import. *)
Definition single_file : text :=
  join_lines
    [str "package tokens"; []; str "import " ++ quoted (str "fmt");
     str "const ("; str ")"].

(** A file without a header. *)
Definition headless_file : text :=
  join_lines [str "const ("; str ")"].

(** A file system that holds one file. *)
Definition one_file (content : text) : filesystem :=
  fun path => if String.eqb path "tokens.go" then Some content else None.

(** ** Tactics *)

Ltac char_cases x :=
  destruct x as [[|] [|] [|] [|] [|] [|] [|] [|]];
  try reflexivity; try discriminate.

Ltac nonempty :=
  let H := fresh in
  intros H; apply (f_equal (@length ascii)) in H;
  rewrite ?length_app in H; cbn [length] in H; lia.

(** ** More notions for the statements *)

(** A line the second loop of [add_symbol_import] passes over with
    [has_imports] set: once stripped it starts with [import], and no
    space follows the word. *)
Definition odd_import (l : text) : bool :=
  startswith (strip l) (str "import")
  && negb (startswith (strip l) (str "import ")).

(** A line the second loop passes over: blank, or an odd import. *)
Definition passed_over (l : text) : Prop :=
  blank l = true \/ odd_import l = true.

(** The lines that report an update among what is printed. *)
Definition is_updated (e : event) : bool :=
  match e with
  | Updated => true
  | _ => false
  end.

(** What the loop of [main] prints for one file: the [Processing] line
    and a status line, with the error line of [update_tokens_file]
    between them when the call failed; a failed call is never reported
    as an update. *)
Definition report_block (path : string) (block : list event) : Prop :=
  block = [Processing path; Updated]
  \/ block = [Processing path; NoChangesNeeded]
  \/ exists e, block = [Processing path; ErrorProcessing path e; NoChangesNeeded].

(** ** More sample files *)

(** [plain_file] after the import manager. *)
Definition plain_imported : text :=
  join_lines
    [str "package tokens"; []; import_statement; []; [];
     str "const (";
     tab :: str "STATUS_OK   =  " ++ govel_literal (str "status.ok");
     str ")"].

(** A file with a grouped import, and what the import manager makes of
    it. *)
Definition grouped_file : text :=
  join_lines
    [str "package tokens"; []; str "import ("; tab :: quoted (str "fmt");
     str ")"; []; str "const ("; str ")"].

Definition grouped_imported : text :=
  join_lines
    [str "package tokens"; []; str "import ("; tab :: quoted (str "fmt");
     import_entry; str ")"; []; str "const ("; str ")"].

(** A file whose only import has no space after the word. *)
Definition odd_file : text :=
  join_lines
    [str "package tokens"; []; str "import" ++ quoted (str "fmt"); [];
     str "const ("; str ")"].

(** ** A tokens file of the expected layout *)

(** A character that is no opening parenthesis, no double quote and no
    line feed; a line of such characters (a comment, a blank line, a
    closing parenthesis) is inert for the converter and the rewriter. *)
Definition plain_char (x : ascii) : bool :=
  negb (Ascii.eqb x "("%char) && negb (Ascii.eqb x dquote)
  && negb (Ascii.eqb x newline).

Definition inert (l : text) : bool := forallb plain_char l.

(** A line of a declaration block: an assignment of a [govel.] literal,
    or another line. *)
Inductive entry : Type :=
| Other (l : text)
| Assign (indent name w1 w2 rest : text).

(** The line as it stands in the file, and as the transform leaves it. *)
Definition entry_line (e : entry) : text :=
  match e with
  | Other l => l
  | Assign indent name w1 w2 rest => assignment indent name w1 w2 rest
  end.

Definition entry_done (e : entry) : text :=
  match e with
  | Other l => l
  | Assign indent name _ _ rest => rewritten indent name rest
  end.

(** The other lines are inert; an assignment is eligible, stands on one
    line and has no parenthesis in its literal. *)
Definition entry_ok (e : entry) : Prop :=
  match e with
  | Other l => inert l = true
  | Assign indent name w1 w2 rest =>
      eligible indent name w1 w2 rest
      /\ one_line (indent ++ w1 ++ w2) = true
      /\ forallb plain_char rest = true
  end.

(** The file: lines before the header, the header, lines above the
    block, the opener of the block on a line of its own, and the lines
    from there on. *)
Definition tokens_file (pre : list text) (hdr : text) (above : list text)
  (body : list entry) : text :=
  join_lines (pre ++ hdr :: above ++ str "const (" :: map entry_line body).

(** And what the transform is to make of it. *)
Definition tokens_file_done (pre : list text) (hdr : text)
  (above : list text) (body : list entry) : text :=
  join_lines
    (pre ++ hdr :: [] :: import_statement :: [] :: above
       ++ str "var (" :: map entry_done body).

(** ** A run, file by file *)

(** What a path holds after [update_tokens_file] was called on it, and
    whether the call reports an update. *)
Definition outcome (fs : filesystem) (path : string) : option text :=
  match fs path with
  | Some t =>
      match transform t with
      | Ok t' => Some t'
      | Raise _ => Some t
      end
  | None => None
  end.

Definition changes (fs : filesystem) (path : string) : bool :=
  match fs path with
  | Some t =>
      match transform t with
      | Ok t' => negb (text_eqb t' t)
      | Raise _ => false
      end
  | None => false
  end.

(** ** [find_tokens_files]

    What [glob] walks: a file, or a directory with its entries, each a
    name and a node, in the order the directory lists them.  Symbolic
    links are left out. *)
#[warnings="-register-all"] Inductive node : Type :=
| File (content : text)
| Dir (entries : list (string * node)).

(** [root_dir] of [main]. *)
Definition root_dir : string := "/Users/akouta/Projects/govel".

(** A hidden name starts with a dot; [**] does not enter a directory
    with such a name. *)
Definition ishidden (name : string) : bool :=
  match name with
  | String "."%char _ => true
  | _ => false
  end.

Definition ends_with_slash (s : string) : bool :=
  match rev (list_ascii_of_string s) with
  | "/"%char :: _ => true
  | _ => false
  end.

(** [os.path.join(a, b)] on POSIX. *)
Definition os_path_join (a b : string) : string :=
  match b with
  | String "/"%char _ => b
  | _ =>
      if String.eqb a "" || ends_with_slash a then (a ++ b)%string
      else (a ++ "/" ++ b)%string
  end.

(** The directories below [n] that [**] matches, each with its path
    relative to [n], parents before children: the recursive listing of
    [glob], which takes the directories only and passes over the hidden
    ones. *)
Fixpoint rlistdir (n : node) : list (string * node) :=
  match n with
  | File _ => []
  | Dir entries =>
      (fix over (es : list (string * node)) : list (string * node) :=
         match es with
         | [] => []
         | (x, child) :: es' =>
             (if ishidden x then []
              else match child with
                   | Dir _ =>
                       (x, child)
                       :: map (fun yn => (os_path_join x (fst yn), snd yn))
                            (rlistdir child)
                   | File _ => []
                   end)
             ++ over es'
         end) entries
  end.

(** Whether the directory [n] has an entry of the given name, of any
    kind. *)
Definition has_entry (name : string) (n : node) : bool :=
  match n with
  | File _ => false
  | Dir entries => existsb (fun e => String.eqb (fst e) name) entries
  end.

(** The characters [glob] reads as a pattern. *)
Definition has_magic (s : string) : bool :=
  existsb (fun c => Ascii.eqb c "*"%char || Ascii.eqb c "?"%char
                    || Ascii.eqb c "["%char)
    (list_ascii_of_string s).

(** A root that [glob] takes as it is written: it holds none of the
    characters of a pattern and it does not end with a slash.  The
    [root_dir] of [main] is such a root. *)
Definition literal_root (root_dir : string) : bool :=
  negb (has_magic root_dir) && negb (ends_with_slash root_dir).

(** [glob.glob(os.path.join(root_dir, "**/tokens.go"), recursive=True)]
    for a literal [root_dir], on the tree [tree] that stands there: the
    pattern [**] matches the root, as the empty relative path, and the
    directories below it; in each of them the name [tokens.go] is looked
    up. *)
Definition glob_tokens (root_dir : string) (tree : node) : list string :=
  flat_map
    (fun dn =>
       if has_entry "tokens.go" (snd dn)
       then [os_path_join (os_path_join root_dir (fst dn)) "tokens.go"]
       else [])
    ((""%string, tree) :: rlistdir tree).

(** [find_tokens_files].  A root that is not literal is read by [glob]
    as a pattern, or without its last slashes: what is found then
    depends on more than the tree at the root, and no list is given
    for it. *)
Definition find_tokens_files (root_dir : string) (tree : node)
  : option (list string) :=
  if literal_root root_dir then Some (glob_tokens root_dir tree) else None.

(** The directory reached from [n] through the names [ds], none of them
    hidden. *)
Inductive below : node -> list string -> node -> Prop :=
| below_here (n : node) : below n [] n
| below_step (entries : list (string * node)) (d : string)
    (es : list (string * node)) (ds : list string) (n : node) :
    In (d, Dir es) entries -> ishidden d = false ->
    below (Dir es) ds n ->
    below (Dir entries) (d :: ds) n.

(** The names [ds] as a relative path. *)
Fixpoint relative (ds : list string) : string :=
  match ds with
  | [] => ""
  | [d] => d
  | d :: ds' => os_path_join d (relative ds')
  end.

(** A name as a directory holds it: not empty, and without a slash. *)
Definition valid_name (name : string) : bool :=
  negb (String.eqb name "")
  && forallb (fun c => negb (Ascii.eqb c "/"%char)) (list_ascii_of_string name).

(** A tree as a file system has it: in each directory the names are
    valid and no name is listed twice. *)
#[warnings="-register-all"] Inductive well_formed : node -> Prop :=
| well_formed_file (content : text) : well_formed (File content)
| well_formed_dir (entries : list (string * node)) :
    NoDup (map fst entries) ->
    Forall (fun e => valid_name (fst e) = true) entries ->
    Forall (fun e => well_formed (snd e)) entries ->
    well_formed (Dir entries).

(** What [os.path.join] puts in front of a relative path. *)
Definition joined_prefix (a : string) : string :=
  if String.eqb a "" || ends_with_slash a then a else (a ++ "/")%string.

Definition starts_with_slash (b : string) : bool :=
  match b with
  | String "/"%char _ => true
  | _ => false
  end.

(** A relative path of directories: not empty, with no slash at either
    end. *)
Definition proper (s : string) : Prop :=
  s <> ""%string /\ starts_with_slash s = false /\ ends_with_slash s = false.

(** [s] is the name [x], or goes on after it with a slash. *)
Definition headed (x s : string) : Prop :=
  s = x \/ exists y, s = (x ++ "/" ++ y)%string.

(** A tree with a tokens file in the root, one in a package and one in
    a hidden directory. *)
Definition sample_tree : node :=
  Dir [("tokens.go"%string, File plain_file);
       ("pkg"%string,
        Dir [("tokens.go"%string, File plain_file);
             ("doc.go"%string, File (str "package pkg"))]);
       (".git"%string, Dir [("tokens.go"%string, File [])])].

(** * Properties *)

(** ** Text and lists *)

Lemma text_eqb_eq (a b : text) : text_eqb a b = true <-> a = b.
Proof.
  revert b; induction a as [|x a IH]; intros [|y b]; simpl;
    try (split; (discriminate || reflexivity)).
  rewrite andb_true_iff, Ascii.eqb_eq, IH.
  split; [intros [-> ->]; reflexivity | intros E; inversion E; auto].
Qed.

Lemma text_eqb_refl (a : text) : text_eqb a a = true.
Proof. apply text_eqb_eq; reflexivity. Qed.

Lemma startswith_app (p r : text) : startswith (p ++ r) p = true.
Proof.
  induction p as [|x p IH]; simpl; [reflexivity|].
  rewrite Ascii.eqb_refl; exact IH.
Qed.

Lemma startswith_inv (s p : text) :
  startswith s p = true -> exists r, s = p ++ r.
Proof.
  revert s; induction p as [|x p IH]; intros s H.
  - exists s; reflexivity.
  - destruct s as [|y s]; simpl in H; [discriminate|].
    apply andb_true_iff in H as [E H]. apply Ascii.eqb_eq in E; subst y.
    destruct (IH _ H) as [r ->]. exists r; reflexivity.
Qed.

Lemma startswith_prefix (s p q : text) :
  startswith s (p ++ q) = true -> startswith s p = true.
Proof.
  intros H. apply startswith_inv in H as [r ->].
  rewrite <- app_assoc. apply startswith_app.
Qed.

Lemma split_lines_cons (s : text) : exists l ls, split_lines s = l :: ls.
Proof.
  induction s as [|c s [l [ls E]]]; simpl; [eauto|].
  destruct (Ascii.eqb c newline); [eauto|]. rewrite E; eauto.
Qed.

Lemma join_split (s : text) : join_lines (split_lines s) = s.
Proof.
  induction s as [|c s IH]; [reflexivity|]. simpl.
  destruct (Ascii.eqb_spec c newline) as [->|N].
  - destruct (split_lines_cons s) as [l [ls E]].
    change (join_lines ([] :: split_lines s)) with
      (match split_lines s with [] => [] | _ :: _ => [] ++ newline :: join_lines (split_lines s) end).
    rewrite E in *. simpl. rewrite <- IH. reflexivity.
  - destruct (split_lines_cons s) as [l [ls E]]. rewrite E in *.
    rewrite <- IH. destruct ls; reflexivity.
Qed.

Lemma list_insert_app {A : Type} (a b : list A) (i : nat) (x : A) :
  length a = i -> list_insert (a ++ b) i x = a ++ x :: b.
Proof.
  intros <-. unfold list_insert.
  rewrite firstn_app, skipn_app, Nat.sub_diag, firstn_all, skipn_all.
  simpl. rewrite app_nil_r. reflexivity.
Qed.

Lemma list_set_app {A : Type} (a b : list A) (y x : A) (i : nat) :
  length a = i -> list_set (a ++ y :: b) i x = a ++ x :: b.
Proof.
  intros <-. induction a as [|z a IH]; simpl; [reflexivity|].
  rewrite IH; reflexivity.
Qed.

Lemma skipn_app_exact {A : Type} (a b : list A) (i : nat) :
  length a = i -> skipn i (a ++ b) = b.
Proof.
  intros <-. rewrite skipn_app, Nat.sub_diag, skipn_all. reflexivity.
Qed.


(** ** The import manager *)

Lemma find_package_none (ls : list text) (i : nat) :
  find_package ls i = None <-> no_header ls.
Proof.
  unfold no_header. revert i; induction ls as [|l ls IH]; intros i;
    cbn [find_package].
  - split; [constructor | reflexivity].
  - destruct (startswith l package_kw) eqn:E.
    + split; [intros H; discriminate H | intros H; inversion H; congruence].
    + split; [intros H; constructor; [assumption | apply (IH (S i)); assumption]
             | intros H; inversion H; apply IH; assumption].
Qed.

Lemma find_package_header (pre post : list text) (hdr : text) (i : nat) :
  no_header pre -> startswith hdr package_kw = true ->
  find_package (pre ++ hdr :: post) i = Some (i + length pre).
Proof.
  unfold no_header. intros Hpre Hhdr. revert i.
  induction Hpre as [|l pre Hl _ IH]; intros i; cbn [find_package app length].
  - rewrite Hhdr. f_equal; lia.
  - rewrite Hl, IH. f_equal; lia.
Qed.

Lemma scan_imports_blanks (lines blanks rest : list text) (i : nat) (has : bool) :
  Forall (fun l => blank l = true) blanks ->
  scan_imports lines i (blanks ++ rest) has
  = scan_imports lines (i + length blanks) rest has.
Proof.
  intros Hb. revert i.
  induction Hb as [|l blanks Hl _ IH]; intros i; cbn [scan_imports app length].
  - rewrite Nat.add_0_r; reflexivity.
  - unfold blank in Hl. rewrite Hl, IH. f_equal; lia.
Qed.

Lemma scan_imports_none (lines rest : list text) (i : nat) (has : bool) :
  (forall l, first_nonblank rest = Some l ->
             startswith (strip l) (str "import") = false) ->
  scan_imports lines i rest has = Scan lines has None None.
Proof.
  revert i. induction rest as [|l rest IH]; intros i H; cbn [scan_imports];
    [reflexivity|].
  unfold first_nonblank in H. cbn [find] in H. unfold blank in H.
  destruct (text_eqb (strip l) []) eqn:E; cbn [negb] in H.
  - apply IH. exact H.
  - rewrite (H l eq_refl). reflexivity.
Qed.

Lemma find_close_none (rest : list text) (j : nat) :
  Forall (fun l => text_eqb (strip l) (str ")") = false) rest ->
  find_close rest j = None.
Proof.
  intros H. revert j.
  induction H as [|l rest Hl _ IH]; intros j; cbn [find_close].
  - reflexivity.
  - rewrite Hl. apply IH.
Qed.

Lemma startswith_nonempty (s p : text) :
  startswith s p = true -> p <> [] -> text_eqb s [] = false.
Proof.
  destruct s; [|reflexivity]. destruct p; [congruence | discriminate].
Qed.

(** The shape of the result when a header is found. *)
Lemma add_symbol_import_header (content : text) (pre post : list text) (hdr : text) :
  split_lines content = pre ++ hdr :: post ->
  no_header pre -> startswith hdr package_kw = true ->
  add_symbol_import content =
    let sc := scan_imports (pre ++ hdr :: post) (length pre + 1) post false in
    if negb (has_imports sc) then
      Ok (join_lines
            (list_insert
               (list_insert (list_insert (scan_lines sc) (length pre + 1) [])
                  (length pre + 2) import_statement)
               (length pre + 3) []))
    else
      match import_start sc, import_end sc with
      | Some _, Some e => Ok (join_lines (list_insert (scan_lines sc) e import_entry))
      | _, _ => Ok (join_lines (scan_lines sc))
      end.
Proof.
  intros Hs Hpre Hhdr. unfold add_symbol_import. rewrite Hs.
  rewrite (find_package_header pre post hdr 0 Hpre Hhdr). cbn [Nat.add].
  replace (skipn (length pre + 1) (pre ++ hdr :: post)) with post.
  - reflexivity.
  - change (pre ++ hdr :: post) with (pre ++ [hdr] ++ post).
    rewrite app_assoc. symmetry. apply skipn_app_exact.
    rewrite length_app. reflexivity.
Qed.

(** C7: a file with a header and no import construct gets three lines
    right after the header: an empty line, the single-form import of the
    symbol package, and an empty line; every other line stays. *)
Theorem add_import_without_imports (content : text) (pre post : list text) (hdr : text) :
  split_lines content = pre ++ hdr :: post ->
  no_header pre -> startswith hdr package_kw = true ->
  (forall l, first_nonblank post = Some l ->
             startswith (strip l) (str "import") = false) ->
  add_symbol_import content
  = Ok (join_lines (pre ++ hdr :: [] :: import_statement :: [] :: post)).
Proof.
  intros Hs Hpre Hhdr Hno.
  rewrite (add_symbol_import_header _ _ _ _ Hs Hpre Hhdr).
  rewrite (scan_imports_none _ _ _ _ Hno). cbn [has_imports scan_lines negb].
  cbv zeta. cbn [has_imports scan_lines negb].
  do 2 f_equal.
  change (pre ++ hdr :: post) with (pre ++ [hdr] ++ post).
  rewrite app_assoc, list_insert_app by (rewrite length_app; reflexivity).
  change ((pre ++ [hdr]) ++ [] :: post) with ((pre ++ [hdr]) ++ [[]] ++ post).
  rewrite app_assoc, list_insert_app
    by (rewrite !length_app; cbn [length]; lia).
  change (((pre ++ [hdr]) ++ [[]]) ++ import_statement :: post)
    with (((pre ++ [hdr]) ++ [[]]) ++ [import_statement] ++ post).
  rewrite app_assoc, list_insert_app
    by (rewrite !length_app; cbn [length]; lia).
  rewrite <- !app_assoc. reflexivity.
Qed.

(** What the second loop finds when the first line that is not blank is
    a single-form import. *)
Lemma scan_imports_single (pre blanks post : list text) (hdr l : text) :
  Forall (fun b => blank b = true) blanks ->
  startswith (strip l) (str "import ") = true ->
  startswith (strip l) (str "import (") = false ->
  scan_imports (pre ++ hdr :: blanks ++ l :: post) (length pre + 1)
    (blanks ++ l :: post) false
  = Scan (pre ++ hdr :: blanks
            ++ str "import (" :: (tab :: skipn 7 (strip l)) :: str ")" :: post)
      true (Some (length pre + 1 + length blanks))
      (Some (length pre + 1 + length blanks + 2)).
Proof.
  intros Hb H1 H2.
  rewrite scan_imports_blanks by assumption.
  cbn [scan_imports].
  rewrite (startswith_nonempty _ _ H1) by discriminate.
  rewrite (startswith_prefix _ (str "import") (str " ") H1), H2, H1.
  assert (Hlen : length (pre ++ hdr :: blanks)
                 = length pre + 1 + length blanks).
  { rewrite length_app. cbn [length]. lia. }
  f_equal.
  replace (pre ++ hdr :: blanks ++ l :: post)
    with ((pre ++ hdr :: blanks) ++ l :: post)
    by (rewrite <- app_assoc; reflexivity).
  rewrite (list_set_app _ _ _ _ _ Hlen).
  change ((pre ++ hdr :: blanks) ++ str "import (" :: post)
    with ((pre ++ hdr :: blanks) ++ [str "import ("] ++ post).
  rewrite app_assoc.
  rewrite (list_insert_app (_ ++ [_]) post)
    by (rewrite !length_app; cbn [length]; lia).
  change (((pre ++ hdr :: blanks) ++ [str "import ("])
            ++ (tab :: skipn 7 (strip l)) :: post)
    with (((pre ++ hdr :: blanks) ++ [str "import ("])
            ++ [tab :: skipn 7 (strip l)] ++ post).
  rewrite app_assoc.
  rewrite (list_insert_app (_ ++ [_]) post)
    by (rewrite !length_app; cbn [length]; lia).
  rewrite <- !app_assoc. reflexivity.
Qed.

(** C8: when the first import construct after the header is a
    single-form import, it becomes a grouped block that holds the
    original entry and, right before the closing parenthesis, the entry
    of the symbol package. *)
Theorem add_import_promotes_single (content : text)
  (pre blanks post : list text) (hdr l : text) :
  split_lines content = pre ++ hdr :: blanks ++ l :: post ->
  no_header pre -> startswith hdr package_kw = true ->
  Forall (fun b => blank b = true) blanks ->
  startswith (strip l) (str "import ") = true ->
  startswith (strip l) (str "import (") = false ->
  add_symbol_import content
  = Ok (join_lines
          (pre ++ hdr :: blanks
             ++ [str "import ("; tab :: skipn 7 (strip l); import_entry; str ")"]
             ++ post)).
Proof.
  intros Hs Hpre Hhdr Hb H1 H2.
  rewrite (add_symbol_import_header _ _ _ _ Hs Hpre Hhdr).
  rewrite scan_imports_single by assumption.
  cbv zeta. cbn [has_imports scan_lines import_start import_end negb].
  do 2 f_equal.
  replace (pre ++ hdr :: blanks
             ++ str "import (" :: (tab :: skipn 7 (strip l)) :: str ")" :: post)
    with ((pre ++ hdr :: blanks ++ [str "import ("; tab :: skipn 7 (strip l)])
            ++ str ")" :: post)
    by (rewrite <- !app_assoc; cbn [app]; rewrite <- !app_assoc; reflexivity).
  rewrite list_insert_app
    by (rewrite !length_app; cbn [length]; rewrite length_app; cbn [length]; lia).
  rewrite <- !app_assoc. cbn [app]. rewrite <- !app_assoc. reflexivity.
Qed.

(** C10: when the first import construct after the header opens a
    grouped block and no later line is a closing parenthesis, nothing is
    inserted: the call returns the text as it was, and raises nothing. *)
Theorem add_import_unclosed_block (content : text)
  (pre blanks post : list text) (hdr l : text) :
  split_lines content = pre ++ hdr :: blanks ++ l :: post ->
  no_header pre -> startswith hdr package_kw = true ->
  Forall (fun b => blank b = true) blanks ->
  startswith (strip l) (str "import (") = true ->
  Forall (fun x => text_eqb (strip x) (str ")") = false) post ->
  add_symbol_import content = Ok content.
Proof.
  intros Hs Hpre Hhdr Hb H1 Hpost.
  rewrite (add_symbol_import_header _ _ _ _ Hs Hpre Hhdr).
  rewrite scan_imports_blanks by assumption.
  cbn [scan_imports].
  rewrite (startswith_nonempty _ _ H1) by discriminate.
  rewrite (startswith_prefix _ (str "import") (str " (") H1), H1.
  rewrite find_close_none by assumption.
  cbv zeta. cbn [has_imports scan_lines import_start import_end negb].
  rewrite <- Hs, join_split. reflexivity.
Qed.

Lemma add_symbol_import_raises (content : text) :
  add_symbol_import content = Raise no_package <-> no_header (split_lines content).
Proof.
  unfold add_symbol_import.
  destruct (find_package (split_lines content) 0) as [pl|] eqn:E.
  - split.
    + intros H. exfalso. revert H.
      destruct (negb (has_imports _)); [discriminate|].
      destruct (import_start _); [|discriminate].
      destruct (import_end _); discriminate.
    + intros H. apply (find_package_none _ 0) in H. congruence.
  - split; [intros _; apply (find_package_none _ 0); exact E | reflexivity].
Qed.

Lemma add_symbol_import_only_raises (content : text) (e : exn) :
  add_symbol_import content = Raise e -> e = no_package.
Proof.
  unfold add_symbol_import.
  destruct (find_package (split_lines content) 0) as [pl|].
  - destruct (negb (has_imports _)); [discriminate|].
    destruct (import_start _); [|discriminate].
    destruct (import_end _); discriminate.
  - intros H; inversion H; reflexivity.
Qed.

(** ** The orchestrator *)

Lemma text_eqb_neq (a b : text) : text_eqb a b = false <-> a <> b.
Proof.
  destruct (text_eqb a b) eqn:E.
  - apply text_eqb_eq in E. split; [discriminate | congruence].
  - split; [|reflexivity]. intros _ H. apply text_eqb_eq in H. congruence.
Qed.

(** C5: the import manager raises exactly when no line starts with the
    package keyword, with the one error it has; the orchestrator catches
    it for the file at hand: the error is printed with the file's path,
    the file system stays as it was, the call returns false, and the loop
    goes on with the files that follow. *)
Theorem missing_header_is_caught (fs : filesystem) (path : string)
  (original : text) (others : list string) :
  (add_symbol_import original = Raise no_package
   <-> no_header (split_lines original))
  /\ (forall e, add_symbol_import original = Raise e -> e = no_package)
  /\ (fs path = Some original ->
      has_symbol_import original = false ->
      no_header (split_lines original) ->
      update_tokens_file fs path
      = (fs, [ErrorProcessing path no_package], false)
      /\ update_all fs (path :: others)
         = (fst (fst (update_all fs others)),
            Processing path :: ErrorProcessing path no_package
              :: NoChangesNeeded :: snd (fst (update_all fs others)),
            snd (update_all fs others))).
Proof.
  split; [apply add_symbol_import_raises|].
  split; [apply add_symbol_import_only_raises|].
  intros Hread Hhas Hno.
  assert (Hu : update_tokens_file fs path
               = (fs, [ErrorProcessing path no_package], false)).
  { unfold update_tokens_file, read_file, transform. rewrite Hread.
    cbn [bind]. rewrite Hhas. cbn [negb].
    apply add_symbol_import_raises in Hno. rewrite Hno. reflexivity. }
  split; [exact Hu|].
  cbn [update_all]. rewrite Hu.
  destruct (update_all fs others) as [[fs2 printed] n]. reflexivity.
Qed.

(** C4: the file is written only when the transformed text differs from
    the text read, and the call then returns true, which [main] prints as
    an update; when the two are equal nothing is written and false is
    returned, printed as no change.  A call that returns false leaves the
    file system as it was. *)
Theorem write_only_on_change (fs : filesystem) (path : string) :
  (forall original content,
      fs path = Some original -> transform original = Ok content ->
      content <> original ->
      update_tokens_file fs path = (write_file fs path content, [], true)
      /\ update_all fs [path]
         = (write_file fs path content, [Processing path; Updated], 1))
  /\ (forall original,
         fs path = Some original -> transform original = Ok original ->
         update_tokens_file fs path = (fs, [], false)
         /\ update_all fs [path] = (fs, [Processing path; NoChangesNeeded], 0))
  /\ (snd (update_tokens_file fs path) = false ->
      fst (fst (update_tokens_file fs path)) = fs).
Proof.
  split; [|split].
  - intros original content Hread Ht Hne.
    assert (Hu : update_tokens_file fs path
                 = (write_file fs path content, [], true)).
    { unfold update_tokens_file, read_file. rewrite Hread. cbn [bind].
      rewrite Ht. cbn [bind].
      apply text_eqb_neq in Hne. rewrite Hne. reflexivity. }
    split; [exact Hu|]. cbn [update_all]. rewrite Hu. reflexivity.
  - intros original Hread Ht.
    assert (Hu : update_tokens_file fs path = (fs, [], false)).
    { unfold update_tokens_file, read_file. rewrite Hread. cbn [bind].
      rewrite Ht. cbn [bind]. rewrite text_eqb_refl. reflexivity. }
    split; [exact Hu|]. cbn [update_all]. rewrite Hu. reflexivity.
  - unfold update_tokens_file.
    destruct (bind (read_file fs path) _) as [[o c]|e]; [|reflexivity].
    destruct (negb (text_eqb c o)); [discriminate | reflexivity].
Qed.

(** ** The regex engine *)

Lemma takewhile_dropwhile (f : ascii -> bool) (s : text) :
  takewhile f s ++ dropwhile f s = s.
Proof.
  induction s as [|x s IH]; [reflexivity|]. cbn [takewhile dropwhile].
  destruct (f x); [cbn [app]; rewrite IH|]; reflexivity.
Qed.

Lemma takewhile_all (f : ascii -> bool) (s : text) :
  forallb f (takewhile f s) = true.
Proof.
  induction s as [|x s IH]; [reflexivity|]. cbn [takewhile].
  destruct (f x) eqn:E; [cbn [forallb]; rewrite E, IH|]; reflexivity.
Qed.

Lemma takewhile_app (f : ascii -> bool) (a b : text) :
  forallb f a = true -> takewhile f (a ++ b) = a ++ takewhile f b.
Proof.
  induction a as [|x a IH]; [reflexivity|]. cbn [forallb app takewhile].
  intros H. apply andb_true_iff in H as [Hx Ha]. rewrite Hx, IH by assumption.
  reflexivity.
Qed.

Lemma dropwhile_app (f : ascii -> bool) (a b : text) :
  forallb f a = true -> dropwhile f (a ++ b) = dropwhile f b.
Proof.
  induction a as [|x a IH]; [reflexivity|]. cbn [forallb app dropwhile].
  intros H. apply andb_true_iff in H as [Hx Ha]. rewrite Hx. auto.
Qed.

Lemma prev_after_app (prev : option ascii) (a b : text) :
  prev_after prev (a ++ b) = prev_after (prev_after prev a) b.
Proof.
  revert prev; induction a as [|x a IH]; intros prev; [reflexivity|].
  cbn [app prev_after]. apply IH.
Qed.

(** A greedy run never gives a character back when the rest of the
    pattern cannot start with a character of the class. *)
Lemma greedy_det (f : ascii -> bool)
  (k : option ascii -> text -> option (list text * text))
  (prev : option ascii) (s : text) :
  (forall p x t, f x = true -> k p (x :: t) = None) ->
  greedy f k prev s
  = option_map (pair (takewhile f s))
      (k (prev_after prev (takewhile f s)) (dropwhile f s)).
Proof.
  intros Hk. revert prev. induction s as [|x s IH]; intros prev.
  - reflexivity.
  - cbn [greedy takewhile dropwhile]. destruct (f x) eqn:E.
    + rewrite IH. cbn [prev_after].
      destruct (k (prev_after (Some x) (takewhile f s)) (dropwhile f s))
        as [r|]; cbn [option_map]; [reflexivity|].
      rewrite Hk by assumption. reflexivity.
    + reflexivity.
Qed.

(** What [greedy] returns is a run of the class in front of what the
    continuation matched. *)
Lemma greedy_sound (f : ascii -> bool)
  (k : option ascii -> text -> option (list text * text))
  (prev : option ascii) (s run : text) (res : list text * text) :
  greedy f k prev s = Some (run, res) ->
  forallb f run = true
  /\ exists s', s = run ++ s' /\ k (prev_after prev run) s' = Some res.
Proof.
  revert prev run. induction s as [|x s IH]; intros prev run.
  - cbn [greedy]. destruct (k prev []) as [r|] eqn:E; cbn [option_map];
      [|discriminate].
    intros H; inversion H; subst. split; [reflexivity|].
    exists []. split; [reflexivity | exact E].
  - cbn [greedy].
    assert (Hstop : option_map (pair []) (k prev (x :: s)) = Some (run, res) ->
                    forallb f run = true
                    /\ exists s', x :: s = run ++ s'
                                  /\ k (prev_after prev run) s' = Some res).
    { destruct (k prev (x :: s)) as [r|] eqn:E; cbn [option_map];
        [|discriminate].
      intros H; inversion H; subst. split; [reflexivity|].
      exists (x :: s). split; [reflexivity | exact E]. }
    destruct (f x) eqn:Hx; [|exact Hstop].
    destruct (greedy f k (Some x) s) as [[run' r']|] eqn:G; [|exact Hstop].
    intros H; inversion H; subst.
    destruct (IH _ _ G) as [Hall [s' [-> Hk]]].
    split; [cbn [forallb]; rewrite Hx; exact Hall|].
    exists s'. split; [reflexivity | exact Hk].
Qed.

(** Soundness of the matcher: a match splits the text into what each
    item consumed and what is left. *)
Lemma match_items_sound (p : pattern) (prev : option ascii) (s : text)
  (segs : list text) (r : text) :
  match_items p prev s = Some (segs, r) ->
  fits p prev segs r /\ s = concat segs ++ r.
Proof.
  revert prev s segs r. induction p as [|it p IH]; intros prev s segs r.
  - cbn [match_items]. intros H; inversion H; subst. split; reflexivity.
  - destruct it as [f|f|f|]; cbn [match_items].
    + destruct s as [|x t]; [discriminate|].
      destruct (f x) eqn:Hx; [|discriminate].
      destruct (match_items p (Some x) t) as [[segs' r']|] eqn:E;
        cbn [with_seg]; [|discriminate].
      intros H; inversion H; subst.
      destruct (IH _ _ _ _ E) as [Hf ->].
      split; [|reflexivity]. cbn [fits]. exists x. auto.
    + destruct (greedy f (match_items p) prev s) as [[run [segs' r']]|] eqn:G;
        cbn [close_run]; [|discriminate].
      intros H; inversion H; subst.
      destruct (greedy_sound _ _ _ _ _ _ G) as [Hall [s' [-> Hk]]].
      destruct (IH _ _ _ _ Hk) as [Hf ->].
      split; [cbn [fits]; auto | cbn [concat]; rewrite app_assoc; reflexivity].
    + destruct s as [|x t]; [discriminate|].
      destruct (f x) eqn:Hx; [|discriminate].
      destruct (greedy f (match_items p) (Some x) t)
        as [[run [segs' r']]|] eqn:G; [|discriminate].
      intros H; inversion H; subst.
      destruct (greedy_sound _ _ _ _ _ _ G) as [Hall [s' [-> Hk]]].
      destruct (IH _ _ _ _ Hk) as [Hf ->].
      split.
      * cbn [fits forallb prev_after]. rewrite Hx. repeat split; auto.
        discriminate.
      * cbn [concat app]. rewrite app_assoc. reflexivity.
    + destruct (xorb (wordp prev) (wordp (hd_error s))) eqn:Hb; [|discriminate].
      destruct (match_items p prev s) as [[segs' r']|] eqn:E;
        cbn [with_seg]; [|discriminate].
      intros H; inversion H; subst.
      destruct (IH _ _ _ _ E) as [Hf ->].
      split; [|reflexivity]. cbn [fits]. auto.
Qed.

(** ** Fuel of [sub_from] *)

Lemma sub_from_fuel (p : pattern) (repl : list text -> text) (n m : nat)
  (prev : option ascii) (s : text) :
  length s < n -> length s < m ->
  sub_from n p repl prev s = sub_from m p repl prev s.
Proof.
  revert m prev s. induction n as [|n IH]; intros m prev s Hn Hm; [lia|].
  destruct m as [|m]; [lia|]. cbn [sub_from].
  destruct (match_items p prev s) as [[segs rest]|].
  - destruct (length rest <? length s) eqn:L.
    + apply Nat.ltb_lt in L. rewrite (IH m) by lia. reflexivity.
    + destruct s as [|x t]; [reflexivity|]. cbn [length] in *.
      rewrite (IH m) by lia. reflexivity.
  - destruct s as [|x t]; [reflexivity|]. cbn [length] in *.
    rewrite (IH m) by lia. reflexivity.
Qed.

(** ** Character classes *)

Lemma space_not_paren (x : ascii) : isspace x = true -> Ascii.eqb "("%char x = false.
Proof. char_cases x. Qed.

Lemma space_not_upper (x : ascii) : isspace x = true -> isupper_us x = false.
Proof. char_cases x. Qed.

Lemma upper_not_space (x : ascii) : isupper_us x = true -> isspace x = false.
Proof. char_cases x. Qed.

Lemma upper_not_equals (x : ascii) : isupper_us x = true -> Ascii.eqb "="%char x = false.
Proof. char_cases x. Qed.

Lemma space_not_equals (x : ascii) : isspace x = true -> Ascii.eqb "="%char x = false.
Proof. char_cases x. Qed.

Lemma space_not_dquote (x : ascii) : isspace x = true -> Ascii.eqb dquote x = false.
Proof. char_cases x. Qed.

Lemma notquote_not_dquote (x : ascii) : notquote x = true -> Ascii.eqb dquote x = false.
Proof. char_cases x. Qed.

(** ** The pattern of [convert_const_to_var] in closed form *)

Lemma match_lit (l : text) (p : pattern) (prev : option ascii) (s : text) :
  match_items (map (fun c => One (Ascii.eqb c)) l ++ p) prev s
  = match strip_prefix l s with
    | Some s1 =>
        match match_items p (prev_after prev l) s1 with
        | Some (segs, r) => Some (map (fun c => [c]) l ++ segs, r)
        | None => None
        end
    | None => None
    end.
Proof.
  revert prev s. induction l as [|c l IH]; intros prev s.
  - cbn [map app strip_prefix prev_after].
    destruct (match_items p prev s) as [[segs r]|]; reflexivity.
  - cbn [map app match_items strip_prefix prev_after].
    destruct s as [|x t]; [reflexivity|].
    destruct (Ascii.eqb_spec c x) as [->|N]; [|reflexivity].
    rewrite IH. destruct (strip_prefix l t) as [s1|]; [|reflexivity].
    destruct (match_items p (prev_after (Some x) l) s1) as [[segs r]|];
      reflexivity.
Qed.

Lemma strip_prefix_app (l s s1 : text) :
  strip_prefix l s = Some s1 <-> s = l ++ s1.
Proof.
  revert s. induction l as [|c l IH]; intros s; cbn [strip_prefix app].
  - split; [intros H; inversion H; reflexivity | intros ->; reflexivity].
  - destruct s as [|x t]; [split; discriminate|].
    destruct (Ascii.eqb_spec c x) as [->|N].
    + split; [intros H; apply IH in H; subst; reflexivity
             | intros H; inversion H; subst; apply IH; reflexivity].
    + split; [discriminate | intros H; inversion H; congruence].
Qed.

(** After the literal: whitespace, then the parenthesis. *)
Lemma match_const_tail (prev : option ascii) (s : text) :
  match_items [Star isspace; One (Ascii.eqb "("%char)] prev s
  = match dropwhile isspace s with
    | c :: r =>
        if Ascii.eqb "("%char c
        then Some ([takewhile isspace s; ["("%char]], r)
        else None
    | [] => None
    end.
Proof.
  cbn [match_items]. rewrite greedy_det.
  - destruct (dropwhile isspace s) as [|c r]; [reflexivity|].
    destruct (Ascii.eqb_spec "("%char c) as [<-|N]; reflexivity.
  - intros p x t Hx. rewrite (space_not_paren x Hx). reflexivity.
Qed.

Lemma match_const (prev : option ascii) (s : text) :
  match_items const_pattern prev s
  = match opener_at prev s with
    | Some r =>
        Some ([] :: map (fun c => [c]) (str "const")
                ++ [takewhile isspace (skipn 5 s); ["("%char]], r)
    | None => None
    end.
Proof.
  unfold const_pattern, opener_at, lit. cbn [match_items].
  rewrite match_lit.
  destruct (strip_prefix (str "const") s) as [s1|] eqn:E.
  - rewrite match_const_tail.
    apply strip_prefix_app in E. subst s.
    change (wordp (hd_error (str "const" ++ s1))) with true.
    change (skipn 5 (str "const" ++ s1)) with s1.
    destruct (wordp prev); cbn [xorb]; [reflexivity|].
    destruct (dropwhile isspace s1) as [|c r]; [reflexivity|].
    destruct (Ascii.eqb "("%char c); reflexivity.
  - destruct (xorb (wordp prev) (wordp (hd_error s)));
      destruct (wordp prev); reflexivity.
Qed.

(** An opener, spelled out. *)
Lemma opener_at_inv (prev : option ascii) (s r : text) :
  opener_at prev s = Some r ->
  wordp prev = false
  /\ exists w, forallb isspace w = true
               /\ s = str "const" ++ w ++ "("%char :: r.
Proof.
  unfold opener_at. destruct (wordp prev); [discriminate|].
  destruct (strip_prefix (str "const") s) as [s1|] eqn:E; [|discriminate].
  apply strip_prefix_app in E. subst s.
  destruct (dropwhile isspace s1) as [|c r'] eqn:D; [discriminate|].
  destruct (Ascii.eqb_spec "("%char c) as [<-|N]; [|discriminate].
  intros H; inversion H; subst r'. split; [reflexivity|].
  exists (takewhile isspace s1). split; [apply takewhile_all|].
  rewrite <- D, takewhile_dropwhile. reflexivity.
Qed.

Lemma opener_at_intro (prev : option ascii) (w r : text) :
  wordp prev = false -> forallb isspace w = true ->
  opener_at prev (str "const" ++ w ++ "("%char :: r) = Some r.
Proof.
  intros Hp Hw. unfold opener_at. rewrite Hp.
  rewrite (proj2 (strip_prefix_app (str "const") _ (w ++ "("%char :: r)) eq_refl).
  rewrite dropwhile_app by assumption. reflexivity.
Qed.

(** One step of the scan of [convert_const_to_var]. *)
Lemma const_sub_step (n : nat) (prev : option ascii) (s : text) :
  sub_from (S n) const_pattern (fun _ => var_opener) prev s
  = match opener_at prev s with
    | Some r =>
        var_opener ++ sub_from n const_pattern (fun _ => var_opener)
                        (Some "("%char) r
    | None =>
        match s with
        | [] => []
        | x :: t => x :: sub_from n const_pattern (fun _ => var_opener) (Some x) t
        end
    end.
Proof.
  cbn [sub_from]. rewrite match_const.
  destruct (opener_at prev s) as [r|] eqn:E; [|reflexivity].
  destruct (opener_at_inv _ _ _ E) as [_ [w [Hw ->]]].
  replace (length r <? length (str "const" ++ w ++ "("%char :: r)) with true.
  - do 2 f_equal. f_equal.
    cbn [concat map app str list_ascii_of_string].
    exact (last_last ("c"%char :: "o"%char :: "n"%char :: "s"%char
                        :: "t"%char :: takewhile isspace _) _ _).
  - symmetry. apply Nat.ltb_lt. rewrite !length_app. cbn [length]. lia.
Qed.

(** ** The scan of [convert_const_to_var] *)

Lemma const_to_var_at_eq (prev : option ascii) (s : text) :
  const_to_var_at prev s
  = match opener_at prev s with
    | Some r => var_opener ++ const_to_var_at (Some "("%char) r
    | None =>
        match s with
        | [] => []
        | x :: t => x :: const_to_var_at (Some x) t
        end
    end.
Proof.
  unfold const_to_var_at, sub_at. rewrite const_sub_step.
  destruct (opener_at prev s) as [r|] eqn:E.
  - destruct (opener_at_inv _ _ _ E) as [_ [w [_ ->]]].
    f_equal. apply sub_from_fuel; rewrite ?length_app; cbn [length]; lia.
  - destruct s as [|x t]; reflexivity.
Qed.

(** Induction along the scan: the text ends, a character is kept because
    no opener starts at it, or an opener is replaced. *)
Lemma const_to_var_ind (P : option ascii -> text -> text -> Prop) :
  (forall prev, P prev [] []) ->
  (forall prev x t,
      opener_at prev (x :: t) = None ->
      P (Some x) t (const_to_var_at (Some x) t) ->
      P prev (x :: t) (x :: const_to_var_at (Some x) t)) ->
  (forall prev w r,
      wordp prev = false -> forallb isspace w = true ->
      P (Some "("%char) r (const_to_var_at (Some "("%char) r) ->
      P prev (str "const" ++ w ++ "("%char :: r)
        (var_opener ++ const_to_var_at (Some "("%char) r)) ->
  forall prev s, P prev s (const_to_var_at prev s).
Proof.
  intros Hend Hkeep Hopen prev s.
  remember (length s) as n eqn:Hn. revert prev s Hn.
  induction n as [n IH] using lt_wf_ind. intros prev s Hn.
  rewrite const_to_var_at_eq.
  destruct (opener_at prev s) as [r|] eqn:E.
  - destruct (opener_at_inv _ _ _ E) as [Hp [w [Hw ->]]].
    apply Hopen; [assumption | assumption|].
    apply (IH (length r)); [|reflexivity].
    subst n. rewrite !length_app. cbn [length]. lia.
  - destruct s as [|x t]; [apply Hend|].
    apply Hkeep; [exact E|].
    apply (IH (length t)); [subst n; cbn [length]; lia | reflexivity].
Qed.

(** *** Openers and their parts *)

Lemma opener_at_rest (prev : option ascii) (s : text) :
  opener_at prev s = None <-> wordp prev = true \/ opener_rest 0 s = false.
Proof.
  unfold opener_at, opener_rest. cbn [skipn].
  destruct (wordp prev); [split; auto|].
  destruct (strip_prefix (str "const") s) as [s1|].
  - destruct (dropwhile isspace s1) as [|c r].
    + split; auto.
    + destruct (Ascii.eqb "("%char c).
      * split; [discriminate | intros [H|H]; discriminate].
      * split; auto.
  - split; auto.
Qed.

Lemma opener_rest_nil (k : nat) : opener_rest k [] = false.
Proof.
  do 6 (destruct k as [|k]; [reflexivity|]). reflexivity.
Qed.

Lemma opener_rest_letter (k : nat) (x : ascii) (s : text) :
  k < 5 ->
  opener_rest k (x :: s) = Ascii.eqb (const_letter k) x && opener_rest (S k) s.
Proof.
  intros Hk. unfold opener_rest, const_letter.
  do 5 (destruct k as [|k];
        [cbn [skipn str list_ascii_of_string strip_prefix nth];
         destruct (Ascii.eqb _ x); reflexivity|]).
  lia.
Qed.

Lemma opener_rest_space (k : nat) (x : ascii) (s : text) :
  5 <= k ->
  opener_rest k (x :: s)
  = if isspace x then opener_rest k s else Ascii.eqb "("%char x.
Proof.
  intros Hk. unfold opener_rest.
  replace (skipn k (str "const")) with (@nil ascii)
    by (symmetry; apply skipn_all2; cbn; lia).
  cbn [strip_prefix dropwhile]. destruct (isspace x); reflexivity.
Qed.

(** No part of an opener appears in the output that was not in the
    input. *)
Lemma const_to_var_no_new_rest (prev : option ascii) (s : text) (k : nat) :
  1 <= k ->
  opener_rest k (const_to_var_at prev s) = true -> opener_rest k s = true.
Proof.
  revert k. pattern prev, s, (const_to_var_at prev s).
  apply const_to_var_ind; clear prev s.
  - intros prev k _ H. rewrite opener_rest_nil in H. discriminate.
  - intros prev x t _ IH k Hk.
    destruct (Nat.lt_ge_cases k 5) as [L|G].
    + rewrite !opener_rest_letter by assumption.
      intros H. apply andb_true_iff in H as [H1 H2].
      rewrite H1, (IH (S k)) by (lia || assumption). reflexivity.
    + rewrite !opener_rest_space by assumption.
      destruct (isspace x); [apply IH; assumption | auto].
  - intros prev w r _ _ _ k Hk H. exfalso. revert H.
    change (var_opener ++ const_to_var_at (Some "("%char) r)
      with ("v"%char :: str "ar (" ++ const_to_var_at (Some "("%char) r).
    destruct (Nat.lt_ge_cases k 5) as [L|G].
    + rewrite opener_rest_letter by assumption.
      unfold const_letter.
      do 5 (destruct k as [|k]; [(lia || discriminate)|]). lia.
    + rewrite opener_rest_space by assumption. discriminate.
Qed.

Lemma count_openers_skip (prev : option ascii) (a r : text) :
  forallb (fun x => negb (Ascii.eqb "c"%char x)) a = true ->
  count_openers prev (a ++ r) = count_openers (prev_after prev a) r.
Proof.
  revert prev. induction a as [|x a IH]; intros prev H; [reflexivity|].
  cbn [forallb] in H. apply andb_true_iff in H as [Hx Ha].
  cbn [app count_openers prev_after]. rewrite IH by assumption.
  replace (opener_at prev (x :: a ++ r)) with (@None text); [reflexivity|].
  symmetry. apply opener_at_rest. right.
  rewrite opener_rest_letter by lia.
  change (const_letter 0) with "c"%char.
  destruct (Ascii.eqb "c"%char x); [discriminate | reflexivity].
Qed.

Lemma spaces_no_c (w : text) :
  forallb isspace w = true ->
  forallb (fun x => negb (Ascii.eqb "c"%char x)) w = true.
Proof.
  induction w as [|x w IH]; [reflexivity|]. cbn [forallb].
  intros H. apply andb_true_iff in H as [Hx Hw].
  rewrite IH by assumption. rewrite andb_true_r.
  revert Hx. char_cases x.
Qed.

Lemma count_openers_opener (prev : option ascii) (w r : text) :
  wordp prev = false -> forallb isspace w = true ->
  count_openers prev (str "const" ++ w ++ "("%char :: r)
  = S (count_openers (Some "("%char) r).
Proof.
  intros Hp Hw.
  change (str "const" ++ w ++ "("%char :: r)
    with ("c"%char :: str "onst" ++ w ++ "("%char :: r).
  cbn [count_openers].
  change ("c"%char :: str "onst" ++ w ++ "("%char :: r)
    with (str "const" ++ w ++ "("%char :: r).
  rewrite opener_at_intro by assumption.
  replace (str "onst" ++ w ++ "("%char :: r)
    with ((str "onst" ++ w ++ ["("%char]) ++ r)
    by (rewrite <- !app_assoc; reflexivity).
  rewrite count_openers_skip.
  - rewrite !prev_after_app. reflexivity.
  - rewrite !forallb_app, (spaces_no_c w Hw). reflexivity.
Qed.

(** The output holds no opener. *)
Lemma const_to_var_no_opener (prev : option ascii) (s : text) :
  count_openers prev (const_to_var_at prev s) = 0.
Proof.
  pattern prev, s, (const_to_var_at prev s).
  apply const_to_var_ind; clear prev s.
  - reflexivity.
  - intros prev x t E IH. cbn [count_openers]. rewrite IH.
    replace (opener_at prev (x :: const_to_var_at (Some x) t))
      with (@None text); [reflexivity|].
    symmetry. apply opener_at_rest. apply opener_at_rest in E as [E|E]; [auto|].
    right. rewrite opener_rest_letter in * by lia.
    destruct (Ascii.eqb (const_letter 0) x); [|reflexivity].
    cbn [andb] in *.
    destruct (opener_rest 1 (const_to_var_at (Some x) t)) eqn:R; [|reflexivity].
    apply const_to_var_no_new_rest in R; [congruence | lia].
  - intros prev w r _ _ IH.
    change (var_opener ++ const_to_var_at (Some "("%char) r)
      with (str "var (" ++ const_to_var_at (Some "("%char) r).
    rewrite count_openers_skip by reflexivity. exact IH.
Qed.

(** A text with no opener is left as it is. *)
Lemma const_to_var_fixed (prev : option ascii) (s : text) :
  count_openers prev s = 0 -> const_to_var_at prev s = s.
Proof.
  pattern prev, s, (const_to_var_at prev s).
  apply const_to_var_ind; clear prev s.
  - reflexivity.
  - intros prev x t E IH H. cbn [count_openers] in H.
    rewrite IH by lia. reflexivity.
  - intros prev w r Hp Hw _ H.
    rewrite count_openers_opener in H by assumption. discriminate.
Qed.

(** ** Occurrences of a needle *)

Lemma clash_startswith (n a z : text) :
  clash n a = true -> startswith (a ++ z) n = false.
Proof.
  revert a. induction n as [|x n IH]; intros [|y a]; cbn [clash];
    try discriminate.
  cbn [app startswith]. rewrite Ascii.eqb_sym.
  destruct (Ascii.eqb y x); cbn [negb orb andb]; [apply IH | reflexivity].
Qed.

Lemma startswith_head (h : ascii) (n : text) (x : ascii) (s : text) :
  Ascii.eqb h x = false -> startswith (x :: s) (h :: n) = false.
Proof. intros H. cbn [startswith]. rewrite H. reflexivity. Qed.

Lemma occurrences_skip (h : ascii) (n a r : text) :
  forallb (fun x => negb (Ascii.eqb h x)) a = true ->
  occurrences (h :: n) (a ++ r) = occurrences (h :: n) r.
Proof.
  induction a as [|x a IH]; intros H; [reflexivity|].
  cbn [forallb] in H. apply andb_true_iff in H as [Hx Ha].
  cbn [app occurrences]. rewrite IH by assumption.
  rewrite startswith_head; [reflexivity|].
  destruct (Ascii.eqb h x); [discriminate | reflexivity].
Qed.

Lemma tails_tl (n' : text) (l : text) :
  In n' (tails l) -> tl n' = [] \/ In (tl n') (tails l).
Proof.
  induction l as [|x l IH]; cbn [tails In]; [tauto|].
  intros [<-|H].
  - cbn [tl]. destruct l as [|y l]; [left; reflexivity|].
    right. right. left. reflexivity.
  - destruct (IH H) as [E|I]; [left; exact E | right; right; exact I].
Qed.

Lemma spaces_not_head (h : ascii) (w : text) :
  isspace h = false -> forallb isspace w = true ->
  forallb (fun x => negb (Ascii.eqb h x)) w = true.
Proof.
  intros Hh. induction w as [|x w IH]; [reflexivity|]. cbn [forallb].
  intros H. apply andb_true_iff in H as [Hx Hw]. rewrite IH by assumption.
  destruct (Ascii.eqb_spec h x) as [->|N]; [congruence | reflexivity].
Qed.

Section ConstOccurrences.

Variable h : ascii.
Variable n : text.
Hypothesis Hapart : apart_from_openers (h :: n) = true.

Lemma apart_space : isspace h = false.
Proof.
  unfold apart_from_openers in Hapart.
  destruct (isspace h); [discriminate | reflexivity].
Qed.

Lemma apart_letters :
  forallb (fun x => negb (Ascii.eqb h x)) (str "const(ar (") = true.
Proof.
  unfold apart_from_openers in Hapart.
  apply andb_true_iff in Hapart as [H _].
  apply andb_true_iff in H as [H _].
  apply andb_true_iff in H as [_ H]. exact H.
Qed.

Lemma apart_tails (n' : text) :
  In n' (tails n) ->
  clash n' var_opener = true /\ clash n' (str "const") = true.
Proof.
  unfold apart_from_openers in Hapart.
  apply andb_true_iff in Hapart as [H _].
  apply andb_true_iff in H as [_ H].
  intros I. rewrite forallb_forall in H. specialize (H _ I).
  apply andb_true_iff in H. exact H.
Qed.

Lemma apart_whole :
  startswith var_opener (h :: n) = true \/ clash (h :: n) var_opener = true.
Proof.
  unfold apart_from_openers in Hapart.
  apply andb_true_iff in Hapart as [_ H].
  apply orb_true_iff in H. exact H.
Qed.

(** A proper suffix of the needle starts the output where it starts the
    input. *)
Lemma const_to_var_suffix (prev : option ascii) (s : text) (n' : text) :
  n' = [] \/ In n' (tails n) ->
  startswith (const_to_var_at prev s) n' = startswith s n'.
Proof.
  revert n'. pattern prev, s, (const_to_var_at prev s).
  apply const_to_var_ind; clear prev s.
  - reflexivity.
  - intros prev x t _ IH n' [->|I]; [reflexivity|].
    destruct n' as [|y n']; [reflexivity|]. cbn [startswith].
    rewrite IH; [reflexivity|]. apply (tails_tl _ _ I).
  - intros prev w r _ _ _ n' [->|I]; [reflexivity|].
    destruct (apart_tails _ I) as [Hv Hc].
    rewrite (clash_startswith _ _ _ Hv).
    rewrite (clash_startswith _ _ _ Hc). reflexivity.
Qed.

Lemma const_to_var_occurrences (prev : option ascii) (s : text) :
  occurrences (h :: n) (const_to_var_at prev s)
  = occurrences (h :: n) s
    + (if startswith var_opener (h :: n) then count_openers prev s else 0).
Proof.
  pattern prev, s, (const_to_var_at prev s).
  apply const_to_var_ind; clear prev s.
  - intros prev. destruct (startswith var_opener (h :: n)); reflexivity.
  - intros prev x t E IH. cbn [occurrences count_openers]. rewrite IH, E.
    set (sw := startswith var_opener (h :: n)).
    cbn [startswith]. rewrite const_to_var_suffix.
    + destruct sw; lia.
    + destruct n as [|y n0]; [left; reflexivity | right; left; reflexivity].
  - intros prev w r Hp Hw IH.
    rewrite count_openers_opener by assumption.
    pose proof apart_letters as L.
    replace (str "const" ++ w ++ "("%char :: r)
      with ((str "const" ++ w ++ ["("%char]) ++ r)
      by (rewrite <- !app_assoc; reflexivity).
    rewrite (occurrences_skip h n (str "const" ++ w ++ ["("%char]) r).
    + change (var_opener ++ const_to_var_at (Some "("%char) r)
        with ("v"%char :: str "ar (" ++ const_to_var_at (Some "("%char) r).
      cbn [occurrences].
      rewrite (occurrences_skip h n (str "ar (")), IH.
      * change ("v"%char :: str "ar (" ++ const_to_var_at (Some "("%char) r)
          with (var_opener ++ const_to_var_at (Some "("%char) r).
        destruct apart_whole as [S|C].
        -- replace (startswith (var_opener ++ const_to_var_at (Some "("%char) r)
                      (h :: n)) with true.
           ++ rewrite S. lia.
           ++ apply startswith_inv in S as [z S].
              rewrite S, <- app_assoc, startswith_app. reflexivity.
        -- rewrite (clash_startswith _ _ _ C).
           pose proof (clash_startswith _ _ [] C) as F.
           rewrite app_nil_r in F. rewrite F. lia.
      * cbn [forallb str list_ascii_of_string] in L |- *.
        repeat (apply andb_true_iff in L as [? L]).
        repeat (apply andb_true_iff; split); assumption.
    + rewrite !forallb_app, (spaces_not_head h w apart_space Hw).
      cbn [forallb str list_ascii_of_string] in L |- *.
      repeat (apply andb_true_iff in L as [? L]).
      repeat (apply andb_true_iff; split); assumption.
Qed.

End ConstOccurrences.

(** ** The declaration converter *)

Lemma const_to_var_chunks (prev : option ascii) (s : text) :
  exists chunks tail,
    s = with_const chunks tail
    /\ const_to_var_at prev s = with_var chunks tail
    /\ Forall (fun uw => forallb isspace (snd uw) = true) chunks
    /\ boundaries prev chunks
    /\ length chunks = count_openers prev s.
Proof.
  pattern prev, s, (const_to_var_at prev s).
  apply const_to_var_ind; clear prev s.
  - intros prev. exists [], []. repeat split. constructor.
  - intros prev x t E [chunks [tail [Hs [Ho [Hw [Hb Hc]]]]]].
    cbn [count_openers]. rewrite E, Ho, <- Hc. clear Ho Hc E.
    destruct chunks as [|[u w] chunks].
    + exists [], (x :: tail). subst t. repeat split. constructor.
    + exists ((x :: u, w) :: chunks), tail. subst t.
      inversion Hw; subst. destruct Hb as [Hb1 Hb2].
      repeat split; try assumption. constructor; assumption.
  - intros prev w r Hp Hw [chunks [tail [Hs [Ho [Hws [Hb Hc]]]]]].
    rewrite count_openers_opener, Ho, <- Hc by assumption.
    exists (([], w) :: chunks), tail. subst r.
    repeat split; try assumption.
    + unfold with_const. cbn [map concat fst snd app].
      rewrite <- !app_assoc. reflexivity.
    + constructor; assumption.
Qed.

(** C6: every opener of a grouped constant declaration, that is the word
    [const] at a word boundary followed by whitespace or none and an
    opening parenthesis, becomes [var (], and nothing else changes: the
    input is cut into kept parts and openers, the output has the same
    kept parts with [var (] for each opener; the openers replaced are as
    many as the input has, the output has none left, and it has exactly
    that many more occurrences of [var (] than the input. *)
Theorem const_openers_become_var (content : text) :
  exists chunks tail,
    content = with_const chunks tail
    /\ convert_const_to_var content = with_var chunks tail
    /\ Forall (fun uw => forallb isspace (snd uw) = true) chunks
    /\ boundaries None chunks
    /\ length chunks = count_openers None content
    /\ count_openers None (convert_const_to_var content) = 0
    /\ occurrences var_opener (convert_const_to_var content)
       = occurrences var_opener content + count_openers None content.
Proof.
  destruct (const_to_var_chunks None content)
    as [chunks [tail [Hs [Ho [Hw [Hb Hc]]]]]].
  exists chunks, tail.
  repeat (split; [assumption|]).
  split; [apply const_to_var_no_opener|].
  exact (const_to_var_occurrences "v"%char (str "ar (") eq_refl None content).
Qed.

(** ** The pattern of the literal rewriter *)

Lemma takewhile_stop (f : ascii -> bool) (a : text) (x : ascii) (b : text) :
  forallb f a = true -> f x = false -> takewhile f (a ++ x :: b) = a.
Proof.
  intros Ha Hx. rewrite takewhile_app by assumption.
  cbn [takewhile]. rewrite Hx. apply app_nil_r.
Qed.

Lemma dropwhile_stop (f : ascii -> bool) (a : text) (x : ascii) (b : text) :
  forallb f a = true -> f x = false -> dropwhile f (a ++ x :: b) = x :: b.
Proof.
  intros Ha Hx. rewrite dropwhile_app by assumption.
  cbn [dropwhile]. rewrite Hx. reflexivity.
Qed.

Lemma star_step (f : ascii -> bool) (p : pattern) (prev : option ascii) (s : text) :
  (forall q x t, f x = true -> match_items p q (x :: t) = None) ->
  match_items (Star f :: p) prev s
  = with_seg (takewhile f s)
      (match_items p (prev_after prev (takewhile f s)) (dropwhile f s)).
Proof.
  intros H. cbn [match_items]. rewrite greedy_det by exact H.
  destruct (match_items p _ _) as [[segs r]|]; reflexivity.
Qed.

Lemma plus_step (f : ascii -> bool) (p : pattern) (prev : option ascii)
  (x : ascii) (t : text) :
  (forall q y u, f y = true -> match_items p q (y :: u) = None) ->
  f x = true ->
  match_items (Plus f :: p) prev (x :: t)
  = with_seg (x :: takewhile f t)
      (match_items p (prev_after (Some x) (takewhile f t)) (dropwhile f t)).
Proof.
  intros H Hx. cbn [match_items]. rewrite Hx, greedy_det by exact H.
  destruct (match_items p _ _) as [[segs r]|]; reflexivity.
Qed.

Lemma one_fails (f g : ascii -> bool) (p : pattern) :
  (forall x, f x = true -> g x = false) ->
  forall (q : option ascii) (x : ascii) (t : text),
    f x = true -> match_items (One g :: p) q (x :: t) = None.
Proof. intros H q x t Hx. cbn [match_items]. rewrite (H x Hx). reflexivity. Qed.

Lemma plus_fails (f g : ascii -> bool) (p : pattern) :
  (forall x, f x = true -> g x = false) ->
  forall (q : option ascii) (x : ascii) (t : text),
    f x = true -> match_items (Plus g :: p) q (x :: t) = None.
Proof. intros H q x t Hx. cbn [match_items]. rewrite (H x Hx). reflexivity. Qed.

Lemma star_one_fails (f g h : ascii -> bool) (p : pattern) :
  (forall x, f x = true -> g x = false) ->
  (forall x, f x = true -> h x = false) ->
  forall (q : option ascii) (x : ascii) (t : text),
    f x = true -> match_items (Star g :: One h :: p) q (x :: t) = None.
Proof.
  intros Hg Hh q x t Hx. cbn [match_items greedy].
  rewrite (Hg x Hx), (Hh x Hx). reflexivity.
Qed.

Lemma match_literal (prev : option ascii) (w2 rest r : text) :
  forallb isspace w2 = true -> rest <> [] -> forallb notquote rest = true ->
  match_items (skipn 4 token_pattern) prev (w2 ++ govel_literal rest ++ r)
  = Some (literal_segs w2 rest, r).
Proof.
  intros Hw2 Hne Hrest.
  change (skipn 4 token_pattern)
    with (Star isspace :: One (Ascii.eqb dquote)
            :: (lit "govel." ++ [Plus notquote; One (Ascii.eqb dquote)])).
  unfold govel_literal, quoted. cbn [app]. rewrite <- !app_assoc. cbn [app].
  rewrite star_step by (apply one_fails; exact space_not_dquote).
  rewrite takewhile_stop, dropwhile_stop by (assumption || reflexivity).
  cbn [match_items]. rewrite Ascii.eqb_refl.
  unfold lit. rewrite match_lit.
  rewrite (proj2 (strip_prefix_app (str "govel.") _ (rest ++ dquote :: r)) eq_refl).
  destruct rest as [|x rest]; [congruence|].
  cbn [forallb] in Hrest. apply andb_true_iff in Hrest as [Hx Hrest].
  cbn [app]. rewrite plus_step; [| |exact Hx].
  - rewrite takewhile_stop, dropwhile_stop by (assumption || reflexivity).
    cbn [match_items]. rewrite Ascii.eqb_refl. reflexivity.
  - apply one_fails. exact notquote_not_dquote.
Qed.

Lemma match_guard (prev : option ascii) (name w1 w2 rest r : text) :
  eligible [] name w1 w2 rest ->
  match_items guard_pattern prev (assignment [] name w1 w2 rest ++ r)
  = Some (name :: w1 :: [["="%char]] ++ literal_segs w2 rest, r).
Proof.
  intros [_ [Hne [Hname [Hw1 [Hw2 [Hre Hrest]]]]]].
  change guard_pattern
    with (Plus isupper_us :: Star isspace :: One (Ascii.eqb "="%char)
            :: skipn 4 token_pattern).
  unfold assignment. cbn [app]. rewrite <- !app_assoc. cbn [app str list_ascii_of_string].
  destruct name as [|x name]; [congruence|].
  cbn [forallb] in Hname. apply andb_true_iff in Hname as [Hx Hname].
  cbn [app].
  assert (Hfirst : forall (z : text), exists c z',
             w1 ++ "="%char :: z = c :: z' /\ isupper_us c = false).
  { intros z. destruct w1 as [|c w1']; [exists "="%char, z; split; reflexivity|].
    exists c, (w1' ++ "="%char :: z). split; [reflexivity|].
    cbn [forallb] in Hw1. apply andb_true_iff in Hw1 as [Hc _].
    apply space_not_upper. exact Hc. }
  destruct (Hfirst (w2 ++ govel_literal rest ++ r)) as [c [z' [Ez Hc]]].
  rewrite plus_step; [| |exact Hx].
  - rewrite Ez, takewhile_stop, dropwhile_stop by assumption. rewrite <- Ez.
    rewrite star_step by (apply one_fails; exact space_not_equals).
    rewrite takewhile_stop, dropwhile_stop by (assumption || reflexivity).
    cbn [match_items]. rewrite Ascii.eqb_refl.
    rewrite match_literal by assumption. reflexivity.
  - apply star_one_fails; [exact upper_not_space | exact upper_not_equals].
Qed.

Lemma match_token (prev : option ascii) (indent name w1 w2 rest r : text) :
  eligible indent name w1 w2 rest ->
  match_items token_pattern prev (assignment indent name w1 w2 rest ++ r)
  = Some (indent :: name :: w1 :: [["="%char]] ++ literal_segs w2 rest, r).
Proof.
  intros E. pose proof E as [Hi [Hne [Hname _]]].
  change token_pattern with (Star isspace :: guard_pattern).
  change guard_pattern with (Plus isupper_us :: tl guard_pattern) at 1.
  rewrite star_step by (apply plus_fails; exact space_not_upper).
  change (Plus isupper_us :: tl guard_pattern) with guard_pattern.
  destruct name as [|x name'] eqn:En; [congruence|]. rewrite <- En in *.
  assert (Hx : isspace x = false).
  { subst name. cbn [forallb] in Hname.
    apply andb_true_iff in Hname as [Hx _]. apply upper_not_space. exact Hx. }
  change (assignment indent name w1 w2 rest)
    with (indent ++ assignment [] name w1 w2 rest).
  rewrite <- app_assoc.
  assert (Ea : exists z, assignment [] name w1 w2 rest ++ r = x :: z).
  { subst name. eexists. reflexivity. }
  destruct Ea as [z Ez]. rewrite Ez.
  rewrite takewhile_stop, dropwhile_stop by assumption. rewrite <- Ez.
  rewrite match_guard; [reflexivity|].
  unfold eligible in *. tauto.
Qed.

Lemma eqb_one (c x : ascii) : Ascii.eqb c x = true -> x = c.
Proof. intros H. apply Ascii.eqb_eq in H. congruence. Qed.

(** A match of the rewriter's pattern is an assignment. *)
Lemma match_token_inv (prev : option ascii) (s : text) (segs : list text) (r : text) :
  match_items token_pattern prev s = Some (segs, r) ->
  exists indent name w1 w2 rest,
    eligible indent name w1 w2 rest
    /\ s = assignment indent name w1 w2 rest ++ r
    /\ segs = indent :: name :: w1 :: [["="%char]] ++ literal_segs w2 rest.
Proof.
  intros H. apply match_items_sound in H as [Hf ->].
  unfold token_pattern, lit in Hf. cbn [app map str list_ascii_of_string] in Hf.
  destruct segs as [|indent segs]; [contradiction|]. destruct Hf as [Hi Hf].
  destruct segs as [|name segs]; [contradiction|].
  destruct Hf as [Hne [Hname Hf]].
  destruct segs as [|w1 segs]; [contradiction|]. destruct Hf as [Hw1 Hf].
  destruct segs as [|e segs]; [contradiction|].
  destruct Hf as [x [-> [Hx Hf]]]. apply eqb_one in Hx. subst x.
  destruct segs as [|w2 segs]; [contradiction|]. destruct Hf as [Hw2 Hf].
  do 7 (destruct segs as [|? segs]; [contradiction|];
        destruct Hf as [x [-> [Hx Hf]]]; apply eqb_one in Hx; subst x).
  destruct segs as [|rest segs]; [contradiction|].
  destruct Hf as [Hre [Hrest Hf]].
  destruct segs as [|q segs]; [contradiction|].
  destruct Hf as [x [-> [Hx Hf]]]. apply eqb_one in Hx. subst x.
  destruct segs as [|? segs]; [|contradiction].
  exists indent, name, w1, w2, rest. split; [|split].
  - unfold eligible. tauto.
  - unfold assignment, govel_literal, quoted.
    cbn [concat app str list_ascii_of_string].
    rewrite <- !app_assoc. cbn [app]. rewrite <- !app_assoc. reflexivity.
  - reflexivity.
Qed.

Lemma replace_func_segs (indent name w1 w2 rest : text) :
  replace_func (indent :: name :: w1 :: [["="%char]] ++ literal_segs w2 rest)
  = rewritten indent name rest.
Proof.
  unfold replace_func, rewritten, factory_call, govel_literal, group1, group2,
    group3, literal_segs.
  cbn [nth skipn firstn app map str list_ascii_of_string concat].
  rewrite app_nil_r. reflexivity.
Qed.

Lemma assignment_length (indent name w1 w2 rest r : text) :
  length r < length (assignment indent name w1 w2 rest ++ r).
Proof.
  unfold assignment, govel_literal, quoted. rewrite !length_app.
  cbn [length]. lia.
Qed.

Lemma sub_from_S (n : nat) (p : pattern) (repl : list text -> text)
  (prev : option ascii) (s : text) :
  sub_from (S n) p repl prev s
  = match match_items p prev s with
    | Some (segs, rest) =>
        if length rest <? length s
        then repl segs ++ sub_from n p repl (Some (last (concat segs) newline)) rest
        else repl segs ++
             match s with
             | [] => []
             | x :: t => x :: sub_from n p repl (Some x) t
             end
    | None =>
        match s with
        | [] => []
        | x :: t => x :: sub_from n p repl (Some x) t
        end
    end.
Proof. reflexivity. Qed.

Lemma last_app_ne (a b : text) (d : ascii) :
  b <> [] -> last (a ++ b) d = last b d.
Proof.
  intros H. induction a as [|x a IH]; [reflexivity|].
  cbn [app]. destruct (a ++ b) eqn:E.
  - destruct a; [cbn [app] in E; congruence | discriminate E].
  - rewrite <- IH. reflexivity.
Qed.

Lemma last_cons_ne (x : ascii) (l : text) (d : ascii) :
  l <> [] -> last (x :: l) d = last l d.
Proof. destruct l; [congruence | reflexivity]. Qed.

Lemma last_assignment (indent name w1 w2 rest : text) :
  last (concat (indent :: name :: w1 :: [["="%char]] ++ literal_segs w2 rest))
    newline = dquote.
Proof.
  unfold literal_segs. cbn [concat app map str list_ascii_of_string].
  rewrite ?app_nil_r.
  repeat first [ rewrite last_app_ne by nonempty
               | rewrite last_cons_ne by nonempty ].
  reflexivity.
Qed.

(** One step of the scan of the rewriter. *)
Lemma rewrite_at_eq (prev : option ascii) (s : text) :
  rewrite_at prev s
  = match match_items token_pattern prev s with
    | Some (segs, r) => replace_func segs ++ rewrite_at (Some dquote) r
    | None =>
        match s with
        | [] => []
        | x :: t => x :: rewrite_at (Some x) t
        end
    end.
Proof.
  unfold rewrite_at, sub_at. rewrite sub_from_S.
  destruct (match_items token_pattern prev s) as [[segs r]|] eqn:E.
  - destruct (match_token_inv _ _ _ _ E) as [indent [name [w1 [w2 [rest [_ [-> ->]]]]]]].
    pose proof (assignment_length indent name w1 w2 rest r) as L.
    rewrite (proj2 (Nat.ltb_lt _ _) L).
    f_equal.
    replace (last (concat (indent :: name :: w1 :: [["="%char]]
                             ++ literal_segs w2 rest)) newline)
      with dquote.
    + apply sub_from_fuel; lia.
    + symmetry. apply last_assignment.
  - destruct s as [|x t]; reflexivity.
Qed.

(** Induction along the scan of the rewriter. *)
Lemma rewrite_at_ind (P : option ascii -> text -> text -> Prop) :
  (forall prev, P prev [] []) ->
  (forall prev x t,
      match_items token_pattern prev (x :: t) = None ->
      P (Some x) t (rewrite_at (Some x) t) ->
      P prev (x :: t) (x :: rewrite_at (Some x) t)) ->
  (forall prev indent name w1 w2 rest r,
      eligible indent name w1 w2 rest ->
      P (Some dquote) r (rewrite_at (Some dquote) r) ->
      P prev (assignment indent name w1 w2 rest ++ r)
        (rewritten indent name rest ++ rewrite_at (Some dquote) r)) ->
  forall prev s, P prev s (rewrite_at prev s).
Proof.
  intros Hend Hkeep Hrw prev s.
  remember (length s) as n eqn:Hn. revert prev s Hn.
  induction n as [n IH] using lt_wf_ind. intros prev s Hn.
  rewrite rewrite_at_eq.
  destruct (match_items token_pattern prev s) as [[segs r]|] eqn:E.
  - destruct (match_token_inv _ _ _ _ E)
      as [indent [name [w1 [w2 [rest [El [-> ->]]]]]]].
    rewrite replace_func_segs. apply Hrw; [exact El|].
    apply (IH (length r)); [|reflexivity].
    subst n. apply assignment_length.
  - destruct s as [|x t]; [apply Hend|].
    apply Hkeep; [exact E|].
    apply (IH (length t)); [subst n; cbn [length]; lia | reflexivity].
Qed.

(** *** The guard *)

Lemma contains_here (needle hay : text) :
  startswith hay needle = true -> contains needle hay = true.
Proof. intros H. destruct hay; cbn [contains]; rewrite H; reflexivity. Qed.

Lemma contains_later (needle : text) (x : ascii) (hay : text) :
  contains needle hay = true -> contains needle (x :: hay) = true.
Proof. intros H. cbn [contains]. rewrite H. apply orb_true_r. Qed.

Lemma contains_app (needle a b : text) :
  contains needle b = true -> contains needle (a ++ b) = true.
Proof.
  intros H. induction a as [|x a IH]; [exact H|].
  cbn [app]. apply contains_later. exact IH.
Qed.

Lemma contains_inv (needle hay : text) :
  contains needle hay = true -> exists a b, hay = a ++ needle ++ b.
Proof.
  induction hay as [|x hay IH]; cbn [contains]; intros H.
  - rewrite orb_false_r in H. apply startswith_inv in H as [b ->].
    exists [], b. reflexivity.
  - apply orb_true_iff in H as [H|H].
    + apply startswith_inv in H as [b ->]. exists [], b. reflexivity.
    + destruct (IH H) as [a [b ->]]. exists (x :: a), b. reflexivity.
Qed.

Lemma contains_middle (needle a b : text) :
  contains needle (a ++ needle ++ b) = true.
Proof. apply contains_app, contains_here, startswith_app. Qed.

Lemma search_here (p : pattern) (prev : option ascii) (s : text) :
  match_items p prev s <> None -> search p prev s = true.
Proof.
  intros H. destruct s; cbn [search];
    destruct (match_items p prev _); congruence.
Qed.

Lemma search_app (p : pattern) (prev : option ascii) (a s : text) :
  match_items p (prev_after prev a) s <> None -> search p prev (a ++ s) = true.
Proof.
  revert prev. induction a as [|x a IH]; intros prev H.
  - apply search_here. exact H.
  - cbn [app search]. destruct (match_items p prev (x :: a ++ s)); [reflexivity|].
    apply IH. exact H.
Qed.

Lemma search_inv (p : pattern) (prev : option ascii) (s : text) :
  search p prev s = true ->
  exists a b, s = a ++ b /\ match_items p (prev_after prev a) b <> None.
Proof.
  revert prev. induction s as [|x s IH]; intros prev; cbn [search].
  - destruct (match_items p prev []) eqn:E; [|discriminate].
    intros _. exists [], []. split; [reflexivity|]. cbn [prev_after]. congruence.
  - destruct (match_items p prev (x :: s)) eqn:E.
    + intros _. exists [], (x :: s). split; [reflexivity|].
      cbn [prev_after]. congruence.
    + intros H. destruct (IH _ H) as [a [b [-> Hm]]].
      exists (x :: a), b. split; [reflexivity | exact Hm].
Qed.

(** Where the guard matches, the rewriter's pattern matches too. *)
Lemma guard_then_token (prev : option ascii) (s : text) :
  match_items guard_pattern prev s <> None ->
  match_items token_pattern prev s <> None.
Proof.
  change token_pattern with (Star isspace :: guard_pattern).
  change guard_pattern with (Plus isupper_us :: tl guard_pattern).
  intros H. rewrite star_step by (apply plus_fails; exact space_not_upper).
  destruct s as [|x t]; [exfalso; apply H; reflexivity|].
  destruct (isupper_us x) eqn:Hx.
  - cbn [takewhile dropwhile]. rewrite (upper_not_space x Hx).
    cbn [prev_after].
    destruct (match_items (Plus isupper_us :: tl guard_pattern) prev (x :: t))
      as [[segs r]|]; [discriminate | congruence].
  - exfalso. apply H. cbn [match_items]. rewrite Hx. reflexivity.
Qed.

(** When the guard finds a match, the rewrite holds the factory token. *)
Lemma rewrite_has_token (prev : option ascii) (s : text) :
  search guard_pattern prev s = true ->
  contains factory_token (rewrite_at prev s) = true.
Proof.
  pattern prev, s, (rewrite_at prev s). apply rewrite_at_ind; clear prev s.
  - intros prev H. cbn [search] in H.
    destruct (match_items guard_pattern prev []) eqn:E; [|discriminate].
    discriminate E.
  - intros prev x t E IH H. apply contains_later. apply IH.
    cbn [search] in H.
    destruct (match_items guard_pattern prev (x :: t)) eqn:G; [|exact H].
    exfalso. apply (guard_then_token prev (x :: t)); congruence.
  - intros prev indent name w1 w2 rest r _ _ _.
    replace (rewritten indent name rest ++ rewrite_at (Some dquote) r)
      with ((indent ++ name ++ str " = ") ++ factory_token
              ++ (govel_literal rest ++ str ")" ++ rewrite_at (Some dquote) r)).
    + apply contains_middle.
    + unfold rewritten, factory_call. rewrite <- !app_assoc. reflexivity.
Qed.

(** ** The literal rewriter, line by line *)

Lemma rewrite_at_nil (prev : option ascii) : rewrite_at prev [] = [].
Proof. reflexivity. Qed.

Lemma assignment_indent (indent name w1 w2 rest : text) :
  assignment indent name w1 w2 rest = indent ++ assignment [] name w1 w2 rest.
Proof. reflexivity. Qed.

Lemma eligible_no_indent (indent name w1 w2 rest : text) :
  eligible indent name w1 w2 rest -> eligible [] name w1 w2 rest.
Proof. unfold eligible. cbn [forallb]. tauto. Qed.

Lemma search_assignment (indent name w1 w2 rest : text) :
  eligible indent name w1 w2 rest ->
  search guard_pattern None (assignment indent name w1 w2 rest) = true.
Proof.
  intros E. rewrite assignment_indent. apply search_app.
  rewrite <- (app_nil_r (assignment [] name w1 w2 rest)).
  rewrite match_guard by (apply (eligible_no_indent _ _ _ _ _ E)).
  discriminate.
Qed.

(** An eligible assignment without the factory token is rewritten. *)
Lemma convert_line_eligible (indent name w1 w2 rest : text) :
  eligible indent name w1 w2 rest ->
  contains factory_token (assignment indent name w1 w2 rest) = false ->
  convert_line (assignment indent name w1 w2 rest) = rewritten indent name rest.
Proof.
  intros E Hno. unfold convert_line.
  rewrite Hno, (search_assignment _ _ _ _ _ E). cbn [negb andb].
  change (sub token_pattern replace_func (assignment indent name w1 w2 rest))
    with (rewrite_at None (assignment indent name w1 w2 rest)).
  rewrite rewrite_at_eq.
  rewrite <- (app_nil_r (assignment indent name w1 w2 rest)) at 1.
  rewrite match_token by exact E.
  rewrite replace_func_segs, rewrite_at_nil. apply app_nil_r.
Qed.

(** Where the guard finds a match, the line holds the opening of a
    [govel.] literal. *)
Lemma search_guard_prefix (prev : option ascii) (line : text) :
  search guard_pattern prev line = true ->
  contains (dquote :: str "govel.") line = true.
Proof.
  intros H. apply search_inv in H as [a [b [-> Hm]]].
  apply guard_then_token in Hm.
  destruct (match_items token_pattern (prev_after prev a) b) as [[segs r]|] eqn:E;
    [|congruence].
  destruct (match_token_inv _ _ _ _ E) as [indent [name [w1 [w2 [rest [_ [-> _]]]]]]].
  replace (a ++ assignment indent name w1 w2 rest ++ r)
    with ((a ++ indent ++ name ++ w1 ++ str "=" ++ w2)
            ++ (dquote :: str "govel.") ++ (rest ++ dquote :: r)).
  - apply contains_middle.
  - unfold assignment, govel_literal, quoted. cbn [app].
    rewrite <- !app_assoc. cbn [app]. rewrite <- !app_assoc. reflexivity.
Qed.

(** *** Lines the guard cannot match *)

Lemma span_unique (f : ascii -> bool) (p p' : text) (x x' : ascii) (b b' : text) :
  forallb f p = true -> forallb f p' = true -> f x = false -> f x' = false ->
  p ++ x :: b = p' ++ x' :: b' -> p = p' /\ x = x' /\ b = b'.
Proof.
  revert p'. induction p as [|y p IH]; intros [|y' p'] Hp Hp' Hx Hx' E;
    cbn [app forallb] in *.
  - inversion E. auto.
  - inversion E; subst. apply andb_true_iff in Hp' as [H _]. congruence.
  - inversion E; subst. apply andb_true_iff in Hp as [H _]. congruence.
  - inversion E; subst.
    apply andb_true_iff in Hp as [_ Hp]. apply andb_true_iff in Hp' as [_ Hp'].
    destruct (IH p' Hp Hp' Hx Hx' H1) as [-> [-> ->]]. auto.
Qed.

Lemma forallb_rev_true (f : ascii -> bool) (l : text) :
  forallb f l = true -> forallb f (rev l) = true.
Proof.
  induction l as [|x l IH]; [reflexivity|]. cbn [forallb rev].
  intros H. apply andb_true_iff in H as [Hx Hl].
  rewrite forallb_app, IH by assumption. cbn [forallb]. rewrite Hx. reflexivity.
Qed.

Lemma span_unique_end (f : ascii -> bool) (a a' : text) (x x' : ascii) (w w' : text) :
  forallb f w = true -> forallb f w' = true -> f x = false -> f x' = false ->
  a ++ x :: w = a' ++ x' :: w' -> a = a' /\ x = x' /\ w = w'.
Proof.
  intros Hw Hw' Hx Hx' E. apply (f_equal (@rev ascii)) in E.
  rewrite !rev_app_distr in E. cbn [rev] in E. rewrite <- !app_assoc in E.
  cbn [app] in E.
  apply (span_unique f) in E as [E1 [E2 E3]];
    try assumption; try (apply forallb_rev_true; assumption).
  apply (f_equal (@rev ascii)) in E1, E3. rewrite !rev_involutive in E1, E3.
  auto.
Qed.

(** Two ways to cut a text at a double quote, the first with no quote
    before the cut: the cuts agree, or the second is further on. *)
Lemma first_quote (p t p2 t2 : text) :
  forallb notquote p = true ->
  p ++ dquote :: t = p2 ++ dquote :: t2 ->
  (p2 = p /\ t2 = t) \/ exists mid, t = mid ++ dquote :: t2.
Proof.
  revert p2. induction p as [|y p IH]; intros p2 Hp E; cbn [app forallb] in *.
  - destruct p2 as [|z p2]; cbn [app] in E; inversion E; subst.
    + left. auto.
    + right. exists p2. reflexivity.
  - apply andb_true_iff in Hp as [Hy Hp].
    destruct p2 as [|z p2]; cbn [app] in E; inversion E; subst.
    + discriminate Hy.
    + destruct (IH p2 Hp H1) as [[-> ->]|[mid ->]]; [left; auto|].
      right. exists mid. reflexivity.
Qed.

Lemma space_is_notquote (x : ascii) : isspace x = true -> notquote x = true.
Proof. char_cases x. Qed.

Lemma forallb_impl (f g : ascii -> bool) (l : text) :
  (forall x, f x = true -> g x = true) ->
  forallb f l = true -> forallb g l = true.
Proof.
  intros H. induction l as [|x l IH]; [reflexivity|]. cbn [forallb].
  intros E. apply andb_true_iff in E as [Hx Hl].
  rewrite (H x Hx), IH by assumption. reflexivity.
Qed.

(** An assignment whose identifier ends with a character that is neither
    a capital nor an underscore offers the guard no match. *)
Lemma search_other_identifier (indent body : text) (c : ascii) (w1 w2 rest : text) :
  forallb isspace indent = true -> forallb notquote body = true ->
  notquote c = true -> isspace c = false -> isupper_us c = false ->
  forallb isspace w1 = true -> forallb isspace w2 = true ->
  forallb notquote rest = true ->
  search guard_pattern None (assignment indent (body ++ [c]) w1 w2 rest) = false.
Proof.
  intros Hi Hb Hc Hcs Hcu Hw1 Hw2 Hr.
  destruct (search guard_pattern None _) eqn:S; [|reflexivity]. exfalso.
  apply search_inv in S as [a [b [Eab Hm]]].
  apply guard_then_token in Hm.
  destruct (match_items token_pattern (prev_after None a) b) as [[segs r]|] eqn:E;
    [|congruence].
  destruct (match_token_inv _ _ _ _ E)
    as [indent' [name' [w1' [w2' [rest' [El [-> _]]]]]]].
  destruct El as [_ [Hne [Hname [Hw1' [Hw2' [Hre _]]]]]].
  destruct (exists_last Hne) as [init [u ->]].
  rewrite forallb_app in Hname. apply andb_true_iff in Hname as [_ Hu].
  cbn [forallb] in Hu. rewrite andb_true_r in Hu.
  destruct rest' as [|g0 rest']; [congruence|].
  assert (E1 : (indent ++ body ++ c :: w1 ++ "="%char :: w2)
                 ++ dquote :: (str "govel." ++ rest) ++ [dquote]
               = (a ++ indent' ++ init ++ u :: w1' ++ "="%char :: w2')
                 ++ dquote :: (str "govel." ++ g0 :: rest') ++ dquote :: r).
  { revert Eab. unfold assignment, govel_literal, quoted.
    cbn [app str list_ascii_of_string].
    do 3 (rewrite <- ?app_assoc; cbn [app]).
    intros E0. exact E0. }
  apply first_quote in E1.
  - destruct E1 as [[E1 _]|[mid E1]].
    + symmetry in E1.
      change (indent ++ body ++ c :: w1 ++ "="%char :: w2)
        with (indent ++ body ++ (c :: w1) ++ "="%char :: w2) in E1.
      change (a ++ indent' ++ init ++ u :: w1' ++ "="%char :: w2')
        with (a ++ indent' ++ init ++ (u :: w1') ++ "="%char :: w2') in E1.
      rewrite !app_assoc in E1.
      apply (span_unique_end isspace) in E1 as [E1 _];
        try assumption; try reflexivity.
      rewrite <- !app_assoc in E1.
      change (indent ++ body ++ c :: w1) with (indent ++ body ++ c :: w1) in E1.
      rewrite !app_assoc in E1.
      apply (span_unique_end isspace) in E1 as [_ [E1 _]];
        try assumption; [congruence|].
      apply upper_not_space. exact Hu.
    + change ((str "govel." ++ rest) ++ [dquote])
        with ((str "govel." ++ rest) ++ dquote :: []) in E1.
      apply first_quote in E1.
      * destruct E1 as [[_ E1]|[mid' E1]]; [discriminate E1|].
        destruct mid'; discriminate E1.
      * rewrite forallb_app, Hr. reflexivity.
  - do 3 (rewrite ?forallb_app; cbn [forallb]).
    rewrite Hb, Hc.
    rewrite (forallb_impl isspace notquote indent space_is_notquote Hi).
    rewrite (forallb_impl isspace notquote w1 space_is_notquote Hw1).
    rewrite (forallb_impl isspace notquote w2 space_is_notquote Hw2).
    reflexivity.
Qed.

(** C2, as the code has it: an eligible assignment that does not hold the
    factory token already has its right-hand side wrapped into the call;
    a line that holds the factory token, a line without the opening of a
    [govel.] literal, and an assignment whose identifier ends with neither
    a capital nor an underscore are left as they are. *)
Theorem literal_rewrite_selective :
  (forall indent name w1 w2 rest,
      eligible indent name w1 w2 rest ->
      contains factory_token (assignment indent name w1 w2 rest) = false ->
      convert_line (assignment indent name w1 w2 rest)
      = rewritten indent name rest)
  /\ (forall line,
         contains factory_token line = true -> convert_line line = line)
  /\ (forall line,
         contains (dquote :: str "govel.") line = false ->
         convert_line line = line)
  /\ (forall indent body c w1 w2 rest,
         forallb isspace indent = true -> forallb notquote body = true ->
         notquote c = true -> isspace c = false -> isupper_us c = false ->
         forallb isspace w1 = true -> forallb isspace w2 = true ->
         forallb notquote rest = true ->
         convert_line (assignment indent (body ++ [c]) w1 w2 rest)
         = assignment indent (body ++ [c]) w1 w2 rest).
Proof.
  split; [exact convert_line_eligible|]. split; [|split].
  - intros line H. unfold convert_line. rewrite H. reflexivity.
  - intros line H. unfold convert_line.
    destruct (search guard_pattern None line) eqn:S.
    + apply search_guard_prefix in S. congruence.
    + rewrite andb_false_r. reflexivity.
  - intros indent body c w1 w2 rest Hi Hb Hc Hcs Hcu Hw1 Hw2 Hr.
    unfold convert_line.
    rewrite search_other_identifier by assumption.
    rewrite andb_false_r. reflexivity.
Qed.

(** C9: whatever whitespace stood around the equals sign of an eligible
    assignment, the rewritten line has one space on each side of it; the
    indentation and the identifier are kept. *)
Theorem rewrite_normalizes_spacing (indent name w1 w2 rest : text) :
  eligible indent name w1 w2 rest ->
  contains factory_token (assignment indent name w1 w2 rest) = false ->
  convert_line (assignment indent name w1 w2 rest)
  = indent ++ name ++ str " " ++ str "=" ++ str " " ++ factory_call rest.
Proof.
  intros E H. rewrite convert_line_eligible by assumption. reflexivity.
Qed.

(** ** What the rewriter can and cannot change *)

Lemma rewrites_refl (s : text) : rewrites s s.
Proof. induction s; constructor; assumption. Qed.

Lemma rewrites_keep_app (a s s' : text) :
  rewrites s s' -> rewrites (a ++ s) (a ++ s').
Proof. intros H. induction a; [exact H | constructor; assumption]. Qed.

Lemma rewrites_app (a a' b b' : text) :
  rewrites a a' -> rewrites b b' -> rewrites (a ++ b) (a' ++ b').
Proof.
  intros Ha Hb. induction Ha as [|x s s' _ IH|indent name w1 w2 s s' Hi Hn Hu H1 H2 _ IH|s s' _ IH].
  - exact Hb.
  - cbn [app]. constructor. exact IH.
  - replace ((indent ++ name ++ w1 ++ "="%char :: w2 ++ s) ++ b)
      with (indent ++ name ++ w1 ++ "="%char :: w2 ++ s ++ b)
      by (do 3 (rewrite <- ?app_assoc; cbn [app]); reflexivity).
    replace ((indent ++ name ++ str " = symbol.For(" ++ s') ++ b')
      with (indent ++ name ++ str " = symbol.For(" ++ s' ++ b')
      by (rewrite <- !app_assoc; reflexivity).
    apply rewrites_head; assumption.
  - cbn [app]. apply rewrites_paren. exact IH.
Qed.

(** The scan of the rewriter stays within [rewrites]. *)
Lemma rewrite_at_rewrites (prev : option ascii) (s : text) :
  rewrites s (rewrite_at prev s).
Proof.
  pattern prev, s, (rewrite_at prev s). apply rewrite_at_ind; clear prev s.
  - intros _. constructor.
  - intros prev x t _ IH. constructor. exact IH.
  - intros prev indent name w1 w2 rest r [Hi [Hn [Hu [H1 [H2 _]]]]] IH.
    replace (assignment indent name w1 w2 rest ++ r)
      with (indent ++ name ++ w1 ++ "="%char :: w2
              ++ (dquote :: str "govel." ++ rest) ++ dquote :: r).
    + replace (rewritten indent name rest ++ rewrite_at (Some dquote) r)
        with (indent ++ name ++ str " = symbol.For("
                ++ (dquote :: str "govel." ++ rest)
                ++ dquote :: ")"%char :: rewrite_at (Some dquote) r).
      * apply rewrites_head; try assumption.
        apply rewrites_keep_app. apply rewrites_paren. exact IH.
      * unfold rewritten, factory_call, govel_literal, quoted, factory_token.
        cbn [app str list_ascii_of_string].
        do 3 (rewrite <- ?app_assoc; cbn [app]). reflexivity.
    + unfold assignment, govel_literal, quoted.
      cbn [app str list_ascii_of_string].
      do 3 (rewrite <- ?app_assoc; cbn [app]). reflexivity.
Qed.

Lemma convert_line_rewrites (line : text) : rewrites line (convert_line line).
Proof.
  unfold convert_line.
  destruct (negb (contains factory_token line) && search guard_pattern None line).
  - apply (rewrite_at_rewrites None).
  - apply rewrites_refl.
Qed.

Lemma join_lines_cons (l : text) (ls : list text) :
  ls <> [] -> join_lines (l :: ls) = l ++ newline :: join_lines ls.
Proof. destruct ls; [congruence | reflexivity]. Qed.

Lemma join_lines_rewrites (ls : list text) :
  rewrites (join_lines ls) (join_lines (map convert_line ls)).
Proof.
  induction ls as [|l ls IH]; [constructor|].
  destruct ls as [|l' ls].
  - apply convert_line_rewrites.
  - cbn [map]. rewrite !join_lines_cons by discriminate.
    apply rewrites_app; [apply convert_line_rewrites|].
    constructor. exact IH.
Qed.

Lemma convert_string_rewrites (content : text) :
  rewrites content (convert_string_to_symbol content).
Proof.
  unfold convert_string_to_symbol.
  rewrite <- (join_split content) at 1. apply join_lines_rewrites.
Qed.

(** *** No opener comes into being *)

Lemma opener_rest_spaces (k : nat) (a z : text) :
  5 <= k -> forallb isspace a = true ->
  opener_rest k (a ++ z) = opener_rest k z.
Proof.
  intros Hk. induction a as [|x a IH]; [reflexivity|]. cbn [forallb app].
  intros H. apply andb_true_iff in H as [Hx Ha].
  rewrite opener_rest_space, Hx by assumption. apply IH. exact Ha.
Qed.

Lemma const_letter_lower (k : nat) (x : ascii) :
  k < 5 -> Ascii.eqb (const_letter k) x = true ->
  isspace x = false /\ isupper_us x = false /\ x <> dquote.
Proof.
  intros Hk H. apply Ascii.eqb_eq in H. subst x. unfold const_letter.
  do 5 (destruct k as [|k]; [repeat split; discriminate|]). lia.
Qed.

Lemma opener_rest_upper (k : nat) (x : ascii) (z : text) :
  isupper_us x = true -> opener_rest k (x :: z) = false.
Proof.
  intros Hx. destruct (Nat.lt_ge_cases k 5) as [L|G].
  - rewrite opener_rest_letter by assumption.
    destruct (Ascii.eqb (const_letter k) x) eqn:E; [|reflexivity].
    destruct (const_letter_lower k x L E) as [_ [H _]]. congruence.
  - rewrite opener_rest_space by assumption.
    rewrite (upper_not_space x Hx). revert Hx. char_cases x.
Qed.

Lemma opener_rest_head (k : nat) (indent name z : text) :
  forallb isspace indent = true -> name <> [] -> forallb isupper_us name = true ->
  opener_rest k (indent ++ name ++ z) = false.
Proof.
  intros Hi Hn Hu. destruct name as [|n0 name]; [congruence|].
  cbn [forallb] in Hu. apply andb_true_iff in Hu as [Hn0 _]. cbn [app].
  destruct indent as [|i0 indent]; [apply opener_rest_upper; exact Hn0|].
  destruct (Nat.lt_ge_cases k 5) as [L|G].
  - cbn [app]. rewrite opener_rest_letter by assumption.
    destruct (Ascii.eqb (const_letter k) i0) eqn:E; [|reflexivity].
    destruct (const_letter_lower k i0 L E) as [H _].
    cbn [forallb] in Hi. apply andb_true_iff in Hi as [Hi0 _]. congruence.
  - rewrite opener_rest_spaces by assumption.
    apply opener_rest_upper. exact Hn0.
Qed.

Lemma rewrites_no_new_rest (s s' : text) :
  rewrites s s' ->
  forall k, opener_rest k s' = true -> opener_rest k s = true.
Proof.
  induction 1 as [|x s s' _ IH|indent name w1 w2 s s' Hi Hn Hu H1 H2 _ IH|s s' _ IH];
    intros k.
  - auto.
  - destruct (Nat.lt_ge_cases k 5) as [L|G].
    + rewrite !opener_rest_letter by assumption.
      intros H. apply andb_true_iff in H as [Hx Hs].
      rewrite Hx, (IH _ Hs). reflexivity.
    + rewrite !opener_rest_space by assumption.
      destruct (isspace x); [apply IH | auto].
  - rewrite opener_rest_head by assumption. discriminate.
  - destruct (Nat.lt_ge_cases k 5) as [L|G].
    + rewrite opener_rest_letter by assumption.
      destruct (Ascii.eqb (const_letter k) dquote) eqn:E; [|discriminate].
      destruct (const_letter_lower k dquote L E) as [_ [_ H]]. congruence.
    + rewrite opener_rest_space by assumption. discriminate.
Qed.

Lemma opener_at_word (prev prev' : option ascii) (s : text) :
  wordp prev = wordp prev' -> opener_at prev s = opener_at prev' s.
Proof. intros H. unfold opener_at. rewrite H. reflexivity. Qed.

Lemma upper_no_c (w : text) :
  forallb isupper_us w = true ->
  forallb (fun x => negb (Ascii.eqb "c"%char x)) w = true.
Proof.
  induction w as [|x w IH]; [reflexivity|]. cbn [forallb].
  intros H. apply andb_true_iff in H as [Hx Hw].
  rewrite IH by assumption. rewrite andb_true_r.
  revert Hx. char_cases x.
Qed.

Lemma spaces_prev (p : option ascii) (w : text) :
  wordp p = false -> forallb isspace w = true -> wordp (prev_after p w) = false.
Proof.
  revert p. induction w as [|x w IH]; intros p Hp; [intros _; exact Hp|].
  cbn [forallb prev_after]. intros H. apply andb_true_iff in H as [Hx Hw].
  apply IH; [|exact Hw]. cbn [wordp]. revert Hx. char_cases x.
Qed.

(** A text without openers has none after the rewriter. *)
Lemma rewrites_no_opener (s s' : text) :
  rewrites s s' ->
  forall prev prev', wordp prev = wordp prev' ->
    count_openers prev s = 0 -> count_openers prev' s' = 0.
Proof.
  induction 1 as [|x s s' Hr IH|indent name w1 w2 s s' Hi Hn Hu H1 H2 _ IH|s s' _ IH];
    intros prev prev' Hw.
  - auto.
  - cbn [count_openers]. intros H.
    rewrite (IH (Some x) (Some x) eq_refl) by lia.
    destruct (opener_at prev (x :: s)) eqn:E; [discriminate H|].
    replace (opener_at prev' (x :: s')) with (@None text); [reflexivity|].
    symmetry. apply opener_at_rest. apply opener_at_rest in E as [E|E].
    + left. congruence.
    + right. destruct (opener_rest 0 (x :: s')) eqn:R; [|reflexivity].
      apply (rewrites_no_new_rest (x :: s) (x :: s')) in R;
        [congruence | constructor; exact Hr].
  - replace (indent ++ name ++ w1 ++ "="%char :: w2 ++ s)
      with ((indent ++ name ++ w1 ++ "="%char :: w2) ++ s)
      by (do 3 (rewrite <- ?app_assoc; cbn [app]); reflexivity).
    replace (indent ++ name ++ str " = symbol.For(" ++ s')
      with ((indent ++ name ++ str " = symbol.For(") ++ s')
      by (rewrite <- !app_assoc; reflexivity).
    rewrite !count_openers_skip.
    + apply IH. rewrite !prev_after_app. cbn [prev_after].
      rewrite spaces_prev by (reflexivity || assumption).
      symmetry. apply (spaces_prev (Some "("%char) []); reflexivity.
    + rewrite !forallb_app, (spaces_no_c indent Hi), (upper_no_c name Hu).
      reflexivity.
    + do 2 (rewrite ?forallb_app; cbn [forallb]).
      rewrite (spaces_no_c indent Hi), (upper_no_c name Hu),
        (spaces_no_c w1 H1), (spaces_no_c w2 H2). reflexivity.
  - cbn [count_openers]. intros H.
    replace (opener_at prev' (dquote :: ")"%char :: s')) with (@None text)
      by (unfold opener_at; destruct (wordp prev'); reflexivity).
    replace (opener_at (Some dquote) (")"%char :: s')) with (@None text)
      by reflexivity.
    replace (opener_at prev (dquote :: s)) with (@None text) in H
      by (unfold opener_at; destruct (wordp prev); reflexivity).
    cbn [Nat.add]. apply (IH (Some dquote)); [reflexivity | exact H].
Qed.

(** *** No occurrence of a needle comes into being *)

Section RewriteOccurrences.

Variable needle : text.
Hypothesis Hsafe : apart_from_rewrites needle = true.

Lemma safe_shape : exists h h2 n, needle = h :: h2 :: n.
Proof.
  unfold apart_from_rewrites in Hsafe.
  destruct needle as [|h [|h2 n]]; try discriminate. eauto.
Qed.

Lemma safe_chars :
  forallb (fun x => negb (isspace x) && negb (isupper_us x)
                    && negb (Ascii.eqb x ")"%char)) needle = true.
Proof.
  unfold apart_from_rewrites in Hsafe.
  destruct needle as [|h [|h2 n]]; try discriminate.
  apply andb_true_iff in Hsafe as [H _]. exact H.
Qed.

Lemma safe_head (h : ascii) (n : text) :
  needle = h :: n ->
  forallb (fun x => negb (Ascii.eqb h x)) (str " = symbol.For()") = true.
Proof.
  intros E. unfold apart_from_rewrites in Hsafe. rewrite E in Hsafe.
  destruct n as [|h2 n]; [discriminate|].
  apply andb_true_iff in Hsafe as [_ H]. exact H.
Qed.

Lemma safe_char (pre : text) (x : ascii) (n' : text) :
  needle = pre ++ x :: n' ->
  isspace x = false /\ isupper_us x = false /\ Ascii.eqb x ")"%char = false.
Proof.
  intros E. pose proof safe_chars as H. rewrite E, forallb_app in H.
  apply andb_true_iff in H as [_ H]. cbn [forallb] in H.
  apply andb_true_iff in H as [H _].
  apply andb_true_iff in H as [H H3]. apply andb_true_iff in H as [H1 H2].
  repeat split; apply negb_true_iff; assumption.
Qed.

Lemma startswith_head_class (f : ascii -> bool) (a z : text) (x : ascii) (n' : text) :
  forallb f a = true -> a <> [] -> f x = false ->
  startswith (a ++ z) (x :: n') = false.
Proof.
  intros Ha Hne Hx. destruct a as [|y a]; [congruence|].
  cbn [forallb] in Ha. apply andb_true_iff in Ha as [Hy _].
  cbn [app startswith].
  destruct (Ascii.eqb_spec x y) as [->|N]; [congruence | reflexivity].
Qed.

Lemma startswith_indent_name (indent name z : text) (x : ascii) (n' : text) :
  forallb isspace indent = true -> name <> [] -> forallb isupper_us name = true ->
  isspace x = false -> isupper_us x = false ->
  startswith (indent ++ name ++ z) (x :: n') = false.
Proof.
  intros Hi Hn Hu Hs Hx. destruct indent as [|i0 indent].
  - apply (startswith_head_class isupper_us name z); assumption.
  - apply (startswith_head_class isspace (i0 :: indent) (name ++ z));
      (assumption || discriminate).
Qed.

(** A suffix of the needle that starts the output starts the input. *)
Lemma rewrites_suffix (s s' : text) :
  rewrites s s' ->
  forall pre n', needle = pre ++ n' ->
    startswith s' n' = true -> startswith s n' = true.
Proof.
  induction 1 as [|x s s' _ IH|indent name w1 w2 s s' Hi Hn Hu H1 H2 _ IH|s s' _ IH];
    intros pre n' E.
  - auto.
  - destruct n' as [|y n']; [reflexivity|]. cbn [startswith].
    intros H. apply andb_true_iff in H as [Hy Hs]. rewrite Hy.
    apply (IH (pre ++ [y]) n'); [rewrite <- app_assoc; exact E | exact Hs].
  - destruct n' as [|y n']; [reflexivity|].
    destruct (safe_char pre y n' E) as [Hs [Hx _]].
    rewrite startswith_indent_name by assumption. discriminate.
  - destruct n' as [|y [|y2 n']]; [reflexivity| |].
    + cbn [startswith]. auto.
    + destruct (safe_char (pre ++ [y]) y2 n') as [_ [_ Hp]];
        [rewrite <- app_assoc; exact E|].
      cbn [startswith]. rewrite Hp, andb_false_r. discriminate.
Qed.

Lemma head_not_in (h : ascii) (n : text) (indent name w1 w2 : text) :
  needle = h :: n ->
  forallb isspace indent = true -> forallb isupper_us name = true ->
  forallb isspace w1 = true -> forallb isspace w2 = true ->
  forallb (fun x => negb (Ascii.eqb h x))
    (indent ++ name ++ w1 ++ "="%char :: w2) = true
  /\ forallb (fun x => negb (Ascii.eqb h x))
       (indent ++ name ++ str " = symbol.For(") = true.
Proof.
  intros E Hi Hu H1 H2.
  destruct (safe_char [] h n E) as [Hs [Hx _]].
  pose proof (safe_head h n E) as L.
  assert (Hup : forall w, forallb isupper_us w = true ->
                          forallb (fun x => negb (Ascii.eqb h x)) w = true).
  { induction w as [|x w IHw]; [reflexivity|]. cbn [forallb].
    intros H. apply andb_true_iff in H as [Ha Hb]. rewrite IHw by assumption.
    destruct (Ascii.eqb_spec h x) as [->|N]; [congruence | reflexivity]. }
  cbn [forallb str list_ascii_of_string] in L.
  repeat (apply andb_true_iff in L as [? L]).
  split.
  - do 2 (rewrite ?forallb_app; cbn [forallb]).
    rewrite (spaces_not_head h indent Hs Hi), (Hup name Hu),
      (spaces_not_head h w1 Hs H1), (spaces_not_head h w2 Hs H2).
    cbn [andb]. rewrite andb_true_r. assumption.
  - rewrite !forallb_app, (spaces_not_head h indent Hs Hi), (Hup name Hu).
    cbn [forallb str list_ascii_of_string andb].
    repeat (apply andb_true_iff; split); assumption.
Qed.

Lemma rewrites_occurrences (s s' : text) :
  rewrites s s' -> occurrences needle s' <= occurrences needle s.
Proof.
  destruct safe_shape as [h [h2 [n E]]].
  induction 1 as [|x s s' Hr IH|indent name w1 w2 s s' Hi Hn Hu H1 H2 _ IH|s s' Hr IH].
  - auto.
  - cbn [occurrences].
    destruct (startswith (x :: s') needle) eqn:S.
    + apply (rewrites_suffix (x :: s) (x :: s') (rewrites_keep x s s' Hr) [] needle eq_refl) in S.
      rewrite S. lia.
    + destruct (startswith (x :: s) needle); lia.
  - destruct (head_not_in h (h2 :: n) indent name w1 w2 E Hi Hu H1 H2) as [A B].
    replace (indent ++ name ++ w1 ++ "="%char :: w2 ++ s)
      with ((indent ++ name ++ w1 ++ "="%char :: w2) ++ s)
      by (do 3 (rewrite <- ?app_assoc; cbn [app]); reflexivity).
    replace (indent ++ name ++ str " = symbol.For(" ++ s')
      with ((indent ++ name ++ str " = symbol.For(") ++ s')
      by (do 3 (rewrite <- ?app_assoc; cbn [app]); reflexivity).
    rewrite E, !occurrences_skip by assumption. rewrite <- E. exact IH.
  - cbn [occurrences].
    replace (startswith (dquote :: ")"%char :: s') needle) with false.
    + replace (startswith (")"%char :: s') needle) with false.
      * destruct (startswith (dquote :: s) needle); lia.
      * rewrite E. cbn [startswith].
        destruct (safe_char [] h (h2 :: n) E) as [_ [_ Hp]].
        rewrite Hp. reflexivity.
    + rewrite E. cbn [startswith].
      destruct (safe_char [h] h2 n E) as [_ [_ Hp]].
      rewrite Hp. cbn [andb]. rewrite andb_false_r. reflexivity.
Qed.

End RewriteOccurrences.

(** *** Lines *)

Lemma rewrites_one_line (s s' : text) :
  rewrites s s' -> one_line s = true -> one_line s' = true.
Proof.
  unfold one_line.
  induction 1 as [|x s s' _ IH|indent name w1 w2 s s' Hi Hn Hu H1 H2 _ IH|s s' _ IH].
  - auto.
  - cbn [forallb]. intros H. apply andb_true_iff in H as [Hx Hs].
    rewrite Hx, IH by assumption. reflexivity.
  - intros H. rewrite !forallb_app in H.
    apply andb_true_iff in H as [Ha H]. apply andb_true_iff in H as [Hb H].
    apply andb_true_iff in H as [_ H]. cbn [forallb] in H.
    apply andb_true_iff in H as [_ H]. rewrite forallb_app in H.
    apply andb_true_iff in H as [_ Hs].
    rewrite !forallb_app, Ha, Hb, (IH Hs). reflexivity.
  - cbn [forallb]. intros H. apply andb_true_iff in H as [_ H].
    rewrite IH by assumption. reflexivity.
Qed.

Lemma split_lines_one_line (s : text) :
  Forall (fun l => one_line l = true) (split_lines s).
Proof.
  induction s as [|c s IH]; cbn [split_lines].
  - repeat constructor.
  - destruct (Ascii.eqb c newline) eqn:E.
    + constructor; [reflexivity | exact IH].
    + destruct (split_lines s) as [|l ls]; [repeat constructor|].
      * unfold one_line. cbn [forallb]. rewrite E. reflexivity.
      * inversion IH; subst. constructor; [|assumption].
        unfold one_line in *. cbn [forallb]. rewrite E. cbn [negb andb].
        assumption.
Qed.

Lemma split_one_line (l : text) : one_line l = true -> split_lines l = [l].
Proof.
  unfold one_line. induction l as [|c l IH]; [reflexivity|].
  cbn [forallb split_lines]. intros H. apply andb_true_iff in H as [Hc Hl].
  apply negb_true_iff in Hc. rewrite Hc, (IH Hl). reflexivity.
Qed.

Lemma split_lines_app (a b : text) :
  split_lines (a ++ newline :: b) = split_lines a ++ split_lines b.
Proof.
  induction a as [|c a IH]; cbn [app split_lines].
  - rewrite Ascii.eqb_refl. reflexivity.
  - rewrite IH. destruct (Ascii.eqb c newline); [reflexivity|].
    destruct (split_lines_cons a) as [l [ls E]]. rewrite E. reflexivity.
Qed.

Lemma split_join (ls : list text) :
  ls <> [] -> Forall (fun l => one_line l = true) ls ->
  split_lines (join_lines ls) = ls.
Proof.
  induction ls as [|l ls IH]; [congruence|]. intros _ H.
  inversion H as [|? ? Hl Hls]; subst.
  destruct ls as [|l' ls].
  - apply split_one_line. exact Hl.
  - rewrite join_lines_cons by discriminate.
    rewrite split_lines_app, (split_one_line l Hl), IH by (assumption || discriminate).
    reflexivity.
Qed.

(** *** The rewriter twice *)

Lemma convert_line_twice (line : text) :
  convert_line (convert_line line) = convert_line line.
Proof.
  destruct (negb (contains factory_token line) && search guard_pattern None line)
    eqn:G.
  - assert (E : convert_line line = rewrite_at None line)
      by (unfold convert_line; rewrite G; reflexivity).
    apply andb_true_iff in G as [_ G].
    rewrite E. unfold convert_line.
    rewrite (rewrite_has_token None line G). reflexivity.
  - assert (E : convert_line line = line)
      by (unfold convert_line; rewrite G; reflexivity).
    rewrite !E. reflexivity.
Qed.

Lemma convert_string_twice (content : text) :
  convert_string_to_symbol (convert_string_to_symbol content)
  = convert_string_to_symbol content.
Proof.
  unfold convert_string_to_symbol.
  rewrite split_join.
  - rewrite map_map. f_equal. apply map_ext. exact convert_line_twice.
  - destruct (split_lines_cons content) as [l [ls ->]]. discriminate.
  - pose proof (split_lines_one_line content) as H.
    induction H as [|l ls Hl _ IH]; cbn [map]; constructor; [|exact IH].
    apply (rewrites_one_line l); [apply convert_line_rewrites | exact Hl].
Qed.

(** ** The whole transform *)

Lemma transform_inv (t t' : text) :
  transform t = Ok t' ->
  exists t1,
    (if negb (has_symbol_import t) then add_symbol_import t else Ok t) = Ok t1
    /\ t' = convert_string_to_symbol (convert_const_to_var t1).
Proof.
  unfold transform.
  destruct (if negb (has_symbol_import t) then add_symbol_import t else Ok t)
    as [t1|e]; cbn [bind]; [|discriminate].
  intros H; inversion H. exists t1. split; reflexivity.
Qed.

Lemma transform_with_import (t : text) :
  has_symbol_import t = true ->
  transform t = Ok (convert_string_to_symbol (convert_const_to_var t)).
Proof. intros H. unfold transform. rewrite H. reflexivity. Qed.

(** The declaration converter followed by the literal rewriter changes
    nothing the second time. *)
Lemma content_steps_idempotent (t : text) :
  convert_string_to_symbol
    (convert_const_to_var (convert_string_to_symbol (convert_const_to_var t)))
  = convert_string_to_symbol (convert_const_to_var t).
Proof.
  set (u := convert_string_to_symbol (convert_const_to_var t)).
  assert (Hu : count_openers None u = 0).
  { apply (rewrites_no_opener (convert_const_to_var t) u
             (convert_string_rewrites _) None None eq_refl).
    apply (const_to_var_no_opener None t). }
  change (convert_const_to_var u) with (const_to_var_at None u).
  rewrite (const_to_var_fixed None u Hu).
  apply convert_string_twice.
Qed.

Lemma update_unchanged (fs : filesystem) (path : string) (original : text) :
  fs path = Some original -> transform original = Ok original ->
  update_tokens_file fs path = (fs, [], false).
Proof.
  intros Hread Ht. unfold update_tokens_file, read_file. rewrite Hread.
  cbn [bind]. rewrite Ht. cbn [bind]. rewrite text_eqb_refl. reflexivity.
Qed.

(** The declaration converter followed by the literal rewriter is
    idempotent on every text. *)
Theorem content_transform_idempotent (t : text) :
  convert_string_to_symbol
    (convert_const_to_var (convert_string_to_symbol (convert_const_to_var t)))
  = convert_string_to_symbol (convert_const_to_var t).
Proof. apply content_steps_idempotent. Qed.

(** The declaration converter is idempotent on every text. *)
Theorem const_to_var_idempotent (t : text) :
  convert_const_to_var (convert_const_to_var t) = convert_const_to_var t.
Proof.
  apply (const_to_var_fixed None (convert_const_to_var t)).
  apply (const_to_var_no_opener None t).
Qed.

(** The literal rewriter is idempotent on every text. *)
Theorem string_to_symbol_idempotent (t : text) :
  convert_string_to_symbol (convert_string_to_symbol t)
  = convert_string_to_symbol t.
Proof. apply convert_string_twice. Qed.

(** ** Occurrences, line by line *)

Lemma contains_none (n h : text) :
  contains n h = false -> occurrences n h = 0.
Proof.
  induction h as [|x h IH]; [reflexivity|]. cbn [contains occurrences].
  intros H. apply orb_false_iff in H as [H1 H2].
  rewrite H1, IH by assumption. reflexivity.
Qed.

Lemma startswith_barrier (q : ascii) (n a b : text) :
  forallb (fun x => negb (Ascii.eqb x q)) n = true ->
  startswith (a ++ q :: b) n = startswith a n.
Proof.
  revert a. induction n as [|y n IH]; intros a H; [reflexivity|].
  cbn [forallb] in H. apply andb_true_iff in H as [Hy Hn].
  apply negb_true_iff in Hy.
  destruct a as [|x a]; cbn [app startswith].
  - rewrite Hy. reflexivity.
  - rewrite IH by assumption. reflexivity.
Qed.

Section LineOccurrences.

Variable h : ascii.
Variable n : text.
Hypothesis Hline : one_line (h :: n) = true.

Lemma occurrences_line (a b : text) :
  occurrences (h :: n) (a ++ newline :: b)
  = occurrences (h :: n) a + occurrences (h :: n) b.
Proof.
  induction a as [|x a IH]; cbn [app occurrences].
  - unfold one_line in Hline. cbn [forallb] in Hline.
    apply andb_true_iff in Hline as [Hh _]. apply negb_true_iff in Hh.
    cbn [startswith]. rewrite Hh. reflexivity.
  - rewrite IH.
    change (x :: a ++ newline :: b) with ((x :: a) ++ newline :: b).
    rewrite (startswith_barrier newline (h :: n) (x :: a) b Hline). lia.
Qed.

Lemma occurrences_join (ls : list text) :
  occurrences (h :: n) (join_lines ls) = total (h :: n) ls.
Proof.
  induction ls as [|l ls IH]; [reflexivity|].
  destruct ls as [|l' ls].
  - unfold total, list_sum. cbn [join_lines map fold_right]. lia.
  - rewrite join_lines_cons by discriminate.
    rewrite occurrences_line, IH. reflexivity.
Qed.

End LineOccurrences.

Lemma total_app (needle : text) (a b : list text) :
  total needle (a ++ b) = total needle a + total needle b.
Proof. unfold total. rewrite map_app, list_sum_app. reflexivity. Qed.

Lemma total_cons (needle : text) (l : text) (ls : list text) :
  total needle (l :: ls) = occurrences needle l + total needle ls.
Proof. reflexivity. Qed.

Lemma total_insert (needle : text) (ls : list text) (i : nat) (x : text) :
  total needle (list_insert ls i x) = total needle ls + occurrences needle x.
Proof.
  unfold list_insert. rewrite total_app, total_cons.
  rewrite <- (firstn_skipn i ls) at 3. rewrite total_app. lia.
Qed.

Lemma total_zero (needle : text) (ls : list text) :
  total needle ls = 0 <-> Forall (fun l => occurrences needle l = 0) ls.
Proof.
  induction ls as [|l ls IH]; [split; [constructor | reflexivity]|].
  rewrite total_cons. split.
  - intros H. constructor; [lia | apply IH; lia].
  - intros H. inversion H; subst. apply IH in H3. lia.
Qed.

Lemma total_in (needle : text) (ls : list text) (l : text) :
  In l ls -> occurrences needle l <= total needle ls.
Proof.
  induction ls as [|l' ls IH]; [contradiction|]. rewrite total_cons.
  intros [->|H]; [lia | apply IH in H; lia].
Qed.

Lemma total_le (needle : text) (f : text -> text) (ls : list text) :
  (forall l, occurrences needle (f l) <= occurrences needle l) ->
  total needle (map f ls) <= total needle ls.
Proof.
  intros H. induction ls as [|l ls IH]; [reflexivity|].
  cbn [map]. rewrite !total_cons. pose proof (H l). lia.
Qed.

Lemma in_list_insert {A : Type} (ls : list A) (i : nat) (x y : A) :
  In y (list_insert ls i x) <-> y = x \/ In y ls.
Proof.
  unfold list_insert. rewrite in_app_iff. cbn [In].
  rewrite <- (firstn_skipn i ls) at 3. rewrite in_app_iff.
  split; intros H; intuition congruence.
Qed.

(** *** Parts of a line *)

Lemma contains_infix (needle a m b : text) :
  contains needle m = true -> contains needle (a ++ m ++ b) = true.
Proof.
  intros H. apply contains_inv in H as [x [y ->]].
  replace (a ++ (x ++ needle ++ y) ++ b) with ((a ++ x) ++ needle ++ (y ++ b))
    by (rewrite <- !app_assoc; reflexivity).
  apply contains_middle.
Qed.

Lemma strip_infix (l : text) : exists a b, l = a ++ strip l ++ b.
Proof.
  unfold strip, rstrip, lstrip.
  exists (takewhile isspace l),
    (rev (takewhile isspace (rev (dropwhile isspace l)))).
  rewrite <- rev_app_distr, takewhile_dropwhile, rev_involutive.
  symmetry. apply takewhile_dropwhile.
Qed.

Lemma occurrences_part (needle l : text) (k : nat) :
  occurrences needle l = 0 -> occurrences needle (skipn k (strip l)) = 0.
Proof.
  intros H. destruct needle as [|y needle].
  - destruct l; [|cbn [occurrences startswith] in H; discriminate H].
    destruct k; reflexivity.
  - apply contains_none.
    destruct (contains (y :: needle) (skipn k (strip l))) eqn:C; [|reflexivity].
    exfalso. destruct (strip_infix l) as [a [b E]].
    assert (C2 : contains (y :: needle) l = true).
    { rewrite E. rewrite <- (firstn_skipn k (strip l)).
      rewrite <- !app_assoc, app_assoc. apply contains_infix. exact C. }
    clear C E. revert H C2. induction l as [|x l IH];
      cbn [occurrences contains]; [discriminate|].
    destruct (startswith (x :: l) (y :: needle)); [discriminate|].
    cbn [orb Nat.add]. exact IH.
Qed.

Lemma path_join (ls : list text) :
  occurrences quoted_path (join_lines ls) = total quoted_path ls.
Proof. exact (occurrences_join dquote (symbol_path ++ [dquote]) eq_refl ls). Qed.

(** *** The lines the import manager leaves *)

Lemma zero_tab (m : text) : path_free m -> path_free (tab :: m).
Proof. unfold path_free. intros H. cbn [occurrences]. rewrite H. reflexivity. Qed.

Lemma Forall_list_set (ls : list text) (i : nat) (x : text) :
  Forall path_free ls -> path_free x -> Forall path_free (list_set ls i x).
Proof.
  intros H Hx. revert i. induction H as [|l ls Hl Hls IH]; intros i;
    [constructor|].
  destruct i; cbn [list_set]; constructor; auto.
Qed.

Lemma Forall_list_insert (ls : list text) (i : nat) (x : text) :
  Forall path_free ls -> path_free x -> Forall path_free (list_insert ls i x).
Proof.
  intros H Hx. apply Forall_forall. intros y Hy.
  apply in_list_insert in Hy as [->|Hy]; [exact Hx|].
  rewrite Forall_forall in H. apply H. exact Hy.
Qed.

Lemma scan_zero (lines rest : list text) (i : nat) (has : bool) :
  Forall path_free lines -> Forall path_free rest ->
  Forall path_free (scan_lines (scan_imports lines i rest has)).
Proof.
  intros Hl Hr. revert i has.
  induction Hr as [|l rest Hz _ IH]; intros i has; cbn [scan_imports];
    [exact Hl|].
  destruct (text_eqb (strip l) []); [apply IH|].
  destruct (startswith (strip l) (str "import")); [|exact Hl].
  destruct (startswith (strip l) (str "import (")); [exact Hl|].
  destruct (startswith (strip l) (str "import ")); [|apply IH].
  cbn [scan_lines].
  apply Forall_list_insert; [apply Forall_list_insert|reflexivity].
  - apply Forall_list_set; [exact Hl | reflexivity].
  - apply zero_tab. apply occurrences_part. exact Hz.
Qed.

Lemma scan_unchanged (lines rest : list text) (i : nat) (has : bool) :
  import_start (scan_imports lines i rest has) = None
  \/ import_end (scan_imports lines i rest has) = None ->
  scan_lines (scan_imports lines i rest has) = lines.
Proof.
  revert i has. induction rest as [|l rest IH]; intros i has;
    cbn [scan_imports]; [reflexivity|].
  destruct (text_eqb (strip l) []); [apply IH|].
  destruct (startswith (strip l) (str "import")); [|reflexivity].
  destruct (startswith (strip l) (str "import (")); [reflexivity|].
  destruct (startswith (strip l) (str "import ")); [|apply IH].
  cbn [import_start import_end]. intros [H|H]; discriminate H.
Qed.

(** When the import manager changes the text, its result holds one line
    with the import, and no other occurrence of the quoted path. *)
Lemma add_symbol_import_inserts (t t1 : text) :
  contains quoted_path t = false ->
  add_symbol_import t = Ok t1 -> t1 <> t ->
  exists A B L,
    t1 = join_lines (A ++ L :: B)
    /\ (L = import_statement \/ L = import_entry)
    /\ total quoted_path A = 0 /\ total quoted_path B = 0.
Proof.
  intros Hno Hadd Hne.
  assert (Hz : Forall path_free (split_lines t)).
  { apply total_zero. rewrite <- path_join, join_split.
    apply contains_none. exact Hno. }
  assert (Hfound : forall (ls : list text) (L : text),
             In L ls -> total quoted_path ls = 1 ->
             occurrences quoted_path L = 1 ->
             exists A B, ls = A ++ L :: B
                         /\ total quoted_path A = 0 /\ total quoted_path B = 0).
  { intros ls L HI Ht HL. apply in_split in HI as [A [B ->]].
    exists A, B. rewrite total_app, total_cons in Ht.
    repeat split; lia. }
  unfold add_symbol_import in Hadd.
  destruct (find_package (split_lines t) 0) as [pl|]; [|discriminate].
  set (sc := scan_imports (split_lines t) (pl + 1)
               (skipn (pl + 1) (split_lines t)) false) in *.
  assert (Hsc : Forall path_free (scan_lines sc)).
  { apply scan_zero; [exact Hz|].
    rewrite <- (firstn_skipn (pl + 1) (split_lines t)) in Hz.
    apply Forall_app in Hz. apply Hz. }
  apply total_zero in Hsc.
  destruct (negb (has_imports sc)) eqn:Hhas.
  - inversion Hadd as [E]. clear Hadd.
    match type of E with join_lines ?ls = _ =>
      destruct (Hfound ls import_statement) as [A [B [EL [HA HB]]]] end.
    + apply in_list_insert. right. apply in_list_insert. left. reflexivity.
    + rewrite !total_insert, Hsc. reflexivity.
    + reflexivity.
    + exists A, B, import_statement. rewrite <- EL. auto.
  - destruct (import_start sc) as [st|] eqn:Hst;
      [destruct (import_end sc) as [en|] eqn:Hen|].
    + inversion Hadd as [E]. clear Hadd.
      destruct (Hfound (list_insert (scan_lines sc) en import_entry) import_entry)
        as [A [B [EL [HA HB]]]].
      * apply in_list_insert. left. reflexivity.
      * rewrite total_insert, Hsc. reflexivity.
      * reflexivity.
      * exists A, B, import_entry. rewrite <- EL. auto.
    + exfalso. apply Hne. inversion Hadd as [E].
      unfold sc. rewrite scan_unchanged by (right; exact Hen).
      apply join_split.
    + exfalso. apply Hne. inversion Hadd as [E].
      unfold sc. rewrite scan_unchanged by (left; exact Hst).
      apply join_split.
Qed.


(** ** The declaration converter around a character no opener holds *)

Lemma strip_prefix_split (l a : text) (q : ascii) (b : text) :
  forallb (fun x => negb (Ascii.eqb x q)) l = true ->
  strip_prefix l (a ++ q :: b)
  = option_map (fun r => r ++ q :: b) (strip_prefix l a).
Proof.
  revert a. induction l as [|y l IH]; intros a H; [reflexivity|].
  cbn [forallb] in H. apply andb_true_iff in H as [Hy Hl].
  apply negb_true_iff in Hy.
  destruct a as [|x a]; cbn [app strip_prefix].
  - rewrite Hy. reflexivity.
  - destruct (Ascii.eqb y x); [apply IH; exact Hl | reflexivity].
Qed.

Lemma dropwhile_split (s : text) (q : ascii) (b : text) :
  isspace q = false \/ b = [] ->
  dropwhile isspace (s ++ q :: b)
  = match dropwhile isspace s with
    | [] => if isspace q then [] else q :: b
    | c :: r => (c :: r) ++ q :: b
    end.
Proof.
  intros H. induction s as [|x s IH]; cbn [app dropwhile].
  - destruct (isspace q) eqn:E; [|reflexivity].
    destruct H as [H| ->]; [congruence | reflexivity].
  - destruct (isspace x); [exact IH | reflexivity].
Qed.

Lemma opener_at_split (p : option ascii) (a : text) (q : ascii) (b : text) :
  forallb (fun x => negb (Ascii.eqb x q)) (str "const(") = true ->
  isspace q = false \/ b = [] ->
  opener_at p (a ++ q :: b) = option_map (fun r => r ++ q :: b) (opener_at p a).
Proof.
  intros Hq Hb. unfold opener_at. destruct (wordp p); [reflexivity|].
  rewrite strip_prefix_split.
  - destruct (strip_prefix (str "const") a) as [s1|]; [|reflexivity].
    cbn [option_map]. rewrite dropwhile_split by exact Hb.
    destruct (dropwhile isspace s1) as [|c r].
    + destruct (isspace q); [reflexivity|].
      replace (Ascii.eqb "("%char q) with false; [reflexivity|].
      cbn [forallb str list_ascii_of_string] in Hq.
      repeat (apply andb_true_iff in Hq as [? Hq]).
      symmetry. rewrite Ascii.eqb_sym. apply negb_true_iff. assumption.
    + cbn [app]. destruct (Ascii.eqb "("%char c); reflexivity.
  - cbn [forallb str list_ascii_of_string] in Hq |- *.
    repeat (apply andb_true_iff in Hq as [? Hq]).
    repeat (apply andb_true_iff; split); assumption.
Qed.

Lemma const_to_var_split (p : option ascii) (a : text) (q : ascii) (b : text) :
  forallb (fun x => negb (Ascii.eqb x q)) (str "const(") = true ->
  isspace q = false \/ b = [] ->
  const_to_var_at p (a ++ q :: b)
  = const_to_var_at p a ++ const_to_var_at (prev_after p a) (q :: b).
Proof.
  intros Hq Hb. pattern p, a, (const_to_var_at p a).
  apply const_to_var_ind; clear p a.
  - reflexivity.
  - intros p x t E IH.
    change ((x :: t) ++ q :: b) with (x :: t ++ q :: b).
    rewrite (const_to_var_at_eq p (x :: t ++ q :: b)).
    change (x :: t ++ q :: b) with ((x :: t) ++ q :: b).
    rewrite opener_at_split, E by assumption. cbn [option_map app prev_after].
    rewrite IH. reflexivity.
  - intros p w r Hp Hw IH.
    rewrite (const_to_var_at_eq p ((str "const" ++ w ++ "("%char :: r) ++ q :: b)).
    rewrite opener_at_split, opener_at_intro by assumption.
    cbn [option_map]. rewrite IH, <- app_assoc. do 2 f_equal.
    replace (str "const" ++ w ++ "("%char :: r)
      with ((str "const" ++ w ++ ["("%char]) ++ r)
      by (rewrite <- !app_assoc; reflexivity).
    rewrite prev_after_app. f_equal.
    rewrite !prev_after_app. reflexivity.
Qed.

Lemma opener_at_other (p : option ascii) (x : ascii) (s : text) :
  Ascii.eqb "c"%char x = false -> opener_at p (x :: s) = None.
Proof.
  intros H. unfold opener_at. destruct (wordp p); [reflexivity|].
  cbn [str list_ascii_of_string strip_prefix]. rewrite H. reflexivity.
Qed.

Lemma const_to_var_other (p : option ascii) (x : ascii) (s : text) :
  Ascii.eqb "c"%char x = false ->
  const_to_var_at p (x :: s) = x :: const_to_var_at (Some x) s.
Proof.
  intros H. rewrite const_to_var_at_eq, opener_at_other by exact H.
  reflexivity.
Qed.

Lemma const_to_var_nil (p : option ascii) : const_to_var_at p [] = [].
Proof.
  rewrite const_to_var_at_eq. unfold opener_at.
  destruct (wordp p); reflexivity.
Qed.

Lemma const_to_var_ends_line (p : option ascii) (pre : text) :
  ends_line pre -> ends_line (const_to_var_at p pre).
Proof.
  intros [->|[s0 ->]]; [left; apply const_to_var_nil|]. right.
  exists (const_to_var_at p s0).
  rewrite const_to_var_split by (reflexivity || (right; reflexivity)).
  rewrite const_to_var_other by reflexivity. reflexivity.
Qed.

Lemma const_to_var_starts_line (p : option ascii) (post : text) :
  starts_line post -> starts_line (const_to_var_at p post).
Proof.
  intros [->|[s0 ->]]; [left; apply const_to_var_nil|]. right.
  exists (const_to_var_at (Some newline) s0).
  apply const_to_var_other. reflexivity.
Qed.

(** The quoted path passes the converter as it is, with what comes before
    and after it converted on its own. *)
Lemma const_to_var_path (p : option ascii) (a post : text) :
  const_to_var_at p (a ++ quoted_path ++ post)
  = const_to_var_at p a ++ quoted_path ++ const_to_var_at (Some dquote) post.
Proof.
  change (a ++ quoted_path ++ post)
    with (a ++ dquote :: (symbol_path ++ [dquote]) ++ post).
  rewrite const_to_var_split by (reflexivity || (left; reflexivity)).
  f_equal. rewrite const_to_var_other by reflexivity.
  change (quoted_path ++ const_to_var_at (Some dquote) post)
    with (dquote :: (symbol_path ++ [dquote])
            ++ const_to_var_at (Some dquote) post).
  apply (f_equal (cons dquote)).
  rewrite <- !app_assoc. cbn [app].
  rewrite const_to_var_split by (reflexivity || (left; reflexivity)).
  rewrite const_to_var_other by reflexivity.
  reflexivity.
Qed.

(** The converter keeps a line that is the import. *)
Lemma const_to_var_import_line (pre L post : text) :
  L = import_statement \/ L = import_entry ->
  ends_line pre -> starts_line post ->
  exists pre' post',
    const_to_var_at None (pre ++ L ++ post) = pre' ++ L ++ post'
    /\ ends_line pre' /\ starts_line post'.
Proof.
  intros HL Hpre Hpost.
  exists (const_to_var_at None pre), (const_to_var_at (Some dquote) post).
  split; [|split; [apply const_to_var_ends_line; exact Hpre
                  | apply const_to_var_starts_line; exact Hpost]].
  destruct HL as [->| ->].
  - replace (pre ++ import_statement ++ post)
      with ((pre ++ str "import ") ++ quoted_path ++ post)
      by (unfold import_statement; rewrite <- !app_assoc; reflexivity).
    replace (const_to_var_at None pre ++ import_statement
               ++ const_to_var_at (Some dquote) post)
      with ((const_to_var_at None pre ++ str "import ") ++ quoted_path
              ++ const_to_var_at (Some dquote) post)
      by (unfold import_statement; rewrite <- !app_assoc; reflexivity).
    rewrite const_to_var_path. f_equal.
    change (pre ++ str "import ") with (pre ++ "i"%char :: str "mport ").
    rewrite const_to_var_split by (reflexivity || (left; reflexivity)).
    rewrite const_to_var_other by reflexivity. reflexivity.
  - replace (pre ++ import_entry ++ post)
      with ((pre ++ [tab]) ++ quoted_path ++ post)
      by (rewrite <- app_assoc; reflexivity).
    replace (const_to_var_at None pre ++ import_entry
               ++ const_to_var_at (Some dquote) post)
      with ((const_to_var_at None pre ++ [tab]) ++ quoted_path
              ++ const_to_var_at (Some dquote) post)
      by (rewrite <- app_assoc; reflexivity).
    rewrite const_to_var_path. f_equal.
    rewrite const_to_var_split by (reflexivity || (right; reflexivity)).
    rewrite const_to_var_other by reflexivity. reflexivity.
Qed.

(** *** A line in the middle of a text *)

Lemma join_lines_middle (A B : list text) (L : text) :
  exists pre post,
    join_lines (A ++ L :: B) = pre ++ L ++ post
    /\ ends_line pre /\ starts_line post.
Proof.
  assert (HB : exists post, join_lines (L :: B) = L ++ post /\ starts_line post).
  { destruct B as [|l B].
    - exists []. split; [symmetry; apply app_nil_r | left; reflexivity].
    - exists (newline :: join_lines (l :: B)).
      split; [reflexivity | right; eexists; reflexivity]. }
  destruct HB as [post [EB Hpost]].
  induction A as [|a A [pre [post' [E [Hpre Hpost']]]]].
  - exists [], post. repeat split; [exact EB | left; reflexivity | exact Hpost].
  - exists (a ++ newline :: pre), post'. cbn [app].
    rewrite join_lines_cons by (destruct A; discriminate).
    rewrite E, <- app_assoc. cbn [app]. repeat split; [|exact Hpost'].
    right. destruct Hpre as [->|[s0 ->]].
    + exists a. reflexivity.
    + exists (a ++ newline :: s0). rewrite <- app_assoc. reflexivity.
Qed.

Lemma split_lines_middle (pre L post : text) :
  one_line L = true -> ends_line pre -> starts_line post ->
  In L (split_lines (pre ++ L ++ post)).
Proof.
  intros HL Hpre Hpost.
  assert (Hin : In L (split_lines (L ++ post))).
  { destruct Hpost as [->|[s0 ->]].
    - rewrite app_nil_r, (split_one_line L HL). left. reflexivity.
    - rewrite split_lines_app, (split_one_line L HL). left. reflexivity. }
  destruct Hpre as [->|[s0 ->]]; [exact Hin|].
  rewrite <- app_assoc. cbn [app]. rewrite split_lines_app.
  apply in_or_app. right. exact Hin.
Qed.

(** ** The import path, counted *)

Lemma path_const_to_var (t : text) :
  occurrences quoted_path (convert_const_to_var t) = occurrences quoted_path t.
Proof.
  pose proof (const_to_var_occurrences dquote (symbol_path ++ [dquote])
                eq_refl None t) as H.
  change (startswith var_opener (dquote :: symbol_path ++ [dquote]))
    with false in H.
  rewrite Nat.add_0_r in H. exact H.
Qed.

Lemma path_convert_line (l : text) :
  occurrences quoted_path (convert_line l) <= occurrences quoted_path l.
Proof.
  apply (rewrites_occurrences quoted_path eq_refl), convert_line_rewrites.
Qed.

Lemma path_convert_string (t : text) :
  occurrences quoted_path (convert_string_to_symbol t)
  <= occurrences quoted_path t.
Proof.
  apply (rewrites_occurrences quoted_path eq_refl), convert_string_rewrites.
Qed.

Lemma path_convert_string_lines (t : text) :
  occurrences quoted_path (convert_string_to_symbol t)
  = total quoted_path (map convert_line (split_lines t)).
Proof. unfold convert_string_to_symbol. apply path_join. Qed.

Lemma path_lines (t : text) :
  occurrences quoted_path t = total quoted_path (split_lines t).
Proof. rewrite <- path_join, join_split. reflexivity. Qed.

Lemma import_line_kept (L : text) :
  L = import_statement \/ L = import_entry ->
  convert_line L = L /\ occurrences quoted_path L = 1 /\ one_line L = true.
Proof. intros [->| ->]; repeat split; reflexivity. Qed.

(** When the import manager has inserted the import, the whole transform
    leaves exactly one occurrence of the quoted path. *)
Lemma path_once_after_insert (t t1 : text) :
  contains quoted_path t = false ->
  add_symbol_import t = Ok t1 -> t1 <> t ->
  occurrences quoted_path
    (convert_string_to_symbol (convert_const_to_var t1)) = 1.
Proof.
  intros Hno Hadd Hne.
  destruct (add_symbol_import_inserts t t1 Hno Hadd Hne)
    as [A [B [L [E [HL [HA HB]]]]]].
  destruct (import_line_kept L HL) as [Hkeep [Hone Hline]].
  assert (H1 : occurrences quoted_path (convert_const_to_var t1) = 1).
  { rewrite path_const_to_var, E, path_join, total_app, total_cons. lia. }
  assert (Hin : In L (split_lines (convert_const_to_var t1))).
  { destruct (join_lines_middle A B L) as [pre [post [Em [Hpre Hpost]]]].
    destruct (const_to_var_import_line pre L post HL Hpre Hpost)
      as [pre' [post' [Ec [Hpre' Hpost']]]].
    change (convert_const_to_var t1) with (const_to_var_at None t1).
    rewrite E, Em, Ec. apply split_lines_middle; assumption. }
  rewrite path_convert_string_lines.
  apply Nat.le_antisymm.
  - rewrite <- H1, (path_lines (convert_const_to_var t1)).
    apply total_le. exact path_convert_line.
  - rewrite <- Hone at 1. rewrite <- Hkeep at 1.
    apply total_in. apply in_map. exact Hin.
Qed.

(** When no line that holds the path is rewritten, the rewriter leaves the
    count as it is. *)
Lemma path_convert_string_same (t : text) :
  (forall l, In l (split_lines t) ->
             contains quoted_path l = true -> convert_line l = l) ->
  occurrences quoted_path (convert_string_to_symbol t)
  = occurrences quoted_path t.
Proof.
  intros H. rewrite path_convert_string_lines, path_lines.
  unfold total. f_equal. rewrite map_map. apply map_ext_in. intros l Hl.
  destruct (contains quoted_path l) eqn:C.
  - rewrite (H l Hl C). reflexivity.
  - pose proof (path_convert_line l) as Le.
    rewrite (contains_none _ _ C) in *. lia.
Qed.

(** C3, as the code has it.  For an input without the quoted path, when
    the import manager changes the text (it found the header and a place
    for the import), the output of the transform holds the quoted path
    exactly once.  For an input that holds it already, the import manager
    is not run, the declaration converter leaves the count as it is, and
    the literal rewriter never adds an occurrence: the count does not
    grow, and it stays the same when no line that holds the path is
    rewritten. *)
Theorem import_path_occurrences (t t' : text) :
  transform t = Ok t' ->
  (has_symbol_import t = false ->
   forall t1, add_symbol_import t = Ok t1 -> t1 <> t ->
              occurrences quoted_path t' = 1)
  /\ (has_symbol_import t = true ->
      t' = convert_string_to_symbol (convert_const_to_var t)
      /\ occurrences quoted_path (convert_const_to_var t)
         = occurrences quoted_path t
      /\ occurrences quoted_path t' <= occurrences quoted_path t
      /\ ((forall l, In l (split_lines (convert_const_to_var t)) ->
                     contains quoted_path l = true -> convert_line l = l) ->
          occurrences quoted_path t' = occurrences quoted_path t)).
Proof.
  intros Ht. split.
  - intros Hhas t1 Hadd Hne.
    destruct (transform_inv t t' Ht) as [t1' [E ->]].
    rewrite Hhas in E. cbn [negb] in E.
    assert (t1' = t1) by congruence. subst t1'.
    apply (path_once_after_insert t t1); try assumption.
    unfold has_symbol_import in Hhas.
    apply orb_false_iff in Hhas. apply Hhas.
  - intros Hhas. rewrite (transform_with_import t Hhas) in Ht.
    inversion Ht as [E]. clear Ht.
    split; [reflexivity|]. split; [apply path_const_to_var|]. split.
    + rewrite <- (path_const_to_var t). apply path_convert_string.
    + intros H. rewrite <- (path_const_to_var t).
      apply path_convert_string_same. exact H.
Qed.

(** ** Concrete runs *)

(** C1 as stated fails: the transform rewrites the literal of
    [glued_file], which cuts the only occurrence of the quoted path, and a
    second run then inserts the import. *)
Lemma idempotence_counterexample :
  transform glued_file = Ok glued_once
  /\ transform glued_once = Ok glued_twice
  /\ glued_twice <> glued_once.
Proof.
  split; [vm_compute; reflexivity|]. split; [vm_compute; reflexivity|].
  intros H. apply (f_equal (@length ascii)) in H. vm_compute in H.
  discriminate H.
Qed.

(** C2 as stated fails twice: an eligible assignment whose literal holds
    the factory token is not rewritten, and an assignment whose
    identifier is not all capitals is rewritten when it ends with
    capitals. *)
Lemma literal_rewrite_counterexample :
  eligible [] (str "A") (str " ") (str " ") (str "symbol.For(")
  /\ convert_line (assignment [] (str "A") (str " ") (str " ") (str "symbol.For("))
     <> rewritten [] (str "A") (str "symbol.For(")
  /\ forallb isupper_us (str "fooBAR") = false
  /\ convert_line (assignment [] (str "fooBAR") (str " ") (str " ") (str "x"))
     <> assignment [] (str "fooBAR") (str " ") (str " ") (str "x").
Proof.
  split; [unfold eligible; repeat split; (reflexivity || discriminate)|].
  split; [|split; [reflexivity|]];
    intros H; apply (f_equal (@length ascii)) in H; vm_compute in H;
    discriminate H.
Qed.

Lemma literal_rewrite_selective_witness :
  convert_line (assignment [tab] (str "STATUS_OK") (str "   ") (str "  ")
                  (str "status.ok"))
  = rewritten [tab] (str "STATUS_OK") (str "status.ok").
Proof.
  apply (proj1 literal_rewrite_selective).
  - unfold eligible. repeat split; (reflexivity || discriminate).
  - vm_compute. reflexivity.
Defined.

Lemma rewrite_normalizes_spacing_witness :
  convert_line (assignment [tab] (str "STATUS_OK") (str "   ") []
                  (str "status.ok"))
  = tab :: str "STATUS_OK = " ++ factory_call (str "status.ok").
Proof.
  apply (rewrite_normalizes_spacing [tab] (str "STATUS_OK") (str "   ") []
           (str "status.ok")).
  - unfold eligible. repeat split; (reflexivity || discriminate).
  - vm_compute. reflexivity.
Defined.

(** C3 as stated fails twice: [unclosed_file] lacks the quoted path and
    still lacks it after the transform, and [glued_file] holds it once
    and not at all after the transform. *)
Lemma import_path_counterexample :
  (has_symbol_import unclosed_file = false
   /\ transform unclosed_file = Ok unclosed_file
   /\ occurrences quoted_path unclosed_file = 0)
  /\ (has_symbol_import glued_file = true
      /\ transform glued_file = Ok glued_once
      /\ occurrences quoted_path glued_file = 1
      /\ occurrences quoted_path glued_once = 0).
Proof. repeat split; vm_compute; reflexivity. Qed.

Lemma import_path_occurrences_witness :
  occurrences quoted_path plain_done = 1.
Proof.
  refine (proj1 (import_path_occurrences plain_file plain_done _) _
            (join_lines [str "package tokens"; []; import_statement; []; [];
                         str "const (";
                         tab :: str "STATUS_OK   =  "
                           ++ govel_literal (str "status.ok");
                         str ")"]) _ _).
  - vm_compute. reflexivity.
  - vm_compute. reflexivity.
  - vm_compute. reflexivity.
  - intros H. apply (f_equal (@length ascii)) in H. vm_compute in H.
    discriminate H.
Defined.

Lemma write_only_on_change_witness :
  update_tokens_file (one_file plain_file) "tokens.go"
  = (write_file (one_file plain_file) "tokens.go" plain_done, [], true)
  /\ update_tokens_file (one_file plain_done) "tokens.go"
     = (one_file plain_done, [], false).
Proof.
  split.
  - apply (proj1 (write_only_on_change (one_file plain_file) "tokens.go")
             plain_file plain_done).
    + reflexivity.
    + vm_compute. reflexivity.
    + intros H. apply (f_equal (@length ascii)) in H. vm_compute in H.
      discriminate H.
  - apply (proj1 (proj2 (write_only_on_change (one_file plain_done) "tokens.go"))
             plain_done).
    + reflexivity.
    + vm_compute. reflexivity.
Defined.

Lemma missing_header_is_caught_witness :
  update_tokens_file (one_file headless_file) "tokens.go"
  = (one_file headless_file, [ErrorProcessing "tokens.go" no_package], false).
Proof.
  apply (proj2 (proj2 (missing_header_is_caught (one_file headless_file)
                         "tokens.go" headless_file []))).
  - reflexivity.
  - vm_compute. reflexivity.
  - vm_compute. repeat constructor.
Defined.

Lemma add_import_without_imports_witness :
  add_symbol_import plain_file
  = Ok (join_lines
          [str "package tokens"; []; import_statement; []; [];
           str "const (";
           tab :: str "STATUS_OK   =  " ++ govel_literal (str "status.ok");
           str ")"]).
Proof.
  apply (add_import_without_imports plain_file []
           [[]; str "const (";
            tab :: str "STATUS_OK   =  " ++ govel_literal (str "status.ok");
            str ")"]
           (str "package tokens")).
  - vm_compute. reflexivity.
  - constructor.
  - reflexivity.
  - intros l H. vm_compute in H. inversion H. vm_compute. reflexivity.
Defined.

Lemma add_import_promotes_single_witness :
  add_symbol_import single_file
  = Ok (join_lines
          [str "package tokens"; []; str "import ("; tab :: quoted (str "fmt");
           import_entry; str ")"; str "const ("; str ")"]).
Proof.
  apply (add_import_promotes_single single_file [] [[]]
           [str "const ("; str ")"] (str "package tokens")
           (str "import " ++ quoted (str "fmt"))).
  - vm_compute. reflexivity.
  - constructor.
  - reflexivity.
  - repeat constructor.
  - vm_compute. reflexivity.
  - vm_compute. reflexivity.
Defined.

Lemma add_import_unclosed_block_witness :
  add_symbol_import unclosed_file = Ok unclosed_file.
Proof.
  apply (add_import_unclosed_block unclosed_file [] []
           [tab :: quoted (str "fmt")] (str "package p") (str "import (")).
  - vm_compute. reflexivity.
  - constructor.
  - reflexivity.
  - constructor.
  - vm_compute. reflexivity.
  - repeat constructor.
Defined.

(** ** The test for the import *)

Lemma contains_import_statement (content : text) :
  contains import_statement content = true ->
  contains quoted_path content = true.
Proof.
  intros H. apply contains_inv in H as [a [b ->]].
  apply contains_infix. reflexivity.
Qed.

(** [has_symbol_import] is the test for the quoted path alone: its first
    test, for the single-form import statement, never decides.  The path
    counts wherever it stands in the text. *)
Theorem has_symbol_import_is_substring_test (content : text) :
  has_symbol_import content = contains quoted_path content
  /\ (has_symbol_import content = true
      <-> exists a b, content = a ++ quoted_path ++ b).
Proof.
  assert (E : has_symbol_import content = contains quoted_path content).
  { unfold has_symbol_import.
    destruct (contains import_statement content) eqn:H1; [|reflexivity].
    rewrite (contains_import_statement content H1). reflexivity. }
  split; [exact E|]. rewrite E. split.
  - apply contains_inv.
  - intros [a [b ->]]. apply contains_middle.
Qed.

(** ** The second loop of the import manager, in general *)

Lemma blank_not_odd (l : text) : blank l = true -> odd_import l = false.
Proof.
  unfold blank, odd_import. intros H. apply text_eqb_eq in H. rewrite H.
  reflexivity.
Qed.

Lemma odd_import_inv (l : text) :
  odd_import l = true ->
  text_eqb (strip l) [] = false
  /\ startswith (strip l) (str "import") = true
  /\ startswith (strip l) (str "import (") = false
  /\ startswith (strip l) (str "import ") = false.
Proof.
  unfold odd_import. intros H. apply andb_true_iff in H as [H1 H2].
  apply negb_true_iff in H2. repeat split.
  - apply (startswith_nonempty _ _ H1). discriminate.
  - exact H1.
  - destruct (startswith (strip l) (str "import (")) eqn:E; [|reflexivity].
    rewrite (startswith_prefix _ (str "import ") (str "(") E) in H2.
    discriminate H2.
  - exact H2.
Qed.

Lemma scan_imports_passed (lines skipped rest : list text) (i : nat) (has : bool) :
  Forall passed_over skipped ->
  scan_imports lines i (skipped ++ rest) has
  = scan_imports lines (i + length skipped) rest
      (has || existsb odd_import skipped).
Proof.
  intros Hs. revert i has.
  induction Hs as [|l skipped Hl _ IH]; intros i has;
    cbn [scan_imports app length existsb].
  - rewrite Nat.add_0_r, orb_false_r. reflexivity.
  - destruct Hl as [Hb|Ho].
    + rewrite (blank_not_odd l Hb). unfold blank in Hb. rewrite Hb, IH.
      cbn [orb]. f_equal. lia.
    + rewrite Ho. destruct (odd_import_inv l Ho) as [H0 [H1 [H2 H3]]].
      rewrite H0, H1, H2, H3, IH. rewrite orb_true_r. cbn [orb].
      f_equal. lia.
Qed.

Lemma find_close_first (body : list text) (close : text) (post : list text)
  (j : nat) :
  Forall (fun x => text_eqb (strip x) (str ")") = false) body ->
  text_eqb (strip close) (str ")") = true ->
  find_close (body ++ close :: post) j = Some (j + length body).
Proof.
  intros Hb Hc. revert j.
  induction Hb as [|x body Hx _ IH]; intros j; cbn [find_close app length].
  - rewrite Hc. f_equal. lia.
  - rewrite Hx, IH. f_equal. lia.
Qed.

Lemma find_close_inv (rest : list text) (j e : nat) :
  find_close rest j = Some e ->
  exists body close post,
    rest = body ++ close :: post /\ e = j + length body
    /\ Forall (fun x => text_eqb (strip x) (str ")") = false) body
    /\ text_eqb (strip close) (str ")") = true.
Proof.
  revert j. induction rest as [|x rest IH]; intros j; cbn [find_close];
    [discriminate|].
  destruct (text_eqb (strip x) (str ")")) eqn:E.
  - intros H. inversion H. subst e. exists [], x, rest.
    cbn [app length]. repeat split; [lia | constructor | exact E].
  - intros H. destruct (IH _ H) as [body [close [post [-> [-> [Hb Hc]]]]]].
    exists (x :: body), close, post. cbn [app length].
    repeat split; [lia | constructor; assumption | exact Hc].
Qed.

(** A grouped import with a closing line: the entry of the symbol
    package is inserted right before the first line that is a closing
    parenthesis once stripped; every other line stays where it is.  The
    lines between the header and the block may be blank or odd imports. *)
Theorem add_import_into_block (content : text)
  (pre skipped body post : list text) (hdr l close : text) :
  split_lines content = pre ++ hdr :: skipped ++ l :: body ++ close :: post ->
  no_header pre -> startswith hdr package_kw = true ->
  Forall passed_over skipped ->
  startswith (strip l) (str "import (") = true ->
  Forall (fun x => text_eqb (strip x) (str ")") = false) body ->
  text_eqb (strip close) (str ")") = true ->
  add_symbol_import content
  = Ok (join_lines
          (pre ++ hdr :: skipped ++ l :: body ++ import_entry :: close :: post)).
Proof.
  intros Hs Hpre Hhdr Hsk H1 Hbody Hclose.
  rewrite (add_symbol_import_header _ _ _ _ Hs Hpre Hhdr).
  rewrite scan_imports_passed by assumption.
  cbn [scan_imports].
  rewrite (startswith_nonempty _ _ H1) by discriminate.
  rewrite (startswith_prefix _ (str "import") (str " (") H1), H1.
  rewrite (find_close_first body close post _ Hbody Hclose).
  cbv zeta. cbn [has_imports scan_lines import_start import_end negb].
  do 2 f_equal.
  replace (pre ++ hdr :: skipped ++ l :: body ++ close :: post)
    with ((pre ++ hdr :: skipped ++ l :: body) ++ close :: post)
    by (rewrite <- !app_assoc; cbn [app]; rewrite <- !app_assoc; reflexivity).
  rewrite list_insert_app.
  - rewrite <- !app_assoc. cbn [app]. rewrite <- !app_assoc. reflexivity.
  - rewrite !length_app. cbn [length]. rewrite !length_app. cbn [length]. lia.
Qed.

(** An odd import between the header and the first line that is neither
    blank nor an import: [has_imports] is set, no block is found, and the
    text is returned as it is.  A file whose only import is written
    without a space after the word gets no import of the symbol package. *)
Theorem add_import_after_odd_import (content : text)
  (pre skipped post : list text) (hdr : text) :
  split_lines content = pre ++ hdr :: skipped ++ post ->
  no_header pre -> startswith hdr package_kw = true ->
  Forall passed_over skipped ->
  existsb odd_import skipped = true ->
  (forall l, first_nonblank post = Some l ->
             startswith (strip l) (str "import") = false) ->
  add_symbol_import content = Ok content.
Proof.
  intros Hs Hpre Hhdr Hsk Hodd Hno.
  rewrite (add_symbol_import_header _ _ _ _ Hs Hpre Hhdr).
  rewrite scan_imports_passed by assumption.
  rewrite Hodd. cbn [orb].
  rewrite (scan_imports_none _ _ _ _ Hno).
  cbv zeta. cbn [has_imports scan_lines import_start import_end negb].
  rewrite <- Hs, join_split. reflexivity.
Qed.

(** ** What the import manager can do to the lines *)

Lemma find_package_bound (ls : list text) (i p : nat) :
  find_package ls i = Some p -> i <= p < i + length ls.
Proof.
  revert i. induction ls as [|l ls IH]; intros i; cbn [find_package length];
    [discriminate|].
  destruct (startswith l package_kw).
  - intros H. inversion H. lia.
  - intros H. apply IH in H. lia.
Qed.


Lemma scan_imports_start_has (lines rest : list text) (i : nat) (has : bool)
  (s : nat) :
  import_start (scan_imports lines i rest has) = Some s ->
  has_imports (scan_imports lines i rest has) = true.
Proof.
  revert i has. induction rest as [|l rest IH]; intros i has;
    cbn [scan_imports]; [intros H; discriminate H|].
  destruct (text_eqb (strip l) []); [apply IH|].
  destruct (startswith (strip l) (str "import")); [|intros H; discriminate H].
  destruct (startswith (strip l) (str "import (")); [reflexivity|].
  destruct (startswith (strip l) (str "import ")); [reflexivity|].
  apply IH.
Qed.

(** When the second loop finds a block with both ends, either the lines
    are as they were and the end is the index of a closing line after the
    place the scan started, or one line, a single-form import, has been
    replaced by a block of three lines. *)
Lemma scan_imports_found (done rest : list text) (has : bool) (s e : nat) :
  import_start (scan_imports (done ++ rest) (length done) rest has) = Some s ->
  import_end (scan_imports (done ++ rest) (length done) rest has) = Some e ->
  (exists A B,
      done ++ rest = A ++ B /\ length done < length A /\ e = length A
      /\ scan_lines (scan_imports (done ++ rest) (length done) rest has)
         = done ++ rest)
  \/ (exists A l B,
         done ++ rest = A ++ l :: B /\ length done <= length A
         /\ startswith (strip l) (str "import ") = true
         /\ e = length A + 2
         /\ scan_lines (scan_imports (done ++ rest) (length done) rest has)
            = A ++ str "import (" :: (tab :: skipn 7 (strip l)) :: str ")" :: B).
Proof.
  revert done has. induction rest as [|l rest IH]; intros done has;
    cbn [scan_imports]; [discriminate|].
  assert (Hstep : forall has',
    import_start (scan_imports (done ++ l :: rest) (S (length done)) rest has')
    = Some s ->
    import_end (scan_imports (done ++ l :: rest) (S (length done)) rest has')
    = Some e ->
    (exists A B,
        done ++ l :: rest = A ++ B /\ length done < length A /\ e = length A
        /\ scan_lines (scan_imports (done ++ l :: rest) (S (length done)) rest has')
           = done ++ l :: rest)
    \/ (exists A l0 B,
           done ++ l :: rest = A ++ l0 :: B /\ length done <= length A
           /\ startswith (strip l0) (str "import ") = true
           /\ e = length A + 2
           /\ scan_lines (scan_imports (done ++ l :: rest) (S (length done)) rest has')
              = A ++ str "import (" :: (tab :: skipn 7 (strip l0)) :: str ")" :: B)).
  { intros has' Hs He.
    assert (E : done ++ l :: rest = (done ++ [l]) ++ rest)
      by (rewrite <- app_assoc; reflexivity).
    assert (L : S (length done) = length (done ++ [l]))
      by (rewrite length_app; cbn [length]; lia).
    rewrite E, L in Hs, He |- *.
    destruct (IH (done ++ [l]) has' Hs He)
      as [[A [B [E1 [H1 [H2 H3]]]]]|[A [l0 [B [E1 [H1 [H2 [H3 H4]]]]]]]].
    - left. exists A, B. rewrite <- L in H1. repeat split; try assumption. lia.
    - right. exists A, l0, B. rewrite <- L in H1.
      repeat split; try assumption. lia. }
  destruct (text_eqb (strip l) []); [apply Hstep|].
  destruct (startswith (strip l) (str "import")); [|discriminate].
  destruct (startswith (strip l) (str "import (")) eqn:Hblock.
  - cbn [import_start import_end scan_lines]. intros _ He.
    destruct (find_close_inv _ _ _ He) as [body [close [post [-> [-> _]]]]].
    left. exists (done ++ l :: body), (close :: post).
    rewrite <- !app_assoc. cbn [app].
    rewrite !length_app. cbn [length].
    repeat split; lia.
  - destruct (startswith (strip l) (str "import ")) eqn:Hsingle; [|apply Hstep].
    cbn [import_start import_end scan_lines]. intros _ He.
    right. exists done, l, rest. inversion He.
    repeat split; [lia | exact Hsingle |].
    rewrite (list_set_app done rest l (str "import (") (length done) eq_refl).
    change (done ++ str "import (" :: rest)
      with (done ++ [str "import ("] ++ rest).
    rewrite app_assoc.
    rewrite (list_insert_app (done ++ [str "import ("]) rest)
      by (rewrite length_app; cbn [length]; lia).
    change ((done ++ [str "import ("]) ++ (tab :: skipn 7 (strip l)) :: rest)
      with ((done ++ [str "import ("]) ++ [tab :: skipn 7 (strip l)] ++ rest).
    rewrite app_assoc.
    rewrite (list_insert_app ((done ++ [str "import ("]) ++ [_]) rest)
      by (rewrite !length_app; cbn [length]; lia).
    rewrite <- !app_assoc. reflexivity.
Qed.

(** The cases of [add_symbol_import] on a text with a header. *)
Lemma add_symbol_import_cases (t t1 : text) :
  add_symbol_import t = Ok t1 ->
  exists p,
    find_package (split_lines t) 0 = Some p
    /\ (t1 = t
        \/ (exists A B,
               split_lines t = A ++ B /\ length A = S p
               /\ t1 = join_lines (A ++ [] :: import_statement :: [] :: B))
        \/ (exists A B,
               split_lines t = A ++ B /\ S p < length A
               /\ t1 = join_lines (A ++ import_entry :: B))
        \/ (exists A l B,
               split_lines t = A ++ l :: B /\ p < length A
               /\ startswith (strip l) (str "import ") = true
               /\ t1 = join_lines
                         (A ++ str "import (" :: (tab :: skipn 7 (strip l))
                            :: import_entry :: str ")" :: B))).
Proof.
  unfold add_symbol_import. intros Hadd.
  destruct (find_package (split_lines t) 0) as [p|] eqn:Hp; [|discriminate].
  exists p. split; [reflexivity|].
  pose proof (find_package_bound _ _ _ Hp) as Hb. cbn [Nat.add] in Hb.
  set (lines := split_lines t) in *.
  set (done := firstn (p + 1) lines).
  set (rest := skipn (p + 1) lines) in *.
  assert (El : lines = done ++ rest) by (symmetry; apply firstn_skipn).
  assert (E0 : split_lines t = done ++ rest) by exact El.
  assert (Ld : length done = p + 1).
  { unfold done. rewrite length_firstn. lia. }
  clearbody done rest. unfold lines in Hp. clearbody lines. subst lines.
  revert Hadd. rewrite <- Ld.
  set (sc := scan_imports (done ++ rest) (length done) rest false).
  destruct (has_imports sc) eqn:Hhas; cbn [negb].
  - destruct (import_start sc) as [s|] eqn:Hs;
      [destruct (import_end sc) as [e|] eqn:He|].
    + intros H. inversion H as [E]. clear H.
      destruct (scan_imports_found done rest false s e Hs He)
        as [[A [B [E1 [H1 [H2 H3]]]]]|[A [l0 [B [E1 [H1 [H2 [H3 H4]]]]]]]];
        fold sc in H3 || fold sc in H4.
      * right; right; left. exists A, B.
        repeat split; [exact E1 | lia |].
        rewrite H3, E1, H2. rewrite list_insert_app by reflexivity.
        reflexivity.
      * right; right; right. exists A, l0, B.
        repeat split; [exact E1 | lia | exact H2 |].
        rewrite H4, H3.
        replace (A ++ str "import (" :: (tab :: skipn 7 (strip l0)) :: str ")" :: B)
          with ((A ++ [str "import ("; tab :: skipn 7 (strip l0)]) ++ str ")" :: B)
          by (rewrite <- app_assoc; reflexivity).
        rewrite list_insert_app
          by (rewrite length_app; cbn [length]; lia).
        rewrite <- app_assoc. reflexivity.
    + intros H. inversion H as [E]. left.
      unfold sc. rewrite scan_unchanged by (right; exact He).
      rewrite <- E0. apply join_split.
    + intros H. inversion H as [E]. left.
      unfold sc. rewrite scan_unchanged by (left; exact Hs).
      rewrite <- E0. apply join_split.
  - intros H. inversion H as [E]. clear H.
    right; left. exists done, rest.
    repeat split; [lia |].
    assert (Hsc : scan_lines sc = done ++ rest).
    { unfold sc. apply scan_unchanged.
      destruct (import_start (scan_imports (done ++ rest) (length done) rest false))
        as [s|] eqn:Hs; [|left; reflexivity].
      apply scan_imports_start_has in Hs. fold sc in Hs.
      rewrite Hs in Hhas. discriminate Hhas. }
    rewrite Hsc.
    rewrite (list_insert_app done rest) by lia.
    change (done ++ [] :: rest) with (done ++ [[]] ++ rest).
    rewrite app_assoc.
    rewrite (list_insert_app (done ++ [[]]) rest)
      by (rewrite length_app; cbn [length]; lia).
    change ((done ++ [[]]) ++ import_statement :: rest)
      with ((done ++ [[]]) ++ [import_statement] ++ rest).
    rewrite app_assoc.
    rewrite (list_insert_app ((done ++ [[]]) ++ [import_statement]) rest)
      by (rewrite !length_app; cbn [length]; lia).
    rewrite <- !app_assoc. reflexivity.
Qed.

(** Everything [add_symbol_import] can do to a text with a header at
    line [p]: return it as it is; put an empty line, the single-form
    import and an empty line right after the header; put the entry of the
    symbol package in front of a line after the header; or replace one
    line after the header, a single-form import, by a grouped block that
    holds its entry and the entry of the symbol package.  All other lines
    stay, in their order. *)
Theorem add_import_shapes (t t1 : text) :
  add_symbol_import t = Ok t1 ->
  exists p,
    find_package (split_lines t) 0 = Some p
    /\ (t1 = t
        \/ (exists A B,
               split_lines t = A ++ B /\ length A = S p
               /\ t1 = join_lines (A ++ [] :: import_statement :: [] :: B))
        \/ (exists A B,
               split_lines t = A ++ B /\ S p < length A
               /\ t1 = join_lines (A ++ import_entry :: B))
        \/ (exists A l B,
               split_lines t = A ++ l :: B /\ p < length A
               /\ startswith (strip l) (str "import ") = true
               /\ t1 = join_lines
                         (A ++ str "import (" :: (tab :: skipn 7 (strip l))
                            :: import_entry :: str ")" :: B))).
Proof. apply add_symbol_import_cases. Qed.

(** ** The header and the lines stay *)






(** ** The declaration converter: when it changes a text, and by how much *)

Lemma const_to_var_length (prev : option ascii) (s : text) :
  length (const_to_var_at prev s) + count_openers prev s <= length s.
Proof.
  pattern prev, s, (const_to_var_at prev s).
  apply const_to_var_ind; clear prev s.
  - intros prev. cbn [length count_openers]. lia.
  - intros prev x t E IH. cbn [count_openers length]. rewrite E. lia.
  - intros prev w r Hp Hw IH.
    rewrite count_openers_opener by assumption.
    rewrite !length_app. cbn [length].
    change (length var_opener) with 5. change (length (str "const")) with 5.
    lia.
Qed.

Lemma split_lines_length_cons (x : ascii) (s : text) :
  length (split_lines (x :: s))
  = (if Ascii.eqb x newline then 1 else 0) + length (split_lines s).
Proof.
  cbn [split_lines]. destruct (Ascii.eqb x newline); [reflexivity|].
  destruct (split_lines_cons s) as [l [ls ->]]. reflexivity.
Qed.

Lemma split_lines_length_app (a s : text) :
  length (split_lines s) <= length (split_lines (a ++ s)).
Proof.
  induction a as [|x a IH]; cbn [app]; [lia|].
  rewrite split_lines_length_cons. lia.
Qed.

Lemma split_lines_length_one (a s : text) :
  one_line a = true ->
  length (split_lines (a ++ s)) = length (split_lines s).
Proof.
  unfold one_line. induction a as [|x a IH]; cbn [app forallb]; [reflexivity|].
  intros H. apply andb_true_iff in H as [Hx Ha]. apply negb_true_iff in Hx.
  rewrite split_lines_length_cons, Hx, IH by assumption. reflexivity.
Qed.

Lemma const_to_var_lines (prev : option ascii) (s : text) :
  length (split_lines (const_to_var_at prev s)) <= length (split_lines s).
Proof.
  pattern prev, s, (const_to_var_at prev s).
  apply const_to_var_ind; clear prev s.
  - intros prev. lia.
  - intros prev x t E IH. rewrite !split_lines_length_cons. lia.
  - intros prev w r Hp Hw IH.
    rewrite (split_lines_length_one var_opener) by reflexivity.
    rewrite (split_lines_length_one (str "const")) by reflexivity.
    pose proof (split_lines_length_app (w ++ ["("%char]) r) as H.
    rewrite <- app_assoc in H. cbn [app] in H. lia.
Qed.

(** The declaration converter returns a text as it is exactly when the
    text holds no opener of a constant block. *)
Theorem const_to_var_unchanged_iff (content : text) :
  convert_const_to_var content = content <-> count_openers None content = 0.
Proof.
  split.
  - intros H. rewrite <- H. apply (const_to_var_no_opener None content).
  - apply (const_to_var_fixed None content).
Qed.

(** The declaration converter never makes a text longer or adds a line:
    the result is shorter by one character at least for each opener, and
    a line break between [const] and the parenthesis is taken out with
    the opener. *)
Theorem const_to_var_shrinks (content : text) :
  length (convert_const_to_var content) + count_openers None content
  <= length content
  /\ length (split_lines (convert_const_to_var content))
     <= length (split_lines content).
Proof.
  split.
  - apply (const_to_var_length None content).
  - apply (const_to_var_lines None content).
Qed.

(** ** The literal rewriter: lines stay lines *)

Lemma map_convert_one_line (ls : list text) :
  Forall (fun l => one_line l = true) ls ->
  Forall (fun l => one_line l = true) (map convert_line ls).
Proof.
  intros H. induction H as [|l ls Hl _ IH]; cbn [map]; constructor;
    [|exact IH].
  apply (rewrites_one_line l); [apply convert_line_rewrites | exact Hl].
Qed.

Lemma convert_string_lines (content : text) :
  split_lines (convert_string_to_symbol content)
  = map convert_line (split_lines content).
Proof.
  unfold convert_string_to_symbol. apply split_join.
  - destruct (split_lines_cons content) as [l [ls ->]]. discriminate.
  - apply map_convert_one_line, split_lines_one_line.
Qed.

(** The literal rewriter works line by line: the lines of its result are
    the lines of the text, each put through the body of the loop.  No
    line is added, removed, joined or split. *)
Theorem string_to_symbol_linewise (content : text) :
  split_lines (convert_string_to_symbol content)
  = map convert_line (split_lines content)
  /\ length (split_lines (convert_string_to_symbol content))
     = length (split_lines content).
Proof.
  split; [apply convert_string_lines|].
  rewrite convert_string_lines. apply length_map.
Qed.

Lemma convert_line_fixed_iff (line : text) :
  convert_line line = line
  <-> contains factory_token line = true
      \/ search guard_pattern None line = false.
Proof.
  unfold convert_line.
  destruct (contains factory_token line) eqn:C; cbn [negb andb].
  - split; [intros _; left; reflexivity | reflexivity].
  - destruct (search guard_pattern None line) eqn:G.
    + split.
      * intros H. exfalso.
        pose proof (rewrite_has_token None line G) as T.
        change (rewrite_at None line) with (sub token_pattern replace_func line) in T.
        rewrite H, C in T. discriminate T.
      * intros [H|H]; discriminate H.
    + split; [intros _; right; reflexivity | reflexivity].
Qed.

Lemma map_fixed_iff {A : Type} (f : A -> A) (ls : list A) :
  map f ls = ls <-> Forall (fun l => f l = l) ls.
Proof.
  induction ls as [|l ls IH]; cbn [map].
  - split; [constructor | reflexivity].
  - split.
    + intros H. inversion H as [[H1 H2]]. rewrite H1, H2.
      constructor; [exact H1 | apply IH; exact H2].
    + intros H. inversion H as [|? ? H1 H2]; subst.
      rewrite H1. f_equal. apply IH. exact H2.
Qed.

(** The literal rewriter leaves a line as it is exactly when the guard
    of the loop fails on it: the line holds the factory token, or the
    search for an assignment finds nothing.  So a line on which the guard
    holds is really changed, and a text is returned as it is exactly when
    the guard fails on each of its lines. *)
Theorem string_to_symbol_unchanged_iff (content : text) :
  (forall line,
      convert_line line = line
      <-> contains factory_token line = true
          \/ search guard_pattern None line = false)
  /\ (convert_string_to_symbol content = content
      <-> Forall (fun line => contains factory_token line = true
                              \/ search guard_pattern None line = false)
            (split_lines content)).
Proof.
  split; [exact convert_line_fixed_iff|].
  split.
  - intros H. apply (f_equal split_lines) in H.
    rewrite convert_string_lines in H. apply map_fixed_iff in H.
    apply (Forall_impl _ (fun l Hl => proj1 (convert_line_fixed_iff l) Hl) H).
  - intros H. unfold convert_string_to_symbol.
    rewrite (proj2 (map_fixed_iff convert_line (split_lines content))).
    + apply join_split.
    + apply (Forall_impl _ (fun l Hl => proj2 (convert_line_fixed_iff l) Hl) H).
Qed.

(** ** An assignment with text around it on its line *)

Lemma no_quote_no_match (prev : option ascii) (s : text) :
  forallb notquote s = true -> match_items token_pattern prev s = None.
Proof.
  intros H. destruct (match_items token_pattern prev s) as [[segs r]|] eqn:E;
    [|reflexivity].
  exfalso.
  destruct (match_token_inv _ _ _ _ E)
    as [indent [name [w1 [w2 [rest [_ [-> _]]]]]]].
  assert (HI : In dquote (assignment indent name w1 w2 rest ++ r)).
  { unfold assignment, govel_literal, quoted. rewrite !in_app_iff.
    left; do 5 right; left; reflexivity. }
  apply (proj1 (forallb_forall _ _) H) in HI. discriminate HI.
Qed.

Lemma rewrite_at_no_quote (prev : option ascii) (s : text) :
  forallb notquote s = true -> rewrite_at prev s = s.
Proof.
  revert prev. induction s as [|x s IH]; intros prev H; [reflexivity|].
  rewrite rewrite_at_eq, (no_quote_no_match prev (x :: s) H).
  cbn [forallb] in H. apply andb_true_iff in H as [_ H].
  rewrite (IH (Some x) H). reflexivity.
Qed.

(** Where an assignment stands in a text that has no equals sign before
    it, a match that starts earlier ends with the same literal. *)
Lemma assignment_unique (b indent name w1 w2 rest after : text)
  (indent' name' w1' w2' rest' r : text) :
  forallb (fun x => negb (Ascii.eqb "="%char x)) b = true ->
  eligible indent name w1 w2 rest -> eligible indent' name' w1' w2' rest' ->
  b ++ assignment indent name w1 w2 rest ++ after
  = assignment indent' name' w1' w2' rest' ++ r ->
  b ++ indent ++ name = indent' ++ name' /\ rest' = rest /\ r = after.
Proof.
  intros Hb [Hi [Hne [Hn [Hw1 [Hw2 [Hre Hr]]]]]]
    [Hi' [Hne' [Hn' [Hw1' [Hw2' [Hre' Hr']]]]]] E.
  set (noeq := fun x => negb (Ascii.eqb "="%char x)) in *.
  assert (Hsp : forall w, forallb isspace w = true -> forallb noeq w = true).
  { intros w. apply forallb_impl. intros x Hx. unfold noeq.
    rewrite (space_not_equals x Hx). reflexivity. }
  assert (Hup : forall w, forallb isupper_us w = true -> forallb noeq w = true).
  { intros w. apply forallb_impl. intros x Hx. unfold noeq.
    rewrite (upper_not_equals x Hx). reflexivity. }
  assert (E1 : (b ++ indent ++ name ++ w1)
                 ++ "="%char :: w2 ++ govel_literal rest ++ after
               = (indent' ++ name' ++ w1')
                 ++ "="%char :: w2' ++ govel_literal rest' ++ r).
  { revert E. unfold assignment. cbn [str list_ascii_of_string].
    rewrite <- !app_assoc. cbn [app]. rewrite <- ?app_assoc.
    intros E. exact E. }
  apply (span_unique noeq) in E1 as [EP [_ ET]];
    [| rewrite !forallb_app, Hb, (Hsp _ Hi), (Hup _ Hn), (Hsp _ Hw1); reflexivity
     | rewrite !forallb_app, (Hsp _ Hi'), (Hup _ Hn'), (Hsp _ Hw1'); reflexivity
     | reflexivity | reflexivity].
  unfold govel_literal, quoted in ET. cbn [app] in ET.
  apply (span_unique isspace) in ET as [_ [_ ET]];
    [| assumption | assumption | reflexivity | reflexivity].
  rewrite <- !app_assoc in ET. apply app_inv_head in ET. cbn [app] in ET.
  apply (span_unique notquote) in ET as [ER [_ EA]];
    [| assumption | assumption | reflexivity | reflexivity].
  destruct (exists_last Hne) as [n0 [c ->]].
  destruct (exists_last Hne') as [n0' [c' ->]].
  rewrite forallb_app in Hn, Hn'. cbn [forallb] in Hn, Hn'.
  apply andb_true_iff in Hn as [_ Hc]. apply andb_true_iff in Hn' as [_ Hc'].
  rewrite andb_true_r in Hc, Hc'.
  assert (E2 : (b ++ indent ++ n0) ++ c :: w1 = (indent' ++ n0') ++ c' :: w1').
  { rewrite <- !app_assoc. rewrite <- !app_assoc in EP. cbn [app] in EP.
    exact EP. }
  apply (span_unique_end isspace) in E2 as [E2 [Ec _]];
    [| assumption | assumption | apply upper_not_space; assumption
     | apply upper_not_space; assumption].
  repeat split; [|congruence|congruence].
  rewrite !app_assoc. rewrite <- (app_assoc b), E2, Ec. reflexivity.
Qed.

Lemma rewrite_at_context (prev : option ascii)
  (b indent name w1 w2 rest after : text) :
  forallb (fun x => negb (Ascii.eqb "="%char x)) b = true ->
  eligible indent name w1 w2 rest ->
  forallb notquote after = true ->
  rewrite_at prev (b ++ assignment indent name w1 w2 rest ++ after)
  = b ++ rewritten indent name rest ++ after.
Proof.
  intros Hb El Ha. revert prev.
  assert (Hhere : forall prev (b0 : text),
             forallb (fun x => negb (Ascii.eqb "="%char x)) b0 = true ->
             match_items token_pattern prev
               (b0 ++ assignment indent name w1 w2 rest ++ after) <> None ->
             rewrite_at prev (b0 ++ assignment indent name w1 w2 rest ++ after)
             = b0 ++ rewritten indent name rest ++ after).
  { intros prev b0 Hb0 Hm. rewrite rewrite_at_eq.
    destruct (match_items token_pattern prev _) as [[segs r]|] eqn:E;
      [|congruence].
    destruct (match_token_inv _ _ _ _ E)
      as [indent' [name' [w1' [w2' [rest' [El' [Es ->]]]]]]].
    destruct (assignment_unique _ _ _ _ _ _ _ _ _ _ _ _ _ Hb0 El El' Es)
      as [E1 [-> ->]].
    rewrite replace_func_segs, (rewrite_at_no_quote _ after Ha).
    unfold rewritten. rewrite !app_assoc. rewrite <- (app_assoc b0), E1.
    reflexivity. }
  induction b as [|x b IH]; intros prev.
  - apply (Hhere prev [] eq_refl). cbn [app].
    rewrite (match_token prev _ _ _ _ _ after El). discriminate.
  - destruct (match_items token_pattern prev
                ((x :: b) ++ assignment indent name w1 w2 rest ++ after))
      as [[segs r]|] eqn:E.
    + apply (Hhere prev (x :: b) Hb). rewrite E. discriminate.
    + rewrite rewrite_at_eq, E. cbn [app]. f_equal. apply IH.
      cbn [forallb] in Hb. apply andb_true_iff in Hb as [_ Hb]. exact Hb.
Qed.

(** The text around an eligible assignment on its line stays: on a
    line that does not hold the factory token, with no equals sign
    before the assignment and no double quote after it (a comma, a
    comment), the assignment is rewritten and what stands before and
    after is kept as it is.  A line that holds the factory token, also
    in a comment, is left as it is by the guard of the loop. *)
Theorem rewrite_keeps_surroundings
  (before indent name w1 w2 rest after : text) :
  eligible indent name w1 w2 rest ->
  forallb (fun x => negb (Ascii.eqb "="%char x)) before = true ->
  forallb notquote after = true ->
  contains factory_token
    (before ++ assignment indent name w1 w2 rest ++ after) = false ->
  convert_line (before ++ assignment indent name w1 w2 rest ++ after)
  = before ++ rewritten indent name rest ++ after.
Proof.
  intros El Hb Ha Hf. unfold convert_line. rewrite Hf. cbn [negb andb].
  replace (search guard_pattern None
             (before ++ assignment indent name w1 w2 rest ++ after)) with true.
  - apply (rewrite_at_context None); assumption.
  - symmetry. rewrite assignment_indent, <- (app_assoc indent), app_assoc.
    apply search_app.
    rewrite (match_guard _ name w1 w2 rest after (eligible_no_indent _ _ _ _ _ El)).
    discriminate.
Qed.

(** ** A literal with nothing after the prefix *)

Lemma no_quote_in (s : text) : forallb notquote s = true -> ~ In dquote s.
Proof.
  intros H HI. apply (proj1 (forallb_forall _ _) H) in HI. discriminate HI.
Qed.

(** The literal that is the prefix alone is not rewritten: the pattern
    asks for one character at least after [govel.].  A line whose only
    double quotes are those of such a literal is left as it is. *)
Theorem empty_literal_unchanged (before after : text) :
  forallb notquote before = true -> forallb notquote after = true ->
  convert_line (before ++ quoted (str "govel.") ++ after)
  = before ++ quoted (str "govel.") ++ after.
Proof.
  intros Hb Ha. apply convert_line_fixed_iff. right.
  destruct (search guard_pattern None _) eqn:S; [|reflexivity]. exfalso.
  apply search_inv in S as [a [b [Eab Hm]]].
  apply guard_then_token in Hm.
  destruct (match_items token_pattern (prev_after None a) b) as [[segs r]|] eqn:E;
    [|congruence].
  destruct (match_token_inv _ _ _ _ E)
    as [indent [name [w1 [w2 [rest [El [-> _]]]]]]].
  destruct El as [_ [_ [_ [_ [_ [Hre Hr]]]]]].
  destruct rest as [|g0 rest]; [congruence|].
  cbn [forallb] in Hr. apply andb_true_iff in Hr as [Hg Hr].
  assert (E1 : before ++ dquote :: (str "govel." ++ dquote :: after)
               = (a ++ indent ++ name ++ w1 ++ "="%char :: w2)
                 ++ dquote :: (str "govel." ++ g0 :: rest ++ dquote :: r)).
  { revert Eab. unfold assignment, govel_literal, quoted.
    cbn [app str list_ascii_of_string].
    do 3 (rewrite <- ?app_assoc; cbn [app]).
    intros E0. exact E0. }
  assert (HT : In dquote (str "govel." ++ g0 :: rest ++ dquote :: r)).
  { apply in_or_app. right. right. apply in_or_app. right. left. reflexivity. }
  apply first_quote in E1; [|exact Hb].
  destruct E1 as [[_ E1]|[mid E1]].
  - apply app_inv_head in E1. inversion E1. subst g0. discriminate Hg.
  - apply first_quote in E1; [|reflexivity].
    destruct E1 as [[_ E1]|[mid' E1]].
    + apply (no_quote_in after Ha). rewrite <- E1. exact HT.
    + apply (no_quote_in after Ha). rewrite E1.
      apply in_or_app. right. left. reflexivity.
Qed.

(** ** When the transform raises *)

(** The transform raises exactly when the text holds no quoted path and
    no header, and then it raises the error of the missing header;
    otherwise it returns a text.  A text that holds the quoted path is
    transformed without a look at its header. *)
Theorem transform_raises_iff (t : text) :
  (transform t = Raise no_package
   <-> has_symbol_import t = false /\ no_header (split_lines t))
  /\ (forall e, transform t = Raise e -> e = no_package)
  /\ (has_symbol_import t = true ->
      transform t = Ok (convert_string_to_symbol (convert_const_to_var t))).
Proof.
  split; [|split].
  - unfold transform. destruct (has_symbol_import t); cbn [negb bind].
    + split; [discriminate | intros [H _]; discriminate H].
    + destruct (add_symbol_import t) as [t1|e] eqn:E; cbn [bind].
      * split; [discriminate|]. intros [_ H].
        apply add_symbol_import_raises in H. congruence.
      * pose proof (add_symbol_import_only_raises t e E) as ->.
        split; [|reflexivity]. intros _. split; [reflexivity|].
        apply add_symbol_import_raises. exact E.
  - intros e. unfold transform.
    destruct (has_symbol_import t); cbn [negb bind]; [discriminate|].
    destruct (add_symbol_import t) as [t1|e'] eqn:E; cbn [bind]; [discriminate|].
    intros H. inversion H. subst e'.
    apply (add_symbol_import_only_raises t e E).
  - apply transform_with_import.
Qed.

(** ** The orchestrator and the file system *)

Lemma update_tokens_file_other (fs : filesystem) (path q : string) :
  q <> path -> fst (fst (update_tokens_file fs path)) q = fs q.
Proof.
  intros Hq. unfold update_tokens_file, read_file.
  destruct (fs path) as [t|]; cbn [bind fst]; [|reflexivity].
  destruct (transform t) as [t'|e]; cbn [bind fst]; [|reflexivity].
  destruct (negb (text_eqb t' t)); cbn [fst]; [|reflexivity].
  unfold write_file. apply String.eqb_neq in Hq. rewrite Hq. reflexivity.
Qed.

Lemma update_tokens_file_stored (fs : filesystem) (path : string) (t t' : text) :
  fs path = Some t -> transform t = Ok t' ->
  fst (fst (update_tokens_file fs path)) path = Some t'.
Proof.
  intros Hr Ht. unfold update_tokens_file, read_file.
  rewrite Hr. cbn [bind]. rewrite Ht. cbn [bind].
  destruct (text_eqb t' t) eqn:E; cbn [negb fst].
  - apply text_eqb_eq in E. subst t'. exact Hr.
  - unfold write_file. rewrite String.eqb_refl. reflexivity.
Qed.

Lemma update_tokens_file_failed (fs : filesystem) (path : string) :
  fs path = None \/ (exists t e, fs path = Some t /\ transform t = Raise e) ->
  exists e, update_tokens_file fs path = (fs, [ErrorProcessing path e], false).
Proof.
  unfold update_tokens_file, read_file.
  intros [H|[t [e [H1 H2]]]].
  - rewrite H. cbn [bind]. eexists. reflexivity.
  - rewrite H1. cbn [bind]. rewrite H2. cbn [bind]. eexists. reflexivity.
Qed.


Lemma update_tokens_file_missing (fs : filesystem) (path : string) :
  fs path = None -> fst (fst (update_tokens_file fs path)) = fs.
Proof.
  intros H. unfold update_tokens_file, read_file. rewrite H. reflexivity.
Qed.

Lemma update_tokens_file_raised (fs : filesystem) (path : string) (t : text)
  (e : exn) :
  fs path = Some t -> transform t = Raise e ->
  fst (fst (update_tokens_file fs path)) = fs.
Proof.
  intros H1 H2. unfold update_tokens_file, read_file.
  rewrite H1. cbn [bind]. rewrite H2. reflexivity.
Qed.

Lemma update_all_cons (fs : filesystem) (path : string) (others : list string) :
  update_all fs (path :: others)
  = (fst (fst (update_all (fst (fst (update_tokens_file fs path))) others)),
     Processing path :: snd (fst (update_tokens_file fs path))
       ++ (if snd (update_tokens_file fs path) then Updated else NoChangesNeeded)
       :: snd (fst (update_all (fst (fst (update_tokens_file fs path))) others)),
     (if snd (update_tokens_file fs path) then 1 else 0)
     + snd (update_all (fst (fst (update_tokens_file fs path))) others)).
Proof.
  cbn [update_all].
  destruct (update_tokens_file fs path) as [[fs1 printed] modified].
  cbn [fst snd].
  destruct (update_all fs1 others) as [[fs2 printed'] n]. reflexivity.
Qed.

Lemma update_all_other (fs : filesystem) (files : list string) (q : string) :
  ~ In q files -> fst (fst (update_all fs files)) q = fs q.
Proof.
  revert fs. induction files as [|f files IH]; intros fs Hq; [reflexivity|].
  rewrite update_all_cons. cbn [fst].
  rewrite IH by (intros H; apply Hq; right; exact H).
  apply update_tokens_file_other. intros ->. apply Hq. left. reflexivity.
Qed.

Lemma update_tokens_file_same (fs : filesystem) (path q : string) :
  fs q = None \/ (exists t e, fs q = Some t /\ transform t = Raise e) ->
  fst (fst (update_tokens_file fs path)) q = fs q.
Proof.
  intros H. destruct (String.eqb_spec q path) as [->|Hne].
  - destruct H as [H|[t [e [H1 H2]]]].
    + rewrite (update_tokens_file_missing fs path H). reflexivity.
    + rewrite (update_tokens_file_raised fs path t e H1 H2). reflexivity.
  - apply update_tokens_file_other. exact Hne.
Qed.

Lemma update_all_same (fs : filesystem) (files : list string) (q : string) :
  fs q = None \/ (exists t e, fs q = Some t /\ transform t = Raise e) ->
  fst (fst (update_all fs files)) q = fs q.
Proof.
  revert fs. induction files as [|f files IH]; intros fs H; [reflexivity|].
  rewrite update_all_cons. cbn [fst].
  pose proof (update_tokens_file_same fs f q H) as E.
  rewrite IH; [exact E|]. rewrite E. exact H.
Qed.

Lemma update_all_stored (fs : filesystem) (files : list string) (p : string)
  (t t' : text) :
  NoDup files -> In p files -> fs p = Some t -> transform t = Ok t' ->
  fst (fst (update_all fs files)) p = Some t'.
Proof.
  revert fs. induction files as [|f files IH]; intros fs Hnd Hin Hr Ht;
    [contradiction|].
  rewrite update_all_cons. cbn [fst].
  inversion Hnd as [|? ? Hnotin Hnd']; subst.
  destruct Hin as [->|Hin].
  - rewrite update_all_other by exact Hnotin.
    apply (update_tokens_file_stored fs p t t' Hr Ht).
  - apply IH; [exact Hnd' | exact Hin | | exact Ht].
    rewrite update_tokens_file_other; [exact Hr|].
    intros ->. contradiction.
Qed.

Lemma main_files (fs : filesystem) (files : list string) :
  fst (main fs files) = fst (fst (update_all fs files)).
Proof.
  destruct files as [|f files]; [reflexivity|].
  unfold main. destruct (update_all fs (f :: files)) as [[fs' printed] n].
  reflexivity.
Qed.

(** What a run of [main] does to the files: a path that is not listed
    keeps what it holds; a missing file stays missing; a file on which
    the transform raises keeps its text; and, the listed paths being
    distinct, a listed file on which the transform returns a text holds
    that text afterwards. *)
Theorem main_effect_on_files (fs : filesystem) (tokens_files : list string) :
  (forall q, ~ In q tokens_files -> fst (main fs tokens_files) q = fs q)
  /\ (forall q, fs q = None -> fst (main fs tokens_files) q = None)
  /\ (forall q t e, fs q = Some t -> transform t = Raise e ->
        fst (main fs tokens_files) q = Some t)
  /\ (forall p t t', NoDup tokens_files -> In p tokens_files ->
        fs p = Some t -> transform t = Ok t' ->
        fst (main fs tokens_files) p = Some t').
Proof.
  rewrite main_files. repeat split.
  - intros q. apply update_all_other.
  - intros q H. rewrite update_all_same; [exact H | left; exact H].
  - intros q t e H1 H2. rewrite update_all_same; [exact H1|].
    right. exists t, e. split; assumption.
  - intros p t t'. apply update_all_stored.
Qed.

(** ** What a run prints *)


(** ** What a run prints *)

Lemma update_tokens_file_prints (fs : filesystem) (path : string) :
  snd (fst (update_tokens_file fs path)) = []
  \/ exists e, update_tokens_file fs path = (fs, [ErrorProcessing path e], false).
Proof.
  unfold update_tokens_file.
  destruct (original_content <- read_file fs path ;;
            content <- transform original_content ;;
            Ok (original_content, content)) as [[t t']|e].
  - left. destruct (negb (text_eqb t' t)); reflexivity.
  - right. exists e. reflexivity.
Qed.

Lemma update_all_blocks (fs : filesystem) (files : list string) :
  exists blocks,
    snd (fst (update_all fs files)) = concat blocks
    /\ Forall2 report_block files blocks
    /\ snd (update_all fs files) = length (filter is_updated (concat blocks)).
Proof.
  revert fs. induction files as [|f files IH]; intros fs.
  - exists []. repeat split. constructor.
  - rewrite update_all_cons. cbn [fst snd].
    destruct (IH (fst (fst (update_tokens_file fs f)))) as [blocks [E1 [F2 En]]].
    destruct (update_tokens_file_prints fs f) as [E|[e E]].
    + exists ([Processing f;
               if snd (update_tokens_file fs f) then Updated else NoChangesNeeded]
              :: blocks).
      rewrite E, E1, En. cbn [app concat]. split; [reflexivity|]. split.
      * constructor; [|exact F2]. unfold report_block.
        destruct (snd (update_tokens_file fs f)); [left | right; left];
          reflexivity.
      * destruct (snd (update_tokens_file fs f));
          cbn [filter is_updated length]; reflexivity.
    + rewrite E in E1, En |- *. cbn [fst snd] in *.
      exists ([Processing f; ErrorProcessing f e; NoChangesNeeded] :: blocks).
      rewrite E1, En. cbn [app concat]. split; [reflexivity|]. split.
      * constructor; [|exact F2]. right. right. exists e. reflexivity.
      * cbn [filter is_updated length]. reflexivity.
Qed.

(** What [main] prints for the files it is given, when there are some:
    the number found, the paths, the line that announces the updates,
    then one block for each file, in the order given, and the summary.
    The block of a file is its [Processing] line followed by [Updated],
    or by [NoChangesNeeded], or by the error line of the file and
    [NoChangesNeeded].  The number of updates in the summary is the
    number of [Updated] lines, so a file with an error line is not
    counted. *)
Theorem main_report (fs : filesystem) (tokens_files : list string) :
  tokens_files <> [] ->
  exists blocks updated_count,
    snd (main fs tokens_files)
    = Found (length tokens_files) :: map Listed tokens_files
        ++ UpdatingFiles :: concat blocks
        ++ [Completed updated_count (length tokens_files)]
    /\ Forall2 report_block tokens_files blocks
    /\ updated_count = length (filter is_updated (concat blocks)).
Proof.
  intros Hne.
  destruct (update_all_blocks fs tokens_files) as [blocks [E1 [F2 En]]].
  exists blocks, (snd (update_all fs tokens_files)).
  split; [|split; [exact F2 | exact En]].
  rewrite <- E1.
  destruct tokens_files as [|f files]; [congruence|].
  unfold main. destruct (update_all fs (f :: files)) as [[fs' printed] n].
  reflexivity.
Qed.

(** ** A second run *)

(** A text is settled when the transform returns it as it is or
    raises. *)
Lemma update_tokens_file_settled (fs : filesystem) (path : string) :
  (forall t, fs path = Some t ->
             transform t = Ok t \/ exists e, transform t = Raise e) ->
  fst (fst (update_tokens_file fs path)) = fs
  /\ snd (update_tokens_file fs path) = false.
Proof.
  intros H. unfold update_tokens_file, read_file.
  destruct (fs path) as [t|]; cbn [bind]; [|split; reflexivity].
  destruct (H t eq_refl) as [E|[e E]]; rewrite E; cbn [bind].
  - rewrite text_eqb_refl. split; reflexivity.
  - split; reflexivity.
Qed.

Lemma update_all_settled (fs : filesystem) (files : list string) :
  (forall p t, In p files -> fs p = Some t ->
               transform t = Ok t \/ exists e, transform t = Raise e) ->
  fst (fst (update_all fs files)) = fs /\ snd (update_all fs files) = 0.
Proof.
  induction files as [|f files IH]; intros H; [split; reflexivity|].
  rewrite update_all_cons. cbn [fst snd].
  destruct (update_tokens_file_settled fs f) as [E1 E2].
  { intros t. apply H. left. reflexivity. }
  rewrite E1, E2.
  destruct IH as [H1 H2].
  { intros p t Hp. apply H. right. exact Hp. }
  rewrite H1, H2. split; reflexivity.
Qed.

(** After a run, a listed file holds a text the transform returned, or a
    text on which it raises. *)
Lemma update_all_outputs (fs : filesystem) (files : list string) (p : string)
  (t' : text) :
  In p files -> fst (fst (update_all fs files)) p = Some t' ->
  (exists t, transform t = Ok t') \/ (exists e, transform t' = Raise e).
Proof.
  revert fs. induction files as [|f files IH]; intros fs Hin Hp;
    [contradiction|].
  rewrite update_all_cons in Hp. cbn [fst] in Hp.
  destruct (in_dec string_dec p files) as [Hi|Hni].
  - apply (IH _ Hi Hp).
  - destruct Hin as [->|Hin]; [|contradiction].
    rewrite update_all_other in Hp by exact Hni.
    destruct (fs p) as [t|] eqn:Hr.
    + destruct (transform t) as [t1|e] eqn:Ht.
      * rewrite (update_tokens_file_stored fs p t t1 Hr Ht) in Hp.
        inversion Hp. subst t1. left. exists t. exact Ht.
      * rewrite (update_tokens_file_raised fs p t e Hr Ht) in Hp.
        rewrite Hr in Hp. inversion Hp. subst t'. right. exists e. exact Ht.
    + rewrite (update_tokens_file_missing fs p Hr) in Hp. congruence.
Qed.

(** A text the transform returned, to which the import step has nothing
    to add or on which it raises, is settled. *)
Lemma output_settled (t t' : text) :
  transform t = Ok t' ->
  has_symbol_import t' = true \/ add_symbol_import t' = Ok t'
  \/ no_header (split_lines t') ->
  transform t' = Ok t' \/ exists e, transform t' = Raise e.
Proof.
  intros Ht H.
  destruct (transform_inv t t' Ht) as [t1 [_ E]].
  assert (Hc : convert_string_to_symbol (convert_const_to_var t') = t').
  { rewrite E. apply content_steps_idempotent. }
  unfold transform.
  destruct (has_symbol_import t'); cbn [negb bind].
  - left. rewrite Hc. reflexivity.
  - destruct H as [H|[H|H]]; [discriminate H | |].
    + left. rewrite H. cbn [bind]. rewrite Hc. reflexivity.
    + right. apply add_symbol_import_raises in H. rewrite H.
      exists no_package. reflexivity.
Qed.

(** A second run over the same files: when, after the first run, the
    import step has nothing to add to any listed file (the file holds
    the quoted path, or the import manager returns it as it is, or it
    has no header), the second run changes no file and counts no
    update. *)
Theorem second_run_updates_nothing (fs : filesystem) (tokens_files : list string) :
  (forall p t', In p tokens_files ->
                fst (fst (update_all fs tokens_files)) p = Some t' ->
                has_symbol_import t' = true \/ add_symbol_import t' = Ok t'
                \/ no_header (split_lines t')) ->
  fst (fst (update_all (fst (fst (update_all fs tokens_files))) tokens_files))
  = fst (fst (update_all fs tokens_files))
  /\ snd (update_all (fst (fst (update_all fs tokens_files))) tokens_files) = 0.
Proof.
  intros H. apply update_all_settled. intros p t' Hin Hp.
  destruct (update_all_outputs fs tokens_files p t' Hin Hp) as [[t Ht]|He].
  - apply (output_settled t t' Ht). apply (H p t' Hin Hp).
  - right. exact He.
Qed.

(** A file without the quoted path to which the import manager adds the
    import: the first run writes it and reports an update, and a second
    run finds nothing to change, whatever else the file holds. *)
Theorem fresh_file_two_runs (fs : filesystem) (path : string) (t t1 : text) :
  fs path = Some t -> has_symbol_import t = false ->
  add_symbol_import t = Ok t1 -> t1 <> t ->
  snd (update_tokens_file fs path) = true
  /\ update_tokens_file (fst (fst (update_tokens_file fs path))) path
     = (fst (fst (update_tokens_file fs path)), [], false).
Proof.
  intros Hr Hno Hadd Hne.
  set (t' := convert_string_to_symbol (convert_const_to_var t1)).
  assert (Ht : transform t = Ok t').
  { unfold transform. rewrite Hno. cbn [negb]. rewrite Hadd. reflexivity. }
  assert (Hpath : contains quoted_path t = false).
  { unfold has_symbol_import in Hno. apply orb_false_iff in Hno. apply Hno. }
  assert (Hone : occurrences quoted_path t' = 1)
    by (apply (path_once_after_insert t t1 Hpath Hadd Hne)).
  assert (Hdiff : text_eqb t' t = false).
  { apply text_eqb_neq. intros E. rewrite E in Hone.
    rewrite (contains_none _ _ Hpath) in Hone. discriminate Hone. }
  assert (Hhas : has_symbol_import t' = true).
  { unfold has_symbol_import.
    destruct (contains quoted_path t') eqn:C; [apply orb_true_r|].
    rewrite (contains_none _ _ C) in Hone. discriminate Hone. }
  assert (Hfirst : update_tokens_file fs path = (write_file fs path t', [], true)).
  { unfold update_tokens_file, read_file. rewrite Hr. cbn [bind].
    rewrite Ht. cbn [bind]. rewrite Hdiff. reflexivity. }
  rewrite Hfirst. cbn [fst snd]. split; [reflexivity|].
  apply (update_unchanged _ path t').
  - unfold write_file. rewrite String.eqb_refl. reflexivity.
  - rewrite (transform_with_import t' Hhas). unfold t'.
    rewrite content_steps_idempotent. reflexivity.
Qed.

(** ** No opener is left after the transform *)

(** The text the transform returns holds no opener of a constant block:
    the converter removes them all, and neither the import that was put
    in before nor the rewrite of the literals after it brings one back. *)
Theorem transform_leaves_no_opener (t t' : text) :
  transform t = Ok t' -> count_openers None t' = 0.
Proof.
  intros Ht. destruct (transform_inv t t' Ht) as [t1 [_ ->]].
  apply (rewrites_no_opener (convert_const_to_var t1) _
           (convert_string_rewrites _) None None eq_refl).
  apply (const_to_var_no_opener None t1).
Qed.

(** ** A tokens file of the expected layout, end to end *)

Lemma plain_char_inv (x : ascii) :
  plain_char x = true ->
  Ascii.eqb "("%char x = false /\ Ascii.eqb dquote x = false
  /\ Ascii.eqb x newline = false.
Proof.
  unfold plain_char. intros H.
  apply andb_true_iff in H as [H H3]. apply andb_true_iff in H as [H1 H2].
  apply negb_true_iff in H1, H2, H3.
  rewrite (Ascii.eqb_sym "("%char x), (Ascii.eqb_sym dquote x). auto.
Qed.

Lemma inert_noparen (l : text) :
  inert l = true -> forallb (fun x => negb (Ascii.eqb "("%char x)) l = true.
Proof.
  apply forallb_impl. intros x H.
  destruct (plain_char_inv x H) as [-> _]. reflexivity.
Qed.

Lemma inert_noquote (l : text) : inert l = true -> forallb notquote l = true.
Proof.
  apply forallb_impl. intros x H. unfold notquote.
  destruct (plain_char_inv x H) as [_ [H2 _]].
  rewrite Ascii.eqb_sym, H2. reflexivity.
Qed.

Lemma inert_one_line (l : text) : inert l = true -> one_line l = true.
Proof.
  apply forallb_impl. intros x H.
  destruct (plain_char_inv x H) as [_ [_ ->]]. reflexivity.
Qed.

Lemma no_paren_no_opener (p : option ascii) (s : text) :
  forallb (fun x => negb (Ascii.eqb "("%char x)) s = true ->
  count_openers p s = 0.
Proof.
  revert p. induction s as [|x s IH]; intros p H; [reflexivity|].
  cbn [count_openers].
  destruct (opener_at p (x :: s)) as [r|] eqn:E.
  - exfalso. apply opener_at_inv in E as [_ [w [_ E]]].
    assert (HI : In "("%char (x :: s)).
    { rewrite E. apply in_or_app. right. apply in_or_app. right.
      left. reflexivity. }
    apply (proj1 (forallb_forall _ _) H) in HI. discriminate HI.
  - cbn [forallb] in H. apply andb_true_iff in H as [_ H].
    rewrite (IH _ H). reflexivity.
Qed.

Lemma opener_not_before (p : option ascii) (x : ascii) (A B : text) :
  forallb (fun x => negb (Ascii.eqb "("%char x)) (x :: A) = true ->
  opener_at p ((x :: A) ++ str "const (" ++ B) = None.
Proof.
  intros H.
  destruct (opener_at p ((x :: A) ++ str "const (" ++ B)) as [r|] eqn:E;
    [|reflexivity].
  exfalso. apply opener_at_inv in E as [_ [w [Hw E]]].
  assert (E1 : ((x :: A) ++ str "const ") ++ "("%char :: B
               = (str "const" ++ w) ++ "("%char :: r).
  { rewrite <- !app_assoc. exact E. }
  apply (span_unique (fun x => negb (Ascii.eqb "("%char x))) in E1 as [E1 _];
    [| rewrite forallb_app, H; reflexivity
     | rewrite forallb_app; cbn [str list_ascii_of_string forallb andb];
       apply forallb_impl with (f := isspace); [|exact Hw];
       intros y Hy; rewrite (space_not_paren y Hy); reflexivity
     | reflexivity | reflexivity].
  assert (E2 : ((x :: A) ++ str "cons") ++ "t"%char :: str " "
               = str "cons" ++ "t"%char :: w).
  { rewrite <- app_assoc. exact E1. }
  apply (span_unique_end isspace) in E2 as [E2 _];
    [| reflexivity | exact Hw | reflexivity | reflexivity].
  apply (f_equal (@length ascii)) in E2.
  rewrite length_app in E2. cbn [length str list_ascii_of_string] in E2. lia.
Qed.

Lemma const_to_var_before (p : option ascii) (A B : text) :
  forallb (fun x => negb (Ascii.eqb "("%char x)) A = true ->
  const_to_var_at p (A ++ str "const (" ++ B)
  = A ++ const_to_var_at (prev_after p A) (str "const (" ++ B).
Proof.
  revert p. induction A as [|x A IH]; intros p H; [reflexivity|].
  rewrite (const_to_var_at_eq p ((x :: A) ++ str "const (" ++ B)).
  rewrite (opener_not_before p x A B H).
  cbn [app prev_after]. f_equal. apply IH.
  cbn [forallb] in H. apply andb_true_iff in H as [_ H]. exact H.
Qed.

Lemma const_to_var_block (p : option ascii) (B : text) :
  wordp p = false ->
  forallb (fun x => negb (Ascii.eqb "("%char x)) B = true ->
  const_to_var_at p (str "const (" ++ B) = str "var (" ++ B.
Proof.
  intros Hp HB. rewrite const_to_var_at_eq.
  change (str "const (" ++ B) with (str "const" ++ str " " ++ "("%char :: B).
  rewrite (opener_at_intro p (str " ") B Hp eq_refl).
  rewrite (const_to_var_fixed (Some "("%char) B (no_paren_no_opener _ _ HB)).
  reflexivity.
Qed.

Lemma join_lines_app_cons (X : list text) (l : text) (Y : list text) :
  join_lines (X ++ l :: Y)
  = concat (map (fun x => x ++ [newline]) X) ++ join_lines (l :: Y).
Proof.
  induction X as [|x X IH]; [reflexivity|].
  cbn [app map concat].
  rewrite join_lines_cons by (destruct X; discriminate).
  rewrite IH, <- app_assoc. rewrite <- (app_assoc x). reflexivity.
Qed.

Lemma join_lines_head (l : text) (Y : list text) :
  exists T, join_lines (l :: Y) = l ++ T
            /\ (T = [] \/ T = newline :: join_lines Y)
            /\ forall l', join_lines (l' :: Y) = l' ++ T.
Proof.
  destruct Y as [|y Y].
  - exists []. split; [|split].
    + rewrite app_nil_r. reflexivity.
    + left. reflexivity.
    + intros l'. rewrite app_nil_r. reflexivity.
  - exists (newline :: join_lines (y :: Y)). split; [|split].
    + reflexivity.
    + right. reflexivity.
    + intros l'. reflexivity.
Qed.

Lemma forallb_join (f : ascii -> bool) (Y : list text) :
  f newline = true -> Forall (fun l => forallb f l = true) Y ->
  forallb f (join_lines Y) = true.
Proof.
  intros Hn H. induction H as [|l Y Hl HY IH]; [reflexivity|].
  destruct Y as [|y Y]; [exact Hl|].
  rewrite join_lines_cons by discriminate.
  rewrite forallb_app, Hl. cbn [forallb]. rewrite Hn, IH. reflexivity.
Qed.

Lemma forallb_lines (f : ascii -> bool) (X : list text) :
  f newline = true -> Forall (fun l => forallb f l = true) X ->
  forallb f (concat (map (fun x => x ++ [newline]) X)) = true.
Proof.
  intros Hn H. induction H as [|l X Hl _ IH]; [reflexivity|].
  cbn [map concat]. rewrite !forallb_app, Hl, IH. cbn [forallb].
  rewrite Hn. reflexivity.
Qed.

Lemma lines_end (X : list text) :
  X <> [] ->
  exists A0, concat (map (fun x => x ++ [newline]) X) = A0 ++ [newline].
Proof.
  intros H. destruct (exists_last H) as [X0 [l ->]].
  rewrite map_app, concat_app. cbn [map concat]. rewrite app_nil_r.
  exists (concat (map (fun x => x ++ [newline]) X0) ++ l).
  rewrite app_assoc. reflexivity.
Qed.

(** The declaration converter on lines without a parenthesis around the
    opener of a block on a line of its own. *)
Lemma const_to_var_layout (X Y : list text) :
  X <> [] ->
  Forall (fun l => forallb (fun x => negb (Ascii.eqb "("%char x)) l = true) X ->
  Forall (fun l => forallb (fun x => negb (Ascii.eqb "("%char x)) l = true) Y ->
  convert_const_to_var (join_lines (X ++ str "const (" :: Y))
  = join_lines (X ++ str "var (" :: Y).
Proof.
  intros HX HnX HnY.
  rewrite !join_lines_app_cons.
  destruct (join_lines_head (str "const (") Y) as [T [E [HT ET]]].
  rewrite E, (ET (str "var (")).
  change (convert_const_to_var ?t) with (const_to_var_at None t).
  rewrite const_to_var_before by (apply forallb_lines; [reflexivity | exact HnX]).
  f_equal. apply const_to_var_block.
  - destruct (lines_end X HX) as [A0 ->].
    rewrite prev_after_app. reflexivity.
  - destruct HT as [->| ->]; [reflexivity|].
    cbn [forallb]. apply forallb_join; [reflexivity | exact HnY].
Qed.

Lemma contains_chars (n h : text) (c : ascii) :
  contains n h = true -> In c n -> In c h.
Proof.
  intros H Hc. apply contains_inv in H as [a [b ->]].
  apply in_or_app. right. apply in_or_app. left. exact Hc.
Qed.

Lemma noparen_no_token (l : text) :
  forallb (fun x => negb (Ascii.eqb "("%char x)) l = true ->
  contains factory_token l = false.
Proof.
  intros H. destruct (contains factory_token l) eqn:C; [|reflexivity].
  exfalso.
  assert (HI : In "("%char l).
  { apply (contains_chars factory_token l _ C).
    unfold factory_token. cbn [str list_ascii_of_string In].
    repeat (first [left; reflexivity | right]). }
  apply (proj1 (forallb_forall _ _) H) in HI. discriminate HI.
Qed.

Lemma convert_line_noquote (l : text) :
  forallb notquote l = true -> convert_line l = l.
Proof.
  intros H. apply convert_line_fixed_iff. right.
  destruct (search guard_pattern None l) eqn:S; [|reflexivity]. exfalso.
  apply search_guard_prefix in S. apply (no_quote_in l H).
  apply (contains_chars _ _ dquote S). left. reflexivity.
Qed.

Lemma upper_not_paren (x : ascii) :
  isupper_us x = true -> Ascii.eqb "("%char x = false.
Proof. char_cases x. Qed.

Lemma upper_not_newline (x : ascii) :
  isupper_us x = true -> Ascii.eqb x newline = false.
Proof. char_cases x. Qed.

Lemma upper_not_dquote (x : ascii) :
  isupper_us x = true -> Ascii.eqb dquote x = false.
Proof. char_cases x. Qed.

Lemma assignment_noparen (indent name w1 w2 rest : text) :
  eligible indent name w1 w2 rest -> forallb plain_char rest = true ->
  forallb (fun x => negb (Ascii.eqb "("%char x))
    (assignment indent name w1 w2 rest) = true.
Proof.
  intros [Hi [_ [Hn [Hw1 [Hw2 _]]]]] Hr.
  assert (Hsp : forall w, forallb isspace w = true ->
                forallb (fun x => negb (Ascii.eqb "("%char x)) w = true).
  { intros w. apply forallb_impl. intros x Hx.
    rewrite (space_not_paren x Hx). reflexivity. }
  unfold assignment, govel_literal, quoted.
  rewrite !forallb_app. cbn [forallb]. rewrite !forallb_app.
  rewrite (Hsp _ Hi), (Hsp _ Hw1), (Hsp _ Hw2), (inert_noparen rest Hr).
  rewrite (forallb_impl isupper_us _ name
             (fun x Hx => f_equal negb (upper_not_paren x Hx)) Hn).
  reflexivity.
Qed.

Lemma assignment_one_line (indent name w1 w2 rest : text) :
  eligible indent name w1 w2 rest ->
  one_line (indent ++ w1 ++ w2) = true -> forallb plain_char rest = true ->
  one_line (assignment indent name w1 w2 rest) = true.
Proof.
  intros [_ [_ [Hn _]]] Hw Hr.
  pose proof (inert_one_line rest Hr) as Hr1.
  unfold one_line in *. rewrite !forallb_app in Hw.
  apply andb_true_iff in Hw as [Hi Hw]. apply andb_true_iff in Hw as [Hw1 Hw2].
  unfold assignment, govel_literal, quoted.
  rewrite !forallb_app. cbn [forallb]. rewrite !forallb_app.
  rewrite Hi, Hw1, Hw2, Hr1.
  rewrite (forallb_impl isupper_us _ name
             (fun x Hx => f_equal negb (upper_not_newline x Hx)) Hn).
  reflexivity.
Qed.

Lemma noquote_path_free (l : text) : forallb notquote l = true -> path_free l.
Proof.
  intros H. unfold path_free.
  rewrite <- (app_nil_r l).
  apply (occurrences_skip dquote (symbol_path ++ [dquote]) l []).
  apply forallb_impl with (f := notquote); [|exact H].
  intros x Hx. unfold notquote in Hx. rewrite Ascii.eqb_sym. exact Hx.
Qed.

Lemma literal_path_free (rest : text) :
  forallb notquote rest = true -> path_free (govel_literal rest).
Proof.
  intros Hr. unfold path_free, govel_literal, quoted.
  change (occurrences quoted_path (dquote :: (str "govel." ++ rest) ++ [dquote]))
    with ((if startswith (dquote :: (str "govel." ++ rest) ++ [dquote]) quoted_path
           then 1 else 0)
          + occurrences quoted_path ((str "govel." ++ rest) ++ [dquote])).
  replace (startswith (dquote :: (str "govel." ++ rest) ++ [dquote]) quoted_path)
    with false by reflexivity.
  cbn [Nat.add].
  change quoted_path with (dquote :: symbol_path ++ [dquote]).
  rewrite (occurrences_skip dquote (symbol_path ++ [dquote])
             (str "govel." ++ rest) [dquote]); [reflexivity|].
  rewrite forallb_app.
  replace (forallb (fun x => negb (Ascii.eqb dquote x)) (str "govel."))
    with true by reflexivity.
  cbn [andb]. apply forallb_impl with (f := notquote); [|exact Hr].
  intros x Hx. rewrite (notquote_not_dquote x Hx). reflexivity.
Qed.

Lemma assignment_path_free (indent name w1 w2 rest : text) :
  eligible indent name w1 w2 rest ->
  path_free (assignment indent name w1 w2 rest).
Proof.
  intros [Hi [_ [Hn [Hw1 [Hw2 [_ Hr]]]]]].
  assert (Hsp : forall w, forallb isspace w = true ->
                forallb (fun x => negb (Ascii.eqb dquote x)) w = true).
  { intros w. apply forallb_impl. intros x Hx.
    rewrite (space_not_dquote x Hx). reflexivity. }
  unfold path_free, assignment.
  replace (indent ++ name ++ w1 ++ str "=" ++ w2 ++ govel_literal rest)
    with ((indent ++ name ++ w1 ++ str "=" ++ w2) ++ govel_literal rest)
    by (rewrite <- !app_assoc; reflexivity).
  change quoted_path with (dquote :: symbol_path ++ [dquote]).
  rewrite (occurrences_skip dquote (symbol_path ++ [dquote])
             (indent ++ name ++ w1 ++ str "=" ++ w2) (govel_literal rest)).
  - apply literal_path_free. exact Hr.
  - rewrite !forallb_app, (Hsp _ Hi), (Hsp _ Hw1), (Hsp _ Hw2).
    rewrite (forallb_impl isupper_us _ name
               (fun x Hx => f_equal negb (upper_not_dquote x Hx)) Hn).
    reflexivity.
Qed.

Lemma occurrences_zero (c : ascii) (n h : text) :
  occurrences (c :: n) h = 0 -> contains (c :: n) h = false.
Proof.
  induction h as [|x h IH]; [reflexivity|].
  cbn [occurrences]. intros H.
  destruct (startswith (x :: h) (c :: n)) eqn:S; [discriminate H|].
  cbn [contains]. rewrite S. cbn [orb]. apply IH. exact H.
Qed.

Lemma entry_line_noparen (e : entry) :
  entry_ok e ->
  forallb (fun x => negb (Ascii.eqb "("%char x)) (entry_line e) = true.
Proof.
  destruct e as [l|indent name w1 w2 rest]; cbn [entry_ok entry_line].
  - apply inert_noparen.
  - intros [El [_ Hr]]. apply assignment_noparen; assumption.
Qed.

Lemma entry_line_one_line (e : entry) :
  entry_ok e -> one_line (entry_line e) = true.
Proof.
  destruct e as [l|indent name w1 w2 rest]; cbn [entry_ok entry_line].
  - apply inert_one_line.
  - intros [El [Hw Hr]]. apply assignment_one_line; assumption.
Qed.

Lemma entry_line_path_free (e : entry) :
  entry_ok e -> path_free (entry_line e).
Proof.
  destruct e as [l|indent name w1 w2 rest]; cbn [entry_ok entry_line].
  - intros H. apply noquote_path_free, inert_noquote, H.
  - intros [El _]. apply assignment_path_free, El.
Qed.

Lemma entry_line_converted (e : entry) :
  entry_ok e -> convert_line (entry_line e) = entry_done e.
Proof.
  destruct e as [l|indent name w1 w2 rest]; cbn [entry_ok entry_line entry_done].
  - intros H. apply convert_line_noquote, inert_noquote, H.
  - intros [El [_ Hr]]. apply convert_line_eligible; [exact El|].
    apply noparen_no_token, assignment_noparen; assumption.
Qed.

(** The import manager on a file without an import construct. *)
Lemma add_symbol_import_no_imports (content : text) (pre post : list text)
  (hdr : text) :
  split_lines content = pre ++ hdr :: post ->
  no_header pre -> startswith hdr package_kw = true ->
  (forall l, first_nonblank post = Some l ->
             startswith (strip l) (str "import") = false) ->
  add_symbol_import content
  = Ok (join_lines (pre ++ hdr :: [] :: import_statement :: [] :: post)).
Proof.
  intros Hs Hpre Hhdr Hno.
  rewrite (add_symbol_import_header _ _ _ _ Hs Hpre Hhdr).
  rewrite (scan_imports_none _ _ _ _ Hno).
  cbv zeta. cbn [has_imports scan_lines negb].
  do 2 f_equal.
  change (pre ++ hdr :: post) with (pre ++ [hdr] ++ post).
  rewrite app_assoc.
  rewrite (list_insert_app (pre ++ [hdr]) post)
    by (rewrite length_app; reflexivity).
  change ((pre ++ [hdr]) ++ [] :: post) with ((pre ++ [hdr]) ++ [[]] ++ post).
  rewrite app_assoc.
  rewrite (list_insert_app ((pre ++ [hdr]) ++ [[]]) post)
    by (rewrite !length_app; cbn [length]; lia).
  change (((pre ++ [hdr]) ++ [[]]) ++ import_statement :: post)
    with (((pre ++ [hdr]) ++ [[]]) ++ [import_statement] ++ post).
  rewrite app_assoc.
  rewrite (list_insert_app (((pre ++ [hdr]) ++ [[]]) ++ [import_statement]) post)
    by (rewrite !length_app; cbn [length]; lia).
  rewrite <- !app_assoc. reflexivity.
Qed.

Lemma first_nonblank_above (above rest : list text) (l : text) :
  Forall (fun a => inert a = true
                   /\ startswith (strip a) (str "import") = false) above ->
  first_nonblank (above ++ str "const (" :: rest) = Some l ->
  startswith (strip l) (str "import") = false.
Proof.
  intros Ha. unfold first_nonblank.
  induction Ha as [|a above [_ Hi] _ IH]; cbn [app find].
  - replace (negb (blank (str "const ("))) with true by reflexivity.
    intros H. inversion H. reflexivity.
  - destruct (negb (blank a)); [|exact IH].
    intros H. inversion H. subst l. exact Hi.
Qed.

(** A tokens file of the expected layout: lines without parenthesis or
    double quote before the header, such a header, such lines above the
    block, none of them an import, the opener [const (] on a line of its
    own, and then assignments of [govel.] literals and other such lines.
    The transform puts the import after the header, turns the opener
    into [var (], wraps each literal into the call and leaves everything
    else as it is. *)
Theorem tokens_file_transformed (pre : list text) (hdr : text)
  (above : list text) (body : list entry) :
  no_header pre -> Forall (fun l => inert l = true) pre ->
  startswith hdr package_kw = true -> inert hdr = true ->
  Forall (fun a => inert a = true
                   /\ startswith (strip a) (str "import") = false) above ->
  Forall entry_ok body ->
  transform (tokens_file pre hdr above body)
  = Ok (tokens_file_done pre hdr above body).
Proof.
  intros Hpre Hip Hhdr Hih Hab Hbody.
  assert (Hia : Forall (fun l => inert l = true) above).
  { apply (Forall_impl _ (fun a H => proj1 H) Hab). }
  set (Y := map entry_line body).
  assert (HY1 : Forall (fun l => one_line l = true) Y).
  { unfold Y. apply Forall_map.
    apply (Forall_impl _ entry_line_one_line Hbody). }
  assert (HYp : Forall (fun l => forallb (fun x => negb (Ascii.eqb "("%char x)) l
                                 = true) Y).
  { unfold Y. apply Forall_map.
    apply (Forall_impl _ entry_line_noparen Hbody). }
  assert (HYf : Forall path_free Y).
  { unfold Y. apply Forall_map.
    apply (Forall_impl _ entry_line_path_free Hbody). }
  set (lines0 := pre ++ hdr :: above ++ str "const (" :: Y).
  assert (H1 : Forall (fun l => one_line l = true) lines0).
  { unfold lines0. apply Forall_app. split.
    - apply (Forall_impl _ inert_one_line Hip).
    - constructor; [apply inert_one_line, Hih|].
      apply Forall_app. split.
      + apply (Forall_impl _ inert_one_line Hia).
      + constructor; [reflexivity | exact HY1]. }
  assert (Hs : split_lines (tokens_file pre hdr above body) = lines0).
  { unfold tokens_file. fold Y. fold lines0. apply split_join; [|exact H1].
    unfold lines0. destruct pre; discriminate. }
  assert (Hf : Forall path_free lines0).
  { unfold lines0. apply Forall_app. split.
    - apply (Forall_impl _ (fun l H => noquote_path_free l (inert_noquote l H)) Hip).
    - constructor; [apply noquote_path_free, inert_noquote, Hih|].
      apply Forall_app. split.
      + apply (Forall_impl _ (fun l H => noquote_path_free l (inert_noquote l H)) Hia).
      + constructor; [reflexivity | exact HYf]. }
  assert (Hno : has_symbol_import (tokens_file pre hdr above body) = false).
  { unfold has_symbol_import.
    assert (C : contains quoted_path (tokens_file pre hdr above body) = false).
    { apply (occurrences_zero dquote (symbol_path ++ [dquote])).
      change (dquote :: symbol_path ++ [dquote]) with quoted_path.
      rewrite path_lines, Hs. apply total_zero. exact Hf. }
    rewrite C.
    destruct (contains import_statement (tokens_file pre hdr above body)) eqn:C1;
      [|reflexivity].
    rewrite (contains_import_statement _ C1) in C. discriminate C. }
  unfold transform. rewrite Hno. cbn [negb].
  rewrite (add_symbol_import_no_imports _ pre (above ++ str "const (" :: Y) hdr
             Hs Hpre Hhdr (fun l => first_nonblank_above above Y l Hab)).
  cbn [bind]. f_equal.
  set (X := pre ++ hdr :: [] :: import_statement :: [] :: above).
  replace (pre ++ hdr :: [] :: import_statement :: [] :: above
             ++ str "const (" :: Y)
    with (X ++ str "const (" :: Y)
    by (unfold X; rewrite <- app_assoc; reflexivity).
  assert (HXp : Forall (fun l => forallb (fun x => negb (Ascii.eqb "("%char x)) l
                                 = true) X).
  { unfold X. apply Forall_app. split.
    - apply (Forall_impl _ inert_noparen Hip).
    - constructor; [apply inert_noparen, Hih|].
      constructor; [reflexivity|]. constructor; [reflexivity|].
      constructor; [reflexivity|].
      apply (Forall_impl _ inert_noparen Hia). }
  assert (HX1 : Forall (fun l => one_line l = true) X).
  { unfold X. apply Forall_app. split.
    - apply (Forall_impl _ inert_one_line Hip).
    - constructor; [apply inert_one_line, Hih|].
      constructor; [reflexivity|]. constructor; [reflexivity|].
      constructor; [reflexivity|].
      apply (Forall_impl _ inert_one_line Hia). }
  assert (HXc : map convert_line X = X).
  { apply map_fixed_iff. unfold X. apply Forall_app. split.
    - apply (Forall_impl _ (fun l H => convert_line_noquote l (inert_noquote l H)) Hip).
    - constructor; [apply convert_line_noquote, inert_noquote, Hih|].
      constructor; [reflexivity|]. constructor; [reflexivity|].
      constructor; [reflexivity|].
      apply (Forall_impl _ (fun l H => convert_line_noquote l (inert_noquote l H)) Hia). }
  rewrite (const_to_var_layout X Y) by
    (try exact HXp; try exact HYp; unfold X; destruct pre; discriminate).
  unfold convert_string_to_symbol, tokens_file_done. fold X.
  replace (pre ++ hdr :: [] :: import_statement :: [] :: above
             ++ str "var (" :: map entry_done body)
    with (X ++ str "var (" :: map entry_done body)
    by (unfold X; rewrite <- app_assoc; reflexivity).
  rewrite split_join.
  - rewrite map_app, HXc. cbn [map].
    replace (convert_line (str "var (")) with (str "var (") by reflexivity.
    unfold Y. rewrite map_map.
    do 3 f_equal. apply map_ext_in. intros e He.
    apply entry_line_converted.
    apply (proj1 (Forall_forall _ _) Hbody e He).
  - unfold X. destruct pre; discriminate.
  - apply Forall_app. split; [exact HX1|].
    constructor; [reflexivity | exact HY1].
Qed.

(** ** The import manager adds the path once *)

Lemma strip_spaces (l : text) :
  exists a b, l = a ++ strip l ++ b
              /\ forallb isspace a = true /\ forallb isspace b = true.
Proof.
  unfold strip, rstrip, lstrip.
  exists (takewhile isspace l),
    (rev (takewhile isspace (rev (dropwhile isspace l)))).
  split; [|split].
  - rewrite <- rev_app_distr, takewhile_dropwhile, rev_involutive.
    symmetry. apply takewhile_dropwhile.
  - apply takewhile_all.
  - apply forallb_rev_true, takewhile_all.
Qed.

Lemma path_no_space (q : ascii) :
  isspace q = true ->
  forallb (fun x => negb (Ascii.eqb x q)) quoted_path = true.
Proof.
  intros Hq. apply forallb_forall. intros x Hx.
  assert (Hs : isspace x = false).
  { assert (H : forallb (fun c => negb (isspace c)) quoted_path = true)
      by reflexivity.
    apply (proj1 (forallb_forall _ _) H) in Hx.
    apply negb_true_iff in Hx. exact Hx. }
  destruct (Ascii.eqb x q) eqn:E; [|reflexivity].
  apply Ascii.eqb_eq in E. subst q. congruence.
Qed.

Lemma spaces_path_free (b : text) : forallb isspace b = true -> path_free b.
Proof.
  intros H. apply noquote_path_free.
  apply (forallb_impl isspace notquote b space_is_notquote H).
Qed.

Lemma path_trailing (m b : text) :
  forallb isspace b = true ->
  occurrences quoted_path (m ++ b) = occurrences quoted_path m.
Proof.
  intros Hb. destruct b as [|q b].
  - rewrite app_nil_r. reflexivity.
  - assert (Hq : isspace q = true).
    { cbn [forallb] in Hb. apply andb_true_iff in Hb as [Hq _]. exact Hq. }
    induction m as [|x m IH].
    + cbn [app]. rewrite (spaces_path_free (q :: b) Hb). reflexivity.
    + cbn [app occurrences]. rewrite IH.
      change (x :: m ++ q :: b) with ((x :: m) ++ q :: b).
      rewrite (startswith_barrier q quoted_path (x :: m) b (path_no_space q Hq)).
      reflexivity.
Qed.

Lemma path_skip (a r : text) :
  forallb (fun x => negb (Ascii.eqb dquote x)) a = true ->
  occurrences quoted_path (a ++ r) = occurrences quoted_path r.
Proof. exact (occurrences_skip dquote (symbol_path ++ [dquote]) a r). Qed.

Lemma path_leading (a m : text) :
  forallb isspace a = true ->
  occurrences quoted_path (a ++ m) = occurrences quoted_path m.
Proof.
  intros Ha.
  apply (occurrences_skip dquote (symbol_path ++ [dquote]) a m).
  apply forallb_impl with (f := isspace); [|exact Ha].
  intros x Hx. rewrite (space_not_dquote x Hx). reflexivity.
Qed.

Lemma path_strip (l : text) :
  occurrences quoted_path (strip l) = occurrences quoted_path l.
Proof.
  destruct (strip_spaces l) as [a [b [E [Ha Hb]]]].
  rewrite E at 2. rewrite (path_leading a _ Ha), (path_trailing _ b Hb).
  reflexivity.
Qed.

Lemma path_promoted (l : text) :
  startswith (strip l) (str "import ") = true ->
  occurrences quoted_path (tab :: skipn 7 (strip l))
  = occurrences quoted_path l.
Proof.
  intros H. rewrite <- (path_strip l).
  apply startswith_inv in H as [r ->].
  change (skipn 7 (str "import " ++ r)) with r.
  change (occurrences quoted_path (tab :: r))
    with (occurrences quoted_path ([tab] ++ r)).
  rewrite (path_skip [tab] r eq_refl).
  rewrite (path_skip (str "import ") r eq_refl).
  reflexivity.
Qed.

Lemma occurrences_contains (n h : text) :
  0 < occurrences n h -> contains n h = true.
Proof.
  intros H. destruct (contains n h) eqn:C; [reflexivity|].
  rewrite (contains_none n h C) in H. lia.
Qed.

(** Whenever the import manager changes a text, the quoted path stands
    in the result once more than before: the occurrences already there
    are kept, also those of a single-form import that is promoted, and
    the result passes the test for the import. *)
Theorem add_import_adds_one (t t1 : text) :
  add_symbol_import t = Ok t1 -> t1 <> t ->
  occurrences quoted_path t1 = S (occurrences quoted_path t)
  /\ has_symbol_import t1 = true.
Proof.
  intros Hadd Hne.
  assert (H : occurrences quoted_path t1 = S (occurrences quoted_path t)).
  { destruct (add_symbol_import_cases t t1 Hadd) as [p [_ Hcases]].
    rewrite (path_lines t).
    destruct Hcases as [E|[[A [B [E [_ ->]]]]|[[A [B [E [_ ->]]]]
                       |[A [l [B [E [_ [Hl ->]]]]]]]]].
    - contradiction.
    - rewrite path_join, E, !total_app, !total_cons.
      change (occurrences quoted_path []) with 0.
      change (occurrences quoted_path import_statement) with 1. lia.
    - rewrite path_join, E, !total_app, !total_cons.
      change (occurrences quoted_path import_entry) with 1. lia.
    - rewrite path_join, E, !total_app, !total_cons.
      rewrite (path_promoted l Hl).
      change (occurrences quoted_path import_entry) with 1.
      change (occurrences quoted_path (str "import (")) with 0.
      change (occurrences quoted_path (str ")")) with 0. lia. }
  split; [exact H|].
  unfold has_symbol_import. rewrite (occurrences_contains quoted_path t1).
  - apply orb_true_r.
  - lia.
Qed.

(** ** The order of the files does not matter *)

Lemma update_tokens_file_outcome (fs : filesystem) (path : string) :
  fst (fst (update_tokens_file fs path)) path = outcome fs path
  /\ snd (update_tokens_file fs path) = changes fs path.
Proof.
  unfold update_tokens_file, read_file, outcome, changes.
  destruct (fs path) as [t|] eqn:Hr; cbn [bind fst snd];
    [|split; [exact Hr | reflexivity]].
  destruct (transform t) as [t'|e]; cbn [bind fst snd];
    [|split; [exact Hr | reflexivity]].
  destruct (text_eqb t' t) eqn:E; cbn [negb fst snd].
  - apply text_eqb_eq in E. subst t'. split; [exact Hr | reflexivity].
  - unfold write_file. rewrite String.eqb_refl. split; reflexivity.
Qed.

Lemma outcome_other (fs : filesystem) (path q : string) :
  q <> path ->
  outcome (fst (fst (update_tokens_file fs path))) q = outcome fs q
  /\ changes (fst (fst (update_tokens_file fs path))) q = changes fs q.
Proof.
  intros H. unfold outcome, changes.
  rewrite (update_tokens_file_other fs path q H). split; reflexivity.
Qed.

Lemma update_all_outcome (fs : filesystem) (files : list string) :
  NoDup files ->
  (forall q, In q files -> fst (fst (update_all fs files)) q = outcome fs q)
  /\ snd (update_all fs files) = length (filter (changes fs) files).
Proof.
  intros Hnd. revert fs.
  induction Hnd as [|f files Hnotin Hnd IH]; intros fs.
  - split; [intros q []|reflexivity].
  - rewrite update_all_cons. cbn [fst snd].
    destruct (IH (fst (fst (update_tokens_file fs f)))) as [IH1 IH2].
    destruct (update_tokens_file_outcome fs f) as [E1 E2].
    split.
    + intros q [<-|Hq].
      * rewrite update_all_other by exact Hnotin. exact E1.
      * rewrite (IH1 q Hq). apply outcome_other. intros ->. contradiction.
    + rewrite IH2, E2. cbn [filter].
      replace (filter (changes (fst (fst (update_tokens_file fs f)))) files)
        with (filter (changes fs) files).
      * destruct (changes fs f); reflexivity.
      * apply filter_ext_in. intros q Hq. symmetry.
        apply outcome_other. intros ->. contradiction.
Qed.

Lemma filter_length_perm {A : Type} (f : A -> bool) (l l' : list A) :
  Permutation l l' -> length (filter f l) = length (filter f l').
Proof.
  induction 1 as [|x l l' _ IH|x y l|l l' l'' _ IH1 _ IH2]; cbn [filter].
  - reflexivity.
  - destruct (f x); cbn [length]; rewrite IH; reflexivity.
  - destruct (f x), (f y); reflexivity.
  - rewrite IH1. exact IH2.
Qed.

(** The files are independent: when the paths are distinct, the order in
    which [main] is given them changes neither what any path holds at
    the end nor the number of updates. *)
Theorem batch_order_irrelevant (fs : filesystem) (files files' : list string) :
  NoDup files -> Permutation files files' ->
  (forall q, fst (main fs files) q = fst (main fs files') q)
  /\ snd (update_all fs files) = snd (update_all fs files').
Proof.
  intros Hnd Hp.
  assert (Hnd' : NoDup files') by (apply (Permutation_NoDup Hp Hnd)).
  destruct (update_all_outcome fs files Hnd) as [H1 H2].
  destruct (update_all_outcome fs files' Hnd') as [H1' H2'].
  split.
  - intros q. rewrite !main_files.
    destruct (in_dec string_dec q files) as [Hi|Hni].
    + rewrite (H1 q Hi), (H1' q (Permutation_in q Hp Hi)). reflexivity.
    + rewrite update_all_other by exact Hni.
      rewrite update_all_other; [reflexivity|].
      intros Hi. apply Hni. apply (Permutation_in q (Permutation_sym Hp) Hi).
  - rewrite H2, H2'. apply filter_length_perm. exact Hp.
Qed.

(** The number of updates in the summary of [main] is the number of
    listed files whose transformed text differs from the text they
    hold, the listed paths being distinct. *)
Theorem main_counts_changed_files (fs : filesystem) (tokens_files : list string) :
  NoDup tokens_files -> tokens_files <> [] ->
  exists printed,
    snd (main fs tokens_files)
    = printed ++ [Completed (length (filter (changes fs) tokens_files))
                    (length tokens_files)].
Proof.
  intros Hnd Hne.
  destruct (update_all_outcome fs tokens_files Hnd) as [_ H].
  destruct tokens_files as [|f files]; [congruence|].
  unfold main. rewrite <- H.
  destruct (update_all fs (f :: files)) as [[fs' printed] n]. cbn [snd].
  exists (Found (length (f :: files)) :: map Listed (f :: files)
            ++ UpdatingFiles :: printed).
  cbn [app]. rewrite <- app_assoc. reflexivity.
Qed.

(** ** The transform twice *)

Lemma contains_join (needle l : text) (ls : list text) :
  In l ls -> contains needle l = true ->
  contains needle (join_lines ls) = true.
Proof.
  intros Hin Hc. apply in_split in Hin as [A [B ->]].
  destruct (join_lines_middle A B l) as [pre [post [-> _]]].
  apply contains_infix. exact Hc.
Qed.

Lemma contains_occurs (c : ascii) (n h : text) :
  contains (c :: n) h = true -> 0 < occurrences (c :: n) h.
Proof.
  intros H. destruct (occurrences (c :: n) h) eqn:E; [|lia].
  rewrite (occurrences_zero c n h E) in H. discriminate H.
Qed.

(** A line that is the import of the symbol package, in either form,
    is still a line after the declaration converter. *)
Lemma import_line_survives (t L : text) :
  In L (split_lines t) -> L = import_statement \/ L = import_entry ->
  In L (split_lines (convert_const_to_var t)).
Proof.
  intros Hin HL. apply in_split in Hin as [A [B E]].
  destruct (join_lines_middle A B L) as [pre [post [Ej [Hpre Hpost]]]].
  rewrite <- E, join_split in Ej.
  destruct (const_to_var_import_line pre L post HL Hpre Hpost)
    as [pre' [post' [Ec [Hpre' Hpost']]]].
  change (convert_const_to_var t) with (const_to_var_at None t).
  rewrite Ej, Ec. apply split_lines_middle; [|assumption|assumption].
  apply (import_line_kept L HL).
Qed.

(** When a line that holds the quoted path stands after the declaration
    converter and the literal rewriter leaves it as it is, the text held
    the path and the result of the two steps holds it. *)
Lemma kept_line_keeps_path (t l : text) :
  In l (split_lines (convert_const_to_var t)) ->
  contains quoted_path l = true -> convert_line l = l ->
  has_symbol_import t = true
  /\ has_symbol_import (convert_string_to_symbol (convert_const_to_var t)) = true.
Proof.
  intros Hin Hc Hk. unfold has_symbol_import. split.
  - rewrite (occurrences_contains quoted_path t); [apply orb_true_r|].
    rewrite <- (path_const_to_var t), path_lines.
    pose proof (total_in quoted_path _ l Hin) as Hle.
    pose proof (contains_occurs dquote (symbol_path ++ [dquote]) l Hc) as Hpos.
    change (dquote :: symbol_path ++ [dquote]) with quoted_path in Hpos. lia.
  - unfold convert_string_to_symbol.
    rewrite (contains_join quoted_path l); [apply orb_true_r| |exact Hc].
    rewrite <- Hk. apply in_map. exact Hin.
Qed.

(** A text that holds the quoted path after the transform is returned
    by a second transform as it is. *)
Lemma transform_again (t t' : text) :
  transform t = Ok t' -> has_symbol_import t' = true -> transform t' = Ok t'.
Proof.
  intros Ht Hhas. destruct (transform_inv t t' Ht) as [t1 [_ E]].
  rewrite (transform_with_import t' Hhas), E, content_steps_idempotent.
  reflexivity.
Qed.

(** C1, as the code has it, from the side of the input.  The transform
    succeeds and returns a text that a second transform returns as it
    is, so that a second run writes nothing and reports no update, in
    each of three cases: the input does not hold the quoted import path
    and the import manager adds the import to it; or one line of the
    input is the import of the symbol package, as the single-form
    statement or as the entry of a grouped block; or, after the
    declaration converter, one line holds the quoted path and the literal
    rewriter leaves that line as it is. *)
Theorem transform_idempotent (t : text) :
  (has_symbol_import t = false
   /\ exists t1, add_symbol_import t = Ok t1 /\ t1 <> t)
  \/ (exists L, In L (split_lines t)
                /\ (L = import_statement \/ L = import_entry))
  \/ (exists l, In l (split_lines (convert_const_to_var t))
                /\ contains quoted_path l = true /\ convert_line l = l) ->
  exists t',
    transform t = Ok t'
    /\ transform t' = Ok t'
    /\ forall fs path, fs path = Some t' ->
         update_tokens_file fs path = (fs, [], false).
Proof.
  intros H.
  assert (Hrun : exists t', transform t = Ok t' /\ has_symbol_import t' = true).
  { destruct H as [[Hno [t1 [Hadd Hne]]]|H].
    - exists (convert_string_to_symbol (convert_const_to_var t1)). split.
      + unfold transform. rewrite Hno. cbn [negb]. rewrite Hadd. reflexivity.
      + assert (Hpath : contains quoted_path t = false).
        { unfold has_symbol_import in Hno. apply orb_false_iff in Hno.
          apply Hno. }
        unfold has_symbol_import.
        rewrite (occurrences_contains quoted_path
                   (convert_string_to_symbol (convert_const_to_var t1)));
          [apply orb_true_r|].
        rewrite (path_once_after_insert t t1 Hpath Hadd Hne). lia.
    - assert (H3 : exists l, In l (split_lines (convert_const_to_var t))
                             /\ contains quoted_path l = true
                             /\ convert_line l = l).
      { destruct H as [[L [Hin HL]]|H]; [|exact H].
        exists L. split; [apply (import_line_survives t L Hin HL)|].
        destruct HL as [->| ->]; split; reflexivity. }
      destruct H3 as [l [Hin [Hc Hk]]].
      destruct (kept_line_keeps_path t l Hin Hc Hk) as [H1 H2].
      exists (convert_string_to_symbol (convert_const_to_var t)).
      split; [apply (transform_with_import t H1) | exact H2]. }
  destruct Hrun as [t' [Ht Hhas]].
  pose proof (transform_again t t' Ht Hhas) as H2.
  exists t'. split; [exact Ht|]. split; [exact H2|].
  intros fs path Hread. apply (update_unchanged fs path t' Hread H2).
Qed.

(** ** The files found *)

Lemma node_induction (P : node -> Prop) :
  (forall content, P (File content)) ->
  (forall entries, Forall (fun e => P (snd e)) entries -> P (Dir entries)) ->
  forall n, P n.
Proof.
  intros HF HD. fix IH 1. intros [content|entries].
  - apply HF.
  - apply HD. induction entries as [|e entries IHe]; constructor.
    + apply IH.
    + exact IHe.
Qed.

Lemma rlistdir_dir (entries : list (string * node)) :
  rlistdir (Dir entries)
  = flat_map
      (fun xc =>
         if ishidden (fst xc) then []
         else match snd xc with
              | Dir _ =>
                  (fst xc, snd xc)
                  :: map (fun yn => (os_path_join (fst xc) (fst yn), snd yn))
                       (rlistdir (snd xc))
              | File _ => []
              end)
      entries.
Proof.
  cbn [rlistdir].
  induction entries as [|[x child] entries IH]; [reflexivity|].
  cbn [flat_map fst snd]. rewrite <- IH. reflexivity.
Qed.

Lemma below_dir (n : node) (ds : list string) (m : node) :
  below n ds m -> ds <> [] -> exists es, n = Dir es.
Proof. intros H. destruct H; [congruence | eexists; reflexivity]. Qed.

(** The recursive listing holds exactly the directories reached through
    one name at least, each under its relative path. *)
Lemma rlistdir_spec (tree : node) (p : string) (n : node) :
  In (p, n) (rlistdir tree)
  <-> exists ds es,
        ds <> [] /\ below tree ds (Dir es) /\ n = Dir es /\ p = relative ds.
Proof.
  revert p n. induction tree as [content|entries IH] using node_induction;
    intros p n.
  - split; [intros []|]. intros [ds [es [Hne [Hb _]]]].
    destruct (below_dir _ _ _ Hb Hne) as [es' E]. discriminate E.
  - rewrite rlistdir_dir, in_flat_map. split.
    + intros [[x child] [Hin Hp]]. cbn [fst snd] in Hp.
      destruct (ishidden x) eqn:Hh; [contradiction|].
      destruct child as [c|es]; [contradiction|].
      destruct Hp as [Hp|Hp].
      * inversion Hp. subst p n. exists [x], es.
        repeat split; [discriminate|].
        apply (below_step entries x es [] (Dir es) Hin Hh), below_here.
      * apply in_map_iff in Hp as [[y m] [E Hy]]. cbn [fst snd] in E.
        inversion E. subst p n.
        pose proof (proj1 (Forall_forall _ _) IH (x, Dir es) Hin) as IHx.
        cbn [snd] in IHx.
        apply IHx in Hy as [ds [es' [Hne [Hb [-> ->]]]]].
        exists (x :: ds), es'. repeat split; [discriminate| |].
        -- apply (below_step entries x es ds (Dir es') Hin Hh Hb).
        -- destruct ds; [congruence | reflexivity].
    + intros [ds [es [Hne [Hb [-> ->]]]]].
      inversion Hb as [|entries' d es0 ds' n' Hin Hh Hb']; subst; [congruence|].
      exists (d, Dir es0). split; [exact Hin|]. cbn [fst snd]. rewrite Hh.
      destruct ds' as [|d' ds'].
      * inversion Hb'. subst. left. reflexivity.
      * right. apply in_map_iff. exists (relative (d' :: ds'), Dir es).
        split; [reflexivity|].
        pose proof (proj1 (Forall_forall _ _) IH (d, Dir es0) Hin) as IHx.
        cbn [snd] in IHx. apply IHx.
        exists (d' :: ds'), es. repeat split; [discriminate | exact Hb'].
Qed.

Lemma glob_tokens_spec (root : string) (tree : node) (path : string) :
  In path (glob_tokens root tree)
  <-> exists ds n,
        below tree ds n /\ has_entry "tokens.go" n = true
        /\ path = os_path_join (os_path_join root (relative ds)) "tokens.go".
Proof.
  unfold glob_tokens. rewrite in_flat_map. split.
  - intros [[d n] [Hin Hp]]. cbn [fst snd] in Hp.
    destruct (has_entry "tokens.go" n) eqn:He; [|contradiction].
    destruct Hp as [<-|[]].
    destruct Hin as [E|Hin].
    + inversion E. subst d n. exists [], tree.
      repeat split; [apply below_here | exact He].
    + apply rlistdir_spec in Hin as [ds [es [_ [Hb [-> ->]]]]].
      exists ds, (Dir es). repeat split; assumption.
  - intros [ds [n [Hb [He ->]]]].
    exists (relative ds, n). cbn [fst snd]. rewrite He.
    split; [|left; reflexivity].
    destruct ds as [|d ds].
    + inversion Hb. subst. left. reflexivity.
    + right. apply rlistdir_spec.
      destruct n as [c|es]; [discriminate He|].
      exists (d :: ds), es. repeat split; [discriminate | exact Hb].
Qed.

(** For a literal root, [find_tokens_files] returns a list, and the
    list holds exactly the paths of the entries named [tokens.go] in the
    root and in the directories below it that are reached through names
    that are not hidden.  Nothing in a hidden directory is found, and
    nothing but such entries. *)
Theorem find_tokens_files_spec (root : string) (tree : node) :
  literal_root root = true ->
  exists files,
    find_tokens_files root tree = Some files
    /\ forall path,
         In path files
         <-> exists ds n,
               below tree ds n /\ has_entry "tokens.go" n = true
               /\ path = os_path_join (os_path_join root (relative ds))
                           "tokens.go".
Proof.
  intros Hroot. exists (glob_tokens root tree). split.
  - unfold find_tokens_files. rewrite Hroot. reflexivity.
  - intros path. apply glob_tokens_spec.
Qed.

(** ** No path is found twice *)

Lemma chars_append (a b : string) :
  list_ascii_of_string (a ++ b)
  = list_ascii_of_string a ++ list_ascii_of_string b.
Proof.
  induction a as [|c a IH]; [reflexivity|].
  cbn [String.append list_ascii_of_string app]. rewrite IH. reflexivity.
Qed.

Lemma chars_inj (a b : string) :
  list_ascii_of_string a = list_ascii_of_string b -> a = b.
Proof.
  intros H. rewrite <- (string_of_list_ascii_of_string a),
    <- (string_of_list_ascii_of_string b), H. reflexivity.
Qed.

Lemma append_inv_head (a b c : string) :
  (a ++ b)%string = (a ++ c)%string -> b = c.
Proof.
  intros H. apply chars_inj. apply (f_equal list_ascii_of_string) in H.
  rewrite !chars_append in H. apply app_inv_head in H. exact H.
Qed.

Lemma append_inv_tail (a b c : string) :
  (a ++ c)%string = (b ++ c)%string -> a = b.
Proof.
  intros H. apply chars_inj. apply (f_equal list_ascii_of_string) in H.
  rewrite !chars_append in H. apply app_inv_tail in H. exact H.
Qed.

Lemma join_relative (a b : string) :
  starts_with_slash b = false ->
  os_path_join a b = (joined_prefix a ++ b)%string.
Proof.
  intros H. unfold os_path_join, joined_prefix.
  assert (E : match b with
              | String "/"%char _ => b
              | _ => if String.eqb a "" || ends_with_slash a
                     then (a ++ b)%string else (a ++ "/" ++ b)%string
              end
              = if String.eqb a "" || ends_with_slash a
                then (a ++ b)%string else (a ++ "/" ++ b)%string).
  { destruct b as [|c b]; [reflexivity|].
    cbn [starts_with_slash] in H. revert H. char_cases c. }
  rewrite E. destruct (String.eqb a "" || ends_with_slash a); [reflexivity|].
  apply chars_inj. rewrite !chars_append, <- app_assoc. reflexivity.
Qed.

Lemma append_empty (s : string) : (s ++ "")%string = s.
Proof. induction s as [|c s IH]; [reflexivity|]. cbn. rewrite IH. reflexivity. Qed.

Lemma ends_append (a b : string) :
  b <> ""%string -> ends_with_slash (a ++ b) = ends_with_slash b.
Proof.
  intros Hb. unfold ends_with_slash. rewrite chars_append, rev_app_distr.
  destruct (rev (list_ascii_of_string b)) as [|c r] eqn:E; [|reflexivity].
  exfalso. apply Hb. apply chars_inj.
  rewrite <- (rev_involutive (list_ascii_of_string b)), E. reflexivity.
Qed.

Lemma not_slash_head (c : ascii) (s : string) :
  Ascii.eqb c "/"%char = false -> starts_with_slash (String c s) = false.
Proof. cbn [starts_with_slash]. char_cases c. Qed.

Lemma not_slash_last (c : ascii) (r : text) :
  Ascii.eqb c "/"%char = false ->
  match c :: r with
  | "/"%char :: _ => true
  | _ => false
  end = false.
Proof. char_cases c. Qed.

Lemma valid_name_inv (x : string) :
  valid_name x = true ->
  x <> ""%string
  /\ forallb (fun c => negb (Ascii.eqb c "/"%char)) (list_ascii_of_string x)
     = true.
Proof.
  unfold valid_name. intros H. apply andb_true_iff in H as [H1 H2].
  split; [|exact H2]. intros ->. discriminate H1.
Qed.

Lemma valid_proper (x : string) : valid_name x = true -> proper x.
Proof.
  intros H. destruct (valid_name_inv x H) as [Hne Hall].
  split; [exact Hne|]. split.
  - destruct x as [|c x]; [congruence|].
    cbn [list_ascii_of_string forallb] in Hall.
    apply andb_true_iff in Hall as [Hc _]. apply negb_true_iff in Hc.
    apply not_slash_head. exact Hc.
  - unfold ends_with_slash.
    destruct (rev (list_ascii_of_string x)) as [|c r] eqn:E; [reflexivity|].
    assert (HI : In c (list_ascii_of_string x)).
    { apply in_rev. rewrite E. left. reflexivity. }
    apply (proj1 (forallb_forall _ _) Hall) in HI.
    apply negb_true_iff in HI. exact (not_slash_last c r HI).
Qed.

Lemma joined_prefix_name (x : string) :
  valid_name x = true -> joined_prefix x = (x ++ "/")%string.
Proof.
  intros H. destruct (valid_proper x H) as [Hne [_ He]].
  unfold joined_prefix. rewrite He.
  destruct (String.eqb_spec x ""); [congruence | reflexivity].
Qed.

Lemma join_name (x y : string) :
  valid_name x = true -> proper y ->
  os_path_join x y = (x ++ "/" ++ y)%string.
Proof.
  intros Hx [_ [Hs _]]. rewrite (join_relative x y Hs), (joined_prefix_name x Hx).
  apply chars_inj. rewrite !chars_append, <- app_assoc. reflexivity.
Qed.

Lemma proper_under (x y : string) :
  valid_name x = true -> proper y -> proper (x ++ "/" ++ y).
Proof.
  intros Hx [Hne [Hs He]]. destruct (valid_proper x Hx) as [Hxne [Hxs _]].
  split; [|split].
  - destruct x; [congruence | discriminate].
  - destruct x as [|c x]; [congruence|]. exact Hxs.
  - rewrite ends_append.
    + rewrite (ends_append "/" y Hne). exact He.
    + discriminate.
Qed.

Lemma headed_unique (x x' s : string) :
  valid_name x = true -> valid_name x' = true ->
  headed x s -> headed x' s -> x = x'.
Proof.
  intros Hx Hx' H H'.
  destruct (valid_name_inv x Hx) as [_ Hall].
  destruct (valid_name_inv x' Hx') as [_ Hall'].
  assert (Hno : forall (z y : string),
             forallb (fun c => negb (Ascii.eqb c "/"%char))
               (list_ascii_of_string z) = true ->
             forallb (fun c => negb (Ascii.eqb c "/"%char))
               (list_ascii_of_string (z ++ "/" ++ y)) = false).
  { intros z y _. rewrite !chars_append, forallb_app.
    cbn [list_ascii_of_string app forallb].
    replace (negb (Ascii.eqb "/"%char "/"%char)) with false by reflexivity.
    cbn [andb]. apply andb_false_r. }
  destruct H as [->|[y ->]]; destruct H' as [E|[y' E]].
  - congruence.
  - rewrite E, (Hno x' y' Hall') in Hall. discriminate Hall.
  - rewrite <- E, (Hno x y Hall) in Hall'. discriminate Hall'.
  - apply chars_inj. apply (f_equal list_ascii_of_string) in E.
    rewrite !chars_append in E. cbn [list_ascii_of_string app] in E.
    apply (span_unique (fun c => negb (Ascii.eqb c "/"%char))) in E as [E _];
      [exact E | exact Hall | exact Hall' | reflexivity | reflexivity].
Qed.

Lemma NoDup_map_in {A B : Type} (f : A -> B) (l : list A) :
  (forall a b, In a l -> In b l -> f a = f b -> a = b) ->
  NoDup l -> NoDup (map f l).
Proof.
  intros Hinj H. induction H as [|a l Ha _ IH]; cbn [map]; constructor.
  - intros HI. apply in_map_iff in HI as [b [E Hb]].
    apply Ha. rewrite (Hinj a b (or_introl eq_refl) (or_intror Hb) (eq_sym E)).
    exact Hb.
  - apply IH. intros a' b' Ha' Hb'. apply Hinj; right; assumption.
Qed.

Lemma length_append (a b : string) :
  String.length (a ++ b) = String.length a + String.length b.
Proof.
  induction a as [|c a IH]; [reflexivity|].
  cbn [String.append String.length]. rewrite IH. reflexivity.
Qed.

(** The paths that the listing gives for one entry that is a directory
    and not hidden: its name, and the paths of its own listing under
    it. *)
Lemma entry_paths (x : string) (es : list (string * node)) :
  valid_name x = true ->
  NoDup (map fst (rlistdir (Dir es))) ->
  Forall proper (map fst (rlistdir (Dir es))) ->
  map fst ((x, Dir es)
           :: map (fun yn => (os_path_join x (fst yn), snd yn))
                (rlistdir (Dir es)))
  = x :: map (fun y => (x ++ "/" ++ y)%string) (map fst (rlistdir (Dir es)))
  /\ NoDup (x :: map (fun y => (x ++ "/" ++ y)%string)
                   (map fst (rlistdir (Dir es))))
  /\ Forall (fun s => proper s /\ headed x s)
       (x :: map (fun y => (x ++ "/" ++ y)%string)
               (map fst (rlistdir (Dir es)))).
Proof.
  intros Hvx Nc Fc. split; [|split].
  - cbn [map fst]. f_equal. rewrite !map_map. apply map_ext_in.
    intros [y m] Hy. cbn [fst]. apply join_name; [exact Hvx|].
    apply (proj1 (Forall_forall _ _) Fc y).
    apply in_map_iff. exists (y, m). split; [reflexivity | exact Hy].
  - constructor.
    + intros HI. apply in_map_iff in HI as [y [E _]].
      apply (f_equal String.length) in E.
      rewrite !length_append in E. cbn [String.length] in E. lia.
    + apply NoDup_map_in; [|exact Nc].
      intros a b _ _ E. apply append_inv_head in E.
      apply append_inv_head in E. exact E.
  - constructor.
    + split; [apply valid_proper, Hvx | left; reflexivity].
    + apply Forall_forall. intros s Hs.
      apply in_map_iff in Hs as [y [<- Hy]]. split.
      * apply proper_under; [exact Hvx|].
        apply (proj1 (Forall_forall _ _) Fc y Hy).
      * right. exists y. reflexivity.
Qed.

(** The relative paths the recursive listing gives are proper, and none
    is given twice. *)
Lemma rlistdir_paths (tree : node) :
  well_formed tree ->
  NoDup (map fst (rlistdir tree))
  /\ Forall proper (map fst (rlistdir tree)).
Proof.
  induction tree as [content|entries IH] using node_induction; intros Hwf.
  - split; constructor.
  - inversion Hwf as [|? Hnd Hvalid Hsub]; subst. clear Hwf.
    rewrite rlistdir_dir.
    set (g := fun xc : string * node =>
                if ishidden (fst xc) then []
                else match snd xc with
                     | Dir _ =>
                         (fst xc, snd xc)
                         :: map (fun yn => (os_path_join (fst xc) (fst yn),
                                            snd yn))
                              (rlistdir (snd xc))
                     | File _ => []
                     end).
    assert (H : NoDup (map fst (flat_map g entries))
                /\ Forall (fun s => proper s
                                    /\ exists x, In x (map fst entries)
                                                 /\ valid_name x = true
                                                 /\ headed x s)
                     (map fst (flat_map g entries))).
    { induction entries as [|[x child] entries IHe].
      - split; constructor.
      - inversion Hnd as [|? ? Hx Hnd']; subst.
        inversion Hvalid as [|? ? Hvx Hvalid']; subst.
        inversion Hsub as [|? ? Hwx Hsub']; subst.
        inversion IH as [|? ? IHx IH']; subst.
        cbn [fst snd] in Hvx, Hwx, IHx, Hx.
        destruct (IHe IH' Hnd' Hvalid' Hsub') as [N F].
        assert (F' : Forall (fun s => proper s
                                      /\ exists x0,
                                           In x0 (map fst ((x, child) :: entries))
                                           /\ valid_name x0 = true
                                           /\ headed x0 s)
                       (map fst (flat_map g entries))).
        { apply Forall_forall. intros s Hs.
          destruct (proj1 (Forall_forall _ _) F s Hs) as [Hp [x0 [Hi Hh]]].
          split; [exact Hp|]. exists x0. split; [right; exact Hi | exact Hh]. }
        cbn [flat_map]. rewrite map_app. unfold g at 1 3. cbn [fst snd].
        destruct (ishidden x); [split; [exact N | exact F']|].
        destruct child as [c|es]; [split; [exact N | exact F']|].
        destruct (IHx Hwx) as [Nc Fc].
        destruct (entry_paths x es Hvx Nc Fc) as [Eb [Nb Fb]].
        rewrite Eb. split.
        + apply NoDup_app; [exact Nb | exact N|].
          intros s Hs Hs'.
          destruct (proj1 (Forall_forall _ _) Fb s Hs) as [_ Hh1].
          destruct (proj1 (Forall_forall _ _) F s Hs')
            as [_ [x2 [Hx2 [Hv2 Hh2]]]].
          rewrite (headed_unique x x2 s Hvx Hv2 Hh1 Hh2) in Hx.
          contradiction.
        + apply Forall_app. split; [|exact F'].
          apply Forall_forall. intros s Hs.
          destruct (proj1 (Forall_forall _ _) Fb s Hs) as [Hp Hh].
          split; [exact Hp|]. exists x.
          split; [left; reflexivity | split; [exact Hvx | exact Hh]]. }
    destruct H as [N F]. split; [exact N|].
    apply (Forall_impl _ (fun s Hs => proj1 Hs) F).
Qed.

Lemma joined_prefix_twice (a : string) :
  joined_prefix (joined_prefix a) = joined_prefix a.
Proof.
  unfold joined_prefix.
  destruct (String.eqb a "" || ends_with_slash a) eqn:E.
  - rewrite E. reflexivity.
  - rewrite (ends_append a "/") by discriminate.
    replace (ends_with_slash "/") with true by reflexivity.
    rewrite orb_true_r. reflexivity.
Qed.

(** The path of [tokens.go] in the root, and in the directory at a
    proper relative path. *)
Lemma found_in_root (root : string) :
  os_path_join (os_path_join root "") "tokens.go"
  = (joined_prefix root ++ "tokens.go")%string.
Proof.
  rewrite (join_relative root "" eq_refl), append_empty.
  rewrite (join_relative _ "tokens.go" eq_refl), joined_prefix_twice.
  reflexivity.
Qed.

Lemma found_below (root d : string) :
  proper d ->
  os_path_join (os_path_join root d) "tokens.go"
  = (joined_prefix root ++ d ++ "/tokens.go")%string.
Proof.
  intros [Hne [Hs He]].
  rewrite (join_relative root d Hs), (join_relative _ "tokens.go" eq_refl).
  unfold joined_prefix at 1.
  rewrite (ends_append (joined_prefix root) d Hne), He, orb_false_r.
  destruct (String.eqb_spec (joined_prefix root ++ d) "") as [E|_].
  - exfalso. apply (f_equal String.length) in E.
    rewrite length_append in E. cbn [String.length] in E.
    destruct d; [congruence | cbn [String.length] in E; lia].
  - apply chars_inj. rewrite !chars_append, <- !app_assoc. reflexivity.
Qed.

Lemma found_injective (root a b : string) :
  a = ""%string \/ proper a -> b = ""%string \/ proper b ->
  os_path_join (os_path_join root a) "tokens.go"
  = os_path_join (os_path_join root b) "tokens.go" ->
  a = b.
Proof.
  intros [->|Ha] [->|Hb]; rewrite ?found_in_root, ?(found_below root a Ha),
    ?(found_below root b Hb); intros E.
  - reflexivity.
  - exfalso. apply append_inv_head in E.
    apply (f_equal String.length) in E. rewrite length_append in E.
    cbn [String.length] in E. lia.
  - exfalso. apply append_inv_head in E.
    apply (f_equal String.length) in E. rewrite length_append in E.
    cbn [String.length] in E. lia.
  - apply append_inv_head in E.
    apply (append_inv_tail a b "/tokens.go" E).
Qed.

Lemma glob_tokens_nodup (root : string) (tree : node) :
  well_formed tree -> NoDup (glob_tokens root tree).
Proof.
  intros Hwf. destruct (rlistdir_paths tree Hwf) as [N F].
  unfold glob_tokens.
  assert (N1 : NoDup (map fst ((""%string, tree) :: rlistdir tree))).
  { cbn [map fst]. constructor; [|exact N].
    intros HI. apply (proj1 (Forall_forall _ _) F) in HI.
    destruct HI as [Hne _]. congruence. }
  assert (F1 : Forall (fun d => d = ""%string \/ proper d)
                 (map fst ((""%string, tree) :: rlistdir tree))).
  { cbn [map fst]. constructor; [left; reflexivity|].
    apply (Forall_impl _ (fun d Hd => or_intror Hd) F). }
  revert N1 F1. generalize ((""%string, tree) :: rlistdir tree).
  intros l. induction l as [|[d n] l IHl]; intros N1 F1; [constructor|].
  cbn [map fst] in N1, F1.
  inversion N1 as [|? ? Hd N1']; subst. inversion F1 as [|? ? Pd F1']; subst.
  cbn [flat_map fst snd].
  destruct (has_entry "tokens.go" n); [|apply IHl; assumption].
  cbn [app]. constructor; [|apply IHl; assumption].
  intros HI. apply in_flat_map in HI as [[d' n'] [Hin Hp]]. cbn [fst snd] in Hp.
  destruct (has_entry "tokens.go" n'); [|contradiction].
  destruct Hp as [E|[]].
  assert (Hd' : In d' (map fst l)).
  { apply in_map_iff. exists (d', n'). split; [reflexivity | exact Hin]. }
  apply Hd.
  rewrite (found_injective root d d' Pd
             (proj1 (Forall_forall _ _) F1' d' Hd') (eq_sym E)).
  exact Hd'.
Qed.

(** For a literal root and a tree as a file system has it,
    [find_tokens_files] returns a list in which no path stands twice. *)
Theorem find_tokens_files_nodup (root : string) (tree : node) :
  literal_root root = true -> well_formed tree ->
  exists files, find_tokens_files root tree = Some files /\ NoDup files.
Proof.
  intros Hroot Hwf. exists (glob_tokens root tree). split.
  - unfold find_tokens_files. rewrite Hroot. reflexivity.
  - apply glob_tokens_nodup. exact Hwf.
Qed.

(** ** More concrete runs *)

Lemma add_import_into_block_witness :
  add_symbol_import grouped_file = Ok grouped_imported.
Proof.
  apply (add_import_into_block grouped_file
           [] [[]] [tab :: quoted (str "fmt")] [[]; str "const ("; str ")"]
           (str "package tokens") (str "import (") (str ")")).
  - reflexivity.
  - constructor.
  - reflexivity.
  - constructor; [left; reflexivity | constructor].
  - reflexivity.
  - constructor; [reflexivity | constructor].
  - reflexivity.
Defined.

Lemma add_import_after_odd_import_witness :
  add_symbol_import odd_file = Ok odd_file.
Proof.
  apply (add_import_after_odd_import odd_file
           [] [[]; str "import" ++ quoted (str "fmt")]
           [[]; str "const ("; str ")"] (str "package tokens")).
  - reflexivity.
  - constructor.
  - reflexivity.
  - constructor; [left; reflexivity|].
    constructor; [right; reflexivity | constructor].
  - reflexivity.
  - intros l H. vm_compute in H. inversion H. reflexivity.
Defined.

Lemma add_import_shapes_witness :
  exists p,
    find_package (split_lines plain_file) 0 = Some p
    /\ (plain_imported = plain_file
        \/ (exists A B,
               split_lines plain_file = A ++ B /\ length A = S p
               /\ plain_imported
                  = join_lines (A ++ [] :: import_statement :: [] :: B))
        \/ (exists A B,
               split_lines plain_file = A ++ B /\ S p < length A
               /\ plain_imported = join_lines (A ++ import_entry :: B))
        \/ (exists A l B,
               split_lines plain_file = A ++ l :: B /\ p < length A
               /\ startswith (strip l) (str "import ") = true
               /\ plain_imported
                  = join_lines
                      (A ++ str "import (" :: (tab :: skipn 7 (strip l))
                         :: import_entry :: str ")" :: B))).
Proof.
  apply (add_import_shapes plain_file plain_imported).
  vm_compute. reflexivity.
Defined.


Lemma rewrite_keeps_surroundings_witness :
  convert_line
    (str "var" ++ assignment (str " ") (str "STATUS_OK") (str " ") (str " ")
                    (str "status.ok") ++ str " // ok")
  = str "var" ++ rewritten (str " ") (str "STATUS_OK") (str "status.ok")
      ++ str " // ok".
Proof.
  apply (rewrite_keeps_surroundings (str "var") (str " ") (str "STATUS_OK")
           (str " ") (str " ") (str "status.ok") (str " // ok")).
  - unfold eligible. repeat split; try reflexivity; discriminate.
  - reflexivity.
  - reflexivity.
  - vm_compute. reflexivity.
Defined.

Lemma empty_literal_unchanged_witness :
  convert_line (str "EMPTY = " ++ quoted (str "govel.") ++ str ",")
  = str "EMPTY = " ++ quoted (str "govel.") ++ str ",".
Proof.
  apply (empty_literal_unchanged (str "EMPTY = ") (str ",")); reflexivity.
Defined.

Lemma main_report_witness :
  exists blocks updated_count,
    snd (main (one_file plain_file) ["tokens.go"%string])
    = Found 1 :: map Listed ["tokens.go"%string]
        ++ UpdatingFiles :: concat blocks ++ [Completed updated_count 1]
    /\ Forall2 report_block ["tokens.go"%string] blocks
    /\ updated_count = length (filter is_updated (concat blocks)).
Proof.
  apply (main_report (one_file plain_file) ["tokens.go"%string]).
  discriminate.
Defined.

Lemma second_run_updates_nothing_witness :
  fst (fst (update_all
              (fst (fst (update_all (one_file plain_file) ["tokens.go"%string])))
              ["tokens.go"%string]))
  = fst (fst (update_all (one_file plain_file) ["tokens.go"%string]))
  /\ snd (update_all
            (fst (fst (update_all (one_file plain_file) ["tokens.go"%string])))
            ["tokens.go"%string]) = 0.
Proof.
  apply (second_run_updates_nothing (one_file plain_file) ["tokens.go"%string]).
  intros p t' [<-|[]] H. vm_compute in H. inversion H.
  left. vm_compute. reflexivity.
Defined.

Lemma fresh_file_two_runs_witness :
  snd (update_tokens_file (one_file plain_file) "tokens.go") = true
  /\ update_tokens_file
       (fst (fst (update_tokens_file (one_file plain_file) "tokens.go")))
       "tokens.go"
     = (fst (fst (update_tokens_file (one_file plain_file) "tokens.go")), [],
        false).
Proof.
  apply (fresh_file_two_runs (one_file plain_file) "tokens.go"
           plain_file plain_imported).
  - reflexivity.
  - vm_compute. reflexivity.
  - vm_compute. reflexivity.
  - intros H. apply (f_equal (@length ascii)) in H. vm_compute in H.
    discriminate H.
Defined.

Lemma transform_leaves_no_opener_witness :
  count_openers None plain_done = 0.
Proof.
  apply (transform_leaves_no_opener plain_file plain_done).
  vm_compute. reflexivity.
Defined.

Lemma add_import_adds_one_witness :
  occurrences quoted_path plain_imported
  = S (occurrences quoted_path plain_file)
  /\ has_symbol_import plain_imported = true.
Proof.
  apply (add_import_adds_one plain_file plain_imported).
  - vm_compute. reflexivity.
  - intros H. apply (f_equal (@length ascii)) in H. vm_compute in H.
    discriminate H.
Defined.

Lemma tokens_file_transformed_witness :
  transform plain_file = Ok plain_done.
Proof.
  apply (tokens_file_transformed [] (str "package tokens") [[]]
           [Assign [tab] (str "STATUS_OK") (str "   ") (str "  ")
              (str "status.ok");
            Other (str ")")]).
  - constructor.
  - constructor.
  - reflexivity.
  - reflexivity.
  - constructor; [split; reflexivity | constructor].
  - constructor; [|constructor; [reflexivity | constructor]].
    cbn [entry_ok]. unfold eligible.
    repeat split; try reflexivity; discriminate.
Defined.

Lemma batch_order_irrelevant_witness :
  (forall q,
      fst (main (one_file plain_file) ["tokens.go"%string; "other.go"%string]) q
      = fst (main (one_file plain_file) ["other.go"%string; "tokens.go"%string]) q)
  /\ snd (update_all (one_file plain_file) ["tokens.go"%string; "other.go"%string])
     = snd (update_all (one_file plain_file) ["other.go"%string; "tokens.go"%string]).
Proof.
  apply (batch_order_irrelevant (one_file plain_file)
           ["tokens.go"%string; "other.go"%string]
           ["other.go"%string; "tokens.go"%string]).
  - constructor; [intros [H|[]]; discriminate H|].
    constructor; [intros []|constructor].
  - apply perm_swap.
Defined.

Lemma main_counts_changed_files_witness :
  exists printed,
    snd (main (one_file plain_file) ["tokens.go"%string])
    = printed ++ [Completed
                    (length (filter (changes (one_file plain_file))
                               ["tokens.go"%string]))
                    1].
Proof.
  apply (main_counts_changed_files (one_file plain_file) ["tokens.go"%string]).
  - constructor; [intros []|constructor].
  - discriminate.
Defined.

Lemma find_tokens_files_nodup_witness :
  exists files,
    find_tokens_files root_dir sample_tree = Some files /\ NoDup files.
Proof.
  apply (find_tokens_files_nodup root_dir sample_tree); [reflexivity|].
  constructor.
  - constructor; [intros [H|[H|[]]]; discriminate H|].
    constructor; [intros [H|[]]; discriminate H|].
    constructor; [intros []|constructor].
  - repeat constructor.
  - constructor; [constructor|].
    constructor.
    + constructor.
      * constructor; [intros [H|[]]; discriminate H|].
        constructor; [intros []|constructor].
      * repeat constructor.
      * repeat constructor.
    + constructor; [|constructor].
      constructor.
      * constructor; [intros []|constructor].
      * repeat constructor.
      * repeat constructor.
Defined.

Lemma transform_idempotent_witness :
  exists t',
    transform plain_file = Ok t'
    /\ transform t' = Ok t'
    /\ forall fs path, fs path = Some t' ->
         update_tokens_file fs path = (fs, [], false).
Proof.
  apply (transform_idempotent plain_file). left. split.
  - vm_compute. reflexivity.
  - exists plain_imported. split; [vm_compute; reflexivity|].
    intros H. apply (f_equal (@length ascii)) in H. vm_compute in H.
    discriminate H.
Defined.

Lemma find_tokens_files_spec_witness :
  exists files,
    find_tokens_files root_dir sample_tree = Some files
    /\ forall path,
         In path files
         <-> exists ds n,
               below sample_tree ds n /\ has_entry "tokens.go" n = true
               /\ path = os_path_join (os_path_join root_dir (relative ds))
                           "tokens.go".
Proof.
  apply (find_tokens_files_spec root_dir sample_tree). reflexivity.
Defined.

(** What is found in [sample_tree]: the file in the root and the one in
    the package, not the one in the hidden directory. *)
Lemma sample_tree_found :
  find_tokens_files root_dir sample_tree
  = Some ["/Users/akouta/Projects/govel/tokens.go"%string;
          "/Users/akouta/Projects/govel/pkg/tokens.go"%string].
Proof. vm_compute. reflexivity. Qed.
